(** * A scene graph with pending and current state: wlr_scene.c

    The development embeds [types/wlr_scene.c] of wlroots.  The scene graph is
    a pointer structure: every node carries two [struct wl_list] heads (its
    current and pending children) and two [struct wl_list] links (its place in
    the parent's current and pending children).  The embedding keeps that
    shape: a heap of objects indexed by address, list cells addressed by
    (object, member), and the list primitives of libwayland written store by
    store.  In the list primitives a null pointer dereference and an access
    to freed memory are the result [None]; the functions of the scene turn
    it into [Fail undefined_behaviour], and a failed assertion is
    [Fail assertion_failure]. *)

From stdpp Require Import base option list gmap.
From Stdlib Require Import ZArith Lia.

Set Warnings "-register-all,-clear-no-such-hyp".
Set Default Proof Using "Type".


(** ** Memory model *)

Abbreviation addr := positive.

(** The [struct wl_list] members of the objects of this file. *)
Inductive member :=
| current_children      (* wlr_scene_node.current.children *)
| current_link          (* wlr_scene_node.current.link *)
| pending_children      (* wlr_scene_node.pending.children *)
| pending_link          (* wlr_scene_node.pending.link *)
| surface_destroy_link  (* wlr_scene_surface.surface_destroy.link *)
| destroy_listener_list (* wlr_surface.events.destroy.listener_list *).

#[global] Instance member_eq_dec : EqDecision member.
Proof. solve_decision. Defined.

(** The address of a [struct wl_list]: [&obj->member]. *)
Abbreviation loc := (addr * member)%type.
(** A [struct wl_list *]; [None] is NULL. *)
Abbreviation ptr := (option loc).

Record wl_list := Wl_list { prev : ptr; next : ptr }.

Record wlr_scene_node_state := Wlr_scene_node_state {
  x : Z; y : Z; children : wl_list; link : wl_list }.

Inductive wlr_scene_node_type := WLR_SCENE_NODE_ROOT | WLR_SCENE_NODE_SURFACE.

#[global] Instance wlr_scene_node_type_eq_dec : EqDecision wlr_scene_node_type.
Proof. solve_decision. Defined.

(** [struct wlr_scene_node], together with the two members that
    [struct wlr_scene_surface] adds to it ([surface], [surface_destroy]);
    these exist only when [type] is [WLR_SCENE_NODE_SURFACE]. *)
Record wlr_scene_node := Wlr_scene_node {
  type : wlr_scene_node_type;
  parent : option addr;
  current : wlr_scene_node_state;
  pending : wlr_scene_node_state;
  surface : option addr;
  surface_destroy : wl_list }.

(** A heap object is a scene node or a [struct wlr_surface], of which only the
    listener list of its destroy signal lives in the heap. *)
Inductive object :=
| Node (n : wlr_scene_node)
| Surface (listener_list : wl_list).

Abbreviation heap := (gmap addr object).

Definition node_at (h : heap) (a : addr) : option wlr_scene_node :=
  match h !! a with Some (Node n) => Some n | _ => None end.

Definition get_member (m : member) (o : object) : option wl_list :=
  match o, m with
  | Node n, current_children => Some (children (current n))
  | Node n, current_link => Some (link (current n))
  | Node n, pending_children => Some (children (pending n))
  | Node n, pending_link => Some (link (pending n))
  | Node n, surface_destroy_link =>
      match type n with
      | WLR_SCENE_NODE_SURFACE => Some (surface_destroy n)
      | WLR_SCENE_NODE_ROOT => None
      end
  | Surface c, destroy_listener_list => Some c
  | _, _ => None
  end.

Definition set_children (c : wl_list) (s : wlr_scene_node_state) :=
  {| x := x s; y := y s; children := c; link := link s |}.
Definition set_link (c : wl_list) (s : wlr_scene_node_state) :=
  {| x := x s; y := y s; children := children s; link := c |}.
Definition set_current (s : wlr_scene_node_state) (n : wlr_scene_node) :=
  {| type := type n; parent := parent n; current := s; pending := pending n;
     surface := surface n; surface_destroy := surface_destroy n |}.
Definition set_pending (s : wlr_scene_node_state) (n : wlr_scene_node) :=
  {| type := type n; parent := parent n; current := current n; pending := s;
     surface := surface n; surface_destroy := surface_destroy n |}.

Definition set_member (m : member) (c : wl_list) (o : object) : option object :=
  match o, m with
  | Node n, current_children =>
      Some (Node (set_current (set_children c (current n)) n))
  | Node n, current_link => Some (Node (set_current (set_link c (current n)) n))
  | Node n, pending_children =>
      Some (Node (set_pending (set_children c (pending n)) n))
  | Node n, pending_link => Some (Node (set_pending (set_link c (pending n)) n))
  | Node n, surface_destroy_link =>
      match type n with
      | WLR_SCENE_NODE_SURFACE =>
          Some (Node {| type := type n; parent := parent n;
                        current := current n; pending := pending n;
                        surface := surface n; surface_destroy := c |})
      | WLR_SCENE_NODE_ROOT => None
      end
  | Surface _, destroy_listener_list => Some (Surface c)
  | _, _ => None
  end.

Definition load (h : heap) (l : loc) : option wl_list :=
  o ← h !! l.1; get_member l.2 o.

Definition store (l : loc) (c : wl_list) (h : heap) : option heap :=
  o ← h !! l.1; o' ← set_member l.2 c o; Some (<[l.1 := o']> h).

(** Reads and writes of one pointer of a cell: [l->next], [l->prev]. *)
Definition load_next (h : heap) (l : loc) : option ptr := next <$> load h l.
Definition load_prev (h : heap) (l : loc) : option ptr := prev <$> load h l.
Definition store_next (l : loc) (v : ptr) (h : heap) : option heap :=
  c ← load h l; store l {| prev := prev c; next := v |} h.
Definition store_prev (l : loc) (v : ptr) (h : heap) : option heap :=
  c ← load h l; store l {| prev := v; next := next c |} h.

(** The members of a node that are not list cells. *)
Record scalars := Scalars {
  s_type : wlr_scene_node_type; s_parent : option addr;
  s_current : Z * Z; s_pending : Z * Z; s_surface : option addr }.

Definition scalars_of (n : wlr_scene_node) : scalars :=
  {| s_type := type n; s_parent := parent n;
     s_current := (x (current n), y (current n));
     s_pending := (x (pending n), y (pending n));
     s_surface := surface n |}.

Definition node_scalars (h : heap) (a : addr) : option scalars :=
  scalars_of <$> node_at h a.

Definition current_pos (h : heap) (a : addr) : option (Z * Z) :=
  s_current <$> node_scalars h a.
Definition pending_pos (h : heap) (a : addr) : option (Z * Z) :=
  s_pending <$> node_scalars h a.
Definition parent_of (h : heap) (a : addr) : option (option addr) :=
  s_parent <$> node_scalars h a.
Definition type_of (h : heap) (a : addr) : option wlr_scene_node_type :=
  s_type <$> node_scalars h a.

(** ** libwayland: wl_list *)

(** [wl_list_init]: [list->prev = list; list->next = list]. *)
Definition wl_list_init (list : loc) (h : heap) : option heap :=
  h1 ← store_prev list (Some list) h;
  store_next list (Some list) h1.

(** [wl_list_insert]: [elm->prev = list; elm->next = list->next;
    list->next = elm; elm->next->prev = elm]. *)
Definition wl_list_insert (list elm : ptr) (h : heap) : option heap :=
  e ← elm;
  l ← list;
  h1 ← store_prev e (Some l) h;
  ln ← load_next h1 l;
  h2 ← store_next e ln h1;
  h3 ← store_next l (Some e) h2;
  en ← load_next h3 e;
  n ← en;
  store_prev n (Some e) h3.

(** [wl_list_remove]: [elm->prev->next = elm->next;
    elm->next->prev = elm->prev; elm->next = NULL; elm->prev = NULL]. *)
Definition wl_list_remove (elm : ptr) (h : heap) : option heap :=
  e ← elm;
  ep ← load_prev h e;
  p ← ep;
  en ← load_next h e;
  h1 ← store_next p en h;
  en' ← load_next h1 e;
  n ← en';
  ep' ← load_prev h1 e;
  h2 ← store_prev n ep' h1;
  h3 ← store_next e None h2;
  store_prev e None h3.

(** [wl_container_of(p, sample, member)]: the object whose [member] is at
    [p].  A pointer that is null or points at another member gives a pointer
    that is no object of the right type; using it is a fault. *)
Definition wl_container_of (p : ptr) (m : member) : option addr :=
  l ← p; if decide (l.2 = m) then Some l.1 else None.

(** ** Outcomes of a call

    The functions of the scene return nothing; what can go wrong is a failed
    [assert] (the process aborts) or undefined behaviour (a null or dangling
    pointer is dereferenced, a signed addition overflows, a conversion is out
    of range).  [out_of_fuel] belongs to the model only: loops and recursion
    follow pointers, so they take a bound on the number of steps. *)

Inductive failure := assertion_failure | undefined_behaviour | out_of_fuel.

Inductive result (A : Type) :=
| Ok (a : A)
| Fail (f : failure).
Arguments Ok {A} a.
Arguments Fail {A} f.

#[global] Instance result_ret : MRet result := λ A a, Ok a.
#[global] Instance result_bind : MBind result := λ A B k r,
  match r with Ok a => k a | Fail f => Fail f end.
#[global] Instance result_fmap : FMap result := λ A B g r,
  match r with Ok a => Ok (g a) | Fail f => Fail f end.

(** A memory access that must succeed. *)
Definition must {A} (o : option A) : result A :=
  match o with Some a => Ok a | None => Fail undefined_behaviour end.

Definition assert (b : bool) : result unit :=
  if b then Ok () else Fail assertion_failure.

(** Arithmetic of C's [int]: a result out of range is undefined. *)
Definition INT_MIN : Z := - 2 ^ 31.
Definition INT_MAX : Z := 2 ^ 31 - 1.
Definition in_int (z : Z) : bool := (INT_MIN <=? z)%Z && (z <=? INT_MAX)%Z.
Definition to_int (z : Z) : result Z :=
  if in_int z then Ok z else Fail undefined_behaviour.
Definition int_add (a b : Z) : result Z := to_int (a + b).
Definition int_sub (a b : Z) : result Z := to_int (a - b).

(** ** libwayland: the iteration macros

    [wl_list_for_each(pos, head, member)] and
    [wl_list_for_each_safe(pos, tmp, head, member)].  The loop variable is
    kept as the address of the link, [&pos->member], which is what the macros
    compare with [head]. *)

Section iteration.
Context {St : Type}.
Variable mem : St → heap.
Variable m : member.
Variable head : loc.
Variable body : addr → St → result St.

Fixpoint for_each_from (fuel : nat) (pos : ptr) (s : St) : result St :=
  match fuel with
  | O => Fail out_of_fuel
  | S fuel =>
      if decide (pos = Some head) then Ok s
      else
        child ← must (wl_container_of pos m);
        s' ← body child s;
        nxt ← must (load_next (mem s') (child, m));
        for_each_from fuel nxt s'
  end.

Definition wl_list_for_each (fuel : nat) (s : St) : result St :=
  first ← must (load_next (mem s) head);
  for_each_from fuel first s.

Fixpoint for_each_safe_from (fuel : nat) (pos tmp : ptr) (s : St)
    : result St :=
  match fuel with
  | O => Fail out_of_fuel
  | S fuel =>
      if decide (pos = Some head) then Ok s
      else
        child ← must (wl_container_of pos m);
        s' ← body child s;
        t ← must tmp;
        nxt ← must (load_next (mem s') t);
        for_each_safe_from fuel tmp nxt s'
  end.

Definition wl_list_for_each_safe (fuel : nat) (s : St) : result St :=
  first ← must (load_next (mem s) head);
  f ← must first;
  second ← must (load_next (mem s) f);
  for_each_safe_from fuel first second s.
End iteration.

(** ** The scene: creation *)

Definition NULL_list : wl_list := {| prev := None; next := None |}.

(** What [calloc] returns for a node: every member zero. *)
Definition zero_node : wlr_scene_node :=
  let st := {| x := 0; y := 0; children := NULL_list; link := NULL_list |} in
  {| type := WLR_SCENE_NODE_ROOT; parent := None; current := st; pending := st;
     surface := None; surface_destroy := NULL_list |}.

(** [calloc]: [p] is the allocator's answer, NULL or an unused address. *)
Definition calloc (p : option addr) (h : heap) : option (addr * heap) :=
  a ← p;
  match h !! a with
  | None => Some (a, <[a := Node zero_node]> h)
  | Some _ => None
  end.

Definition scene_node_state_init (node : addr) (children_m link_m : member)
    (h : heap) : option heap :=
  h1 ← wl_list_init (node, children_m) h;
  wl_list_init (node, link_m) h1.

Definition set_type_parent (ty : wlr_scene_node_type) (p : option addr)
    (n : wlr_scene_node) : wlr_scene_node :=
  {| type := ty; parent := p; current := current n; pending := pending n;
     surface := surface n; surface_destroy := surface_destroy n |}.

Definition scene_node_init (node : addr) (ty : wlr_scene_node_type)
    (parent : option addr) (h : heap) : result heap :=
  assert (bool_decide (ty = WLR_SCENE_NODE_ROOT ∨ parent ≠ None));;
  parent_is_root ←
    match parent with
    | None => Ok true
    | Some p =>
        pty ← must (type_of h p);
        Ok (bool_decide (pty = WLR_SCENE_NODE_ROOT))
    end;
  assert parent_is_root;;
  n ← must (node_at h node);
  let h := <[node := Node (set_type_parent ty parent n)]> h in
  h ← must (scene_node_state_init node current_children current_link h);
  h ← must (scene_node_state_init node pending_children pending_link h);
  match parent with
  | None => Ok h
  | Some p =>
      tail ← must (load_prev h (p, pending_children));
      must (wl_list_insert tail (Some (node, pending_link)) h)
  end.

(** [wlr_scene_create]: the result is the new scene, or NULL. *)
Definition wlr_scene_create (p : option addr) (h : heap)
    : result (option addr * heap) :=
  match calloc p h with
  | None => Ok (None, h)
  | Some (scene, h) =>
      h ← scene_node_init scene WLR_SCENE_NODE_ROOT None h;
      Ok (Some scene, h)
  end.

Definition set_surface (s : option addr) (n : wlr_scene_node) : wlr_scene_node :=
  {| type := type n; parent := parent n; current := current n;
     pending := pending n; surface := s; surface_destroy := surface_destroy n |}.

(** [wl_signal_add(signal, listener)] is
    [wl_list_insert(signal->listener_list.prev, &listener->link)]. *)
Definition wl_signal_add (listener_list link : loc) (h : heap) : option heap :=
  tail ← load_prev h listener_list;
  wl_list_insert tail (Some link) h.

Definition wlr_scene_surface_create (p : option addr) (parent : addr)
    (surface : addr) (h : heap) : result (option addr * heap) :=
  match calloc p h with
  | None => Ok (None, h)
  | Some (scene_surface, h) =>
      h ← scene_node_init scene_surface WLR_SCENE_NODE_SURFACE (Some parent) h;
      n ← must (node_at h scene_surface);
      let h := <[scene_surface := Node (set_surface (Some surface) n)]> h in
      h ← must (wl_signal_add (surface, destroy_listener_list)
                  (scene_surface, surface_destroy_link) h);
      Ok (Some scene_surface, h)
  end.

(** ** The scene: pending state and commit *)

Definition scene_node_state_move (dst src : wlr_scene_node_state)
    : wlr_scene_node_state :=
  {| x := x src; y := y src; children := children dst; link := link dst |}.

(** The body of the first loop of [wlr_scene_node_commit]. *)
Definition commit_relink (node child : addr) (h : heap) : result heap :=
  h ← must (wl_list_remove (Some (child, current_link)) h);
  tail ← must (load_prev h (node, current_children));
  must (wl_list_insert tail (Some (child, current_link)) h).

Definition commit_state (node : addr) (h : heap) : result heap :=
  n ← must (node_at h node);
  Ok (<[node := Node (set_current
                        (scene_node_state_move (current n) (pending n)) n)]> h).

Fixpoint wlr_scene_node_commit (fuel : nat) (node : addr) (h : heap)
    : result heap :=
  match fuel with
  | O => Fail out_of_fuel
  | S fuel =>
      h ← commit_state node h;
      h ← wl_list_for_each id pending_link (node, pending_children)
            (commit_relink node) fuel h;
      wl_list_for_each id current_link (node, current_children)
        (wlr_scene_node_commit fuel) fuel h
  end.

Definition wlr_scene_node_move (node : addr) (x y : Z) (h : heap)
    : result heap :=
  n ← must (node_at h node);
  let st := {| x := x; y := y; children := children (pending n);
               link := link (pending n) |} in
  Ok (<[node := Node (set_pending st n)]> h).

Definition wlr_scene_node_place_above (node sibling : addr) (h : heap)
    : result heap :=
  n ← must (node_at h node);
  s ← must (node_at h sibling);
  assert (bool_decide (parent n = parent s));;
  h ← must (wl_list_remove (Some (node, pending_link)) h);
  must (wl_list_insert (Some (sibling, pending_link))
          (Some (node, pending_link)) h).

Definition wlr_scene_node_place_below (node sibling : addr) (h : heap)
    : result heap :=
  n ← must (node_at h node);
  s ← must (node_at h sibling);
  assert (bool_decide (parent n = parent s));;
  h ← must (wl_list_remove (Some (node, pending_link)) h);
  before ← must (load_prev h (sibling, pending_link));
  must (wl_list_insert before (Some (node, pending_link)) h).

(** ** The scene: destruction *)

(** What a destruction does that is seen from outside the heap: the destroy
    signal of a node is emitted ([wlr_signal_emit_safe]), a node is freed. *)
Inductive teardown_event :=
  | destroy_signal (node : addr)
  | freed (node : addr).

#[global] Instance teardown_event_eq_dec : EqDecision teardown_event.
Proof. solve_decision. Defined.

Definition free (a : addr) (h : heap) : option heap :=
  match h !! a with Some _ => Some (delete a h) | None => None end.

Definition scene_node_state_finish (l : loc) (h : heap) : option heap :=
  wl_list_remove (Some l) h.

Fixpoint wlr_scene_node_destroy (fuel : nat) (node : option addr)
    (s : heap * list teardown_event) : result (heap * list teardown_event) :=
  match node with
  | None => Ok s
  | Some node =>
      match fuel with
      | O => Fail out_of_fuel
      | S fuel =>
          (* scene_node_finish *)
          _ ← must (node_at s.1 node);
          let s := (s.1, s.2 ++ [destroy_signal node]) in
          s ← wl_list_for_each_safe fst current_link (node, current_children)
                (λ child, wlr_scene_node_destroy fuel (Some child)) fuel s;
          s ← wl_list_for_each_safe fst pending_link (node, pending_children)
                (λ child, wlr_scene_node_destroy fuel (Some child)) fuel s;
          h ← must (scene_node_state_finish (node, current_link) s.1);
          h ← must (scene_node_state_finish (node, pending_link) h);
          (* the type-specific part of wlr_scene_node_destroy *)
          ty ← must (type_of h node);
          match ty with
          | WLR_SCENE_NODE_ROOT =>
              h ← must (free node h);
              Ok (h, s.2 ++ [freed node])
          | WLR_SCENE_NODE_SURFACE =>
              h ← must (wl_list_remove (Some (node, surface_destroy_link)) h);
              h ← must (free node h);
              Ok (h, s.2 ++ [freed node])
          end
      end
  end.

(** [scene_surface_handle_surface_destroy], the listener that a surface node
    adds to the destroy signal of its surface: it is called with the address
    of the listener inside the node. *)
Definition scene_surface_handle_surface_destroy (fuel : nat) (listener : ptr)
    (s : heap * list teardown_event) : result (heap * list teardown_event) :=
  scene_surface ← must (wl_container_of listener surface_destroy_link);
  wlr_scene_node_destroy fuel (Some scene_surface) s.

(** ** Traversal of the current tree *)

(** The collaborators of the scene that are not in this file: the surfaces
    with their textures and sub-surfaces, the box and matrix helpers, pixman's
    region intersection. *)
Inductive wl_output_transform :=
| WL_OUTPUT_TRANSFORM_NORMAL | WL_OUTPUT_TRANSFORM_90
| WL_OUTPUT_TRANSFORM_180 | WL_OUTPUT_TRANSFORM_270
| WL_OUTPUT_TRANSFORM_FLIPPED | WL_OUTPUT_TRANSFORM_FLIPPED_90
| WL_OUTPUT_TRANSFORM_FLIPPED_180 | WL_OUTPUT_TRANSFORM_FLIPPED_270.

Record wlr_box := Wlr_box {
  box_x : Z; box_y : Z; box_width : Z; box_height : Z }.

Record pixman_box32 := Pixman_box32 { x1 : Z; y1 : Z; x2 : Z; y2 : Z }.

(** A pixman region, as [pixman_region32_rectangles] shows it: disjoint
    rectangles. *)
Abbreviation pixman_region32 := (list pixman_box32).

(** ** Scaling a box

    [float] is a binary floating-point value [mantissa * 2 ^ exponent].  The
    operations round to nearest, ties to even, at 24 bits for the type
    [float] of C and at 53 bits for [double]; the exponent range is not
    modelled (no overflow to infinity, no subnormal numbers), nor are NaN and
    the infinities.  Expressions of type [float] are evaluated in that type
    (FLT_EVAL_METHOD 0). *)

Record float := Float { mantissa : Z; exponent : Z }.

Definition round_to_precision (p : Z) (m e : Z) : float :=
  let n := (Z.log2 (Z.abs m) + 1)%Z in
  if (n <=? p)%Z then {| mantissa := m; exponent := e |}
  else
    let s := (n - p)%Z in
    let q := (Z.abs m / 2 ^ s)%Z in
    let r := (Z.abs m mod 2 ^ s)%Z in
    let half := (2 ^ (s - 1))%Z in
    let q' := if (half <? r)%Z || ((r =? half)%Z && Z.odd q)
              then (q + 1)%Z else q in
    {| mantissa := Z.sgn m * q'; exponent := e + s |}.

(** The conversion of an [int] to [float]. *)
Definition float_of_int (i : Z) : float := round_to_precision 24 i 0.

Definition float_mul (a b : float) : float :=
  round_to_precision 24 (mantissa a * mantissa b) (exponent a + exponent b).

(** [round] of math.h, half away from zero, on the [float] promoted to
    [double]; the result is an integer that a [double] holds exactly. *)
Definition c_round (f : float) : Z :=
  if (0 <=? exponent f)%Z then (mantissa f * 2 ^ exponent f)%Z
  else
    let d := (2 ^ (- exponent f))%Z in
    let a := Z.abs (mantissa f) in
    let q := (a / d)%Z in
    let r := (a mod d)%Z in
    (Z.sgn (mantissa f) * (if (d <=? 2 * r)%Z then q + 1 else q))%Z.

(** The difference of two integers held in [double]s, and its conversion to
    [int]. *)
Definition double_sub_to_int (a b : Z) : result Z :=
  let d := round_to_precision 53 (a - b) 0 in
  to_int (mantissa d * 2 ^ exponent d).

Definition scale_length (length offset : Z) (scale : float) : result Z :=
  far ← int_add offset length;
  double_sub_to_int (c_round (float_mul (float_of_int far) scale))
                    (c_round (float_mul (float_of_int offset) scale)).

Definition scale_box (box : wlr_box) (scale : float) : result wlr_box :=
  width ← scale_length (box_width box) (box_x box) scale;
  height ← scale_length (box_height box) (box_y box) scale;
  x ← to_int (c_round (float_mul (float_of_int (box_x box)) scale));
  y ← to_int (c_round (float_mul (float_of_int (box_y box)) scale));
  Ok {| box_x := x; box_y := y; box_width := width; box_height := height |}.

(** [struct wlr_output], as far as the scene reads it; [M] is the type of
    [transform_matrix]. *)
Record wlr_output {M : Type} := Wlr_output {
  enabled : bool;
  scale : float;
  width : Z;
  height : Z;
  transform : wl_output_transform;
  transform_matrix : M;
  (** [wlr_backend_get_renderer(output->backend)], NULL or a renderer *)
  renderer : option addr }.
Arguments wlr_output M : clear implicits.

Class collaborators := {
  matrix : Type;
  (** Modelled from the spec: [wlr_surface_for_each_surface] is not in this
      file; it "yields the surface plus its sub-surfaces, each with their own
      local offsets".  [surface_expansion s] is what it yields for [s]. *)
  surface_expansion : addr → list (addr * Z * Z);
  wlr_surface_get_texture : addr → option addr;
  surface_current_width : addr → Z;
  surface_current_height : addr → Z;
  surface_current_transform : addr → wl_output_transform;
  wlr_output_transform_invert : wl_output_transform → wl_output_transform;
  wlr_matrix_project_box :
    wlr_box → wl_output_transform → matrix → matrix;
  wlr_box_transform : wlr_box → wl_output_transform → Z → Z → wlr_box;
  wlr_output_transformed_resolution : wlr_output matrix → Z * Z;
  pixman_region32_intersect :
    pixman_region32 → pixman_region32 → pixman_region32 }.

Section traversal.
Context `{collaborators}.
Context {D : Type}.

(** [wlr_surface_for_each_surface(surface, iterator, user_data)]. *)
Fixpoint for_each_drawable (iterator : addr → Z → Z → D → result D)
    (l : list (addr * Z * Z)) (d : D) : result D :=
  match l with
  | [] => Ok d
  | (s, sx, sy) :: l => d ← iterator s sx sy d; for_each_drawable iterator l d
  end.

Definition wlr_surface_for_each_surface (surface : addr)
    (iterator : addr → Z → Z → D → result D) (d : D) : result D :=
  for_each_drawable iterator (surface_expansion surface) d.

(** [surface_iterator], with the [struct iterator_data] it is given. *)
Definition surface_iterator (user_iterator : addr → Z → Z → D → result D)
    (lx ly : Z) (surface : addr) (sx sy : Z) (user_data : D) : result D :=
  ax ← int_add lx sx;
  ay ← int_add ly sy;
  user_iterator surface ax ay user_data.

Fixpoint scene_node_for_each_surface (fuel : nat) (h : heap) (node : addr)
    (lx ly : Z) (user_iterator : addr → Z → Z → D → result D)
    (user_data : D) : result D :=
  match fuel with
  | O => Fail out_of_fuel
  | S fuel =>
      n ← must (node_at h node);
      lx ← int_add lx (x (current n));
      ly ← int_add ly (y (current n));
      user_data ←
        match type n with
        | WLR_SCENE_NODE_SURFACE =>
            s ← must (surface n);
            wlr_surface_for_each_surface s
              (surface_iterator user_iterator lx ly) user_data
        | WLR_SCENE_NODE_ROOT => Ok user_data
        end;
      wl_list_for_each (λ _, h) current_link (node, current_children)
        (λ child d,
           scene_node_for_each_surface fuel h child lx ly user_iterator d)
        fuel user_data
  end.

Definition wlr_scene_node_for_each_surface (fuel : nat) (h : heap)
    (node : addr) (user_iterator : addr → Z → Z → D → result D)
    (user_data : D) : result D :=
  scene_node_for_each_surface fuel h node 0 0 user_iterator user_data.
End traversal.

(** ** Rendering *)

(** The calls to the renderer. *)
Inductive backend_call {M : Type} :=
  | wlr_renderer_scissor (renderer : addr) (box : option wlr_box)
  | wlr_render_texture_with_matrix (renderer : addr) (texture : addr)
    (m : M) (alpha : float).
Arguments backend_call M : clear implicits.

(** 32-bit wrap-around, for arithmetic that C does in [unsigned int]. *)
Definition wrap32 (z : Z) : Z := ((z + 2 ^ 31) mod 2 ^ 32 - 2 ^ 31)%Z.

(** pixman: a rectangle with no area gives the empty region. *)
Definition pixman_region32_init_rect (x y width height : Z) : pixman_region32 :=
  let r := {| x1 := x; y1 := y;
              x2 := wrap32 (x + width); y2 := wrap32 (y + height) |} in
  if (x1 r <? x2 r)%Z && (y1 r <? y2 r)%Z then [r] else [].

Definition pixman_region32_not_empty (r : pixman_region32) : bool :=
  match r with [] => false | _ => true end.

Section rendering.
Context `{collaborators}.

Abbreviation calls := (list (backend_call matrix)).
Abbreviation output_t := (wlr_output matrix).

Definition scissor_output (output : output_t) (rect : pixman_box32)
    (tr : calls) : result calls :=
  r ← match renderer output with
      | Some r => Ok r
      | None => Fail assertion_failure
      end;
  w ← int_sub (x2 rect) (x1 rect);
  h ← int_sub (y2 rect) (y1 rect);
  let box := {| box_x := x1 rect; box_y := y1 rect;
                box_width := w; box_height := h |} in
  let '(ow, oh) := wlr_output_transformed_resolution output in
  let transform := wlr_output_transform_invert (transform output) in
  let box := wlr_box_transform box transform ow oh in
  Ok (tr ++ [wlr_renderer_scissor r (Some box)]).

Definition render_rect (output : output_t) (texture : addr) (m : matrix)
    (r : addr) (rect : pixman_box32) (tr : calls) : result calls :=
  tr ← scissor_output output rect tr;
  Ok (tr ++ [wlr_render_texture_with_matrix r texture m
               {| mantissa := 1; exponent := 0 |}]).

Fixpoint render_rects (output : output_t) (texture : addr) (m : matrix)
    (r : addr) (rects : list pixman_box32) (tr : calls) : result calls :=
  match rects with
  | [] => Ok tr
  | rect :: rects =>
      tr ← render_rect output texture m r rect tr;
      render_rects output texture m r rects tr
  end.

Definition render_texture (output : output_t)
    (output_damage : pixman_region32) (texture : addr) (box : wlr_box)
    (m : matrix) (tr : calls) : result calls :=
  r ← match renderer output with
      | Some r => Ok r
      | None => Fail assertion_failure
      end;
  let damage := pixman_region32_init_rect (box_x box) (box_y box)
                  (box_width box) (box_height box) in
  let damage := pixman_region32_intersect damage output_damage in
  if pixman_region32_not_empty damage
  then render_rects output texture m r damage tr
  else Ok tr.

(** [render_surface_iterator], with the [struct render_data] it is given. *)
Definition render_surface_iterator (output : output_t)
    (output_damage : pixman_region32) (surface : addr) (x y : Z)
    (tr : calls) : result calls :=
  match wlr_surface_get_texture surface with
  | None => Ok tr
  | Some texture =>
      let box := {| box_x := x; box_y := y;
                    box_width := surface_current_width surface;
                    box_height := surface_current_height surface |} in
      box ← scale_box box (scale output);
      let transform :=
        wlr_output_transform_invert (surface_current_transform surface) in
      let m := wlr_matrix_project_box box transform
                 (transform_matrix output) in
      render_texture output output_damage texture box m tr
  end.

Definition wlr_scene_render (fuel : nat) (h : heap) (scene : addr)
    (output : output_t) (lx ly : Z) (damage : option pixman_region32)
    (tr : calls) : result calls :=
  let full_region :=
    pixman_region32_init_rect 0 0 (width output) (height output) in
  let damage := default full_region damage in
  r ← match renderer output with
      | Some r => Ok r
      | None => Fail assertion_failure
      end;
  if enabled output && pixman_region32_not_empty damage then
    nlx ← to_int (- lx);
    nly ← to_int (- ly);
    tr ← scene_node_for_each_surface fuel h scene nlx nly
           (render_surface_iterator output damage) tr;
    Ok (tr ++ [wlr_renderer_scissor r None])
  else Ok tr.
End rendering.

(** ** Well-formed lists and trees in the heap *)

(** [linked h a b]: [a->next == b] and [b->prev == a]. *)
Definition linked (h : heap) (a b : loc) : Prop :=
  load_next h a = Some (Some b) ∧ load_prev h b = Some (Some a).

(** The cells [ls] lead from [a] to [z], each linked with the next. *)
Fixpoint chain (h : heap) (a : loc) (ls : list loc) (z : loc) : Prop :=
  match ls with
  | [] => linked h a z
  | l :: ls => linked h a l ∧ chain h l ls z
  end.

(** A circular doubly-linked list with sentinel [head] and elements [ls], the
    invariant of libwayland's [wl_list].  [dll h l []] says that [l] is
    initialised and empty: it points at itself. *)
Definition dll (h : heap) (head : loc) (ls : list loc) : Prop :=
  chain h head ls head ∧ NoDup (head :: ls).

Definition links_of (m : member) (ks : list addr) : list loc :=
  (λ k, (k, m)) <$> ks.

(** The children of [n] in its current (pending) state are [ks], in order. *)
Definition current_list (h : heap) (n : addr) (ks : list addr) : Prop :=
  dll h (n, current_children) (links_of current_link ks).
Definition pending_list (h : heap) (n : addr) (ks : list addr) : Prop :=
  dll h (n, pending_children) (links_of pending_link ks).

(** Where the iteration over the elements [ks] starts: at the link of the
    first, or at the head when there is none. *)
Definition start (m : member) (head : loc) (ks : list addr) : ptr :=
  Some (match ks with [] => head | k :: _ => (k, m) end).

(** The elements of a list as the iteration macro yields them. *)
Definition wl_list_elems (h : heap) (m : member) (head : loc) (fuel : nat)
    : result (list addr) :=
  wl_list_for_each (λ _, h) m head (λ child acc, Ok (acc ++ [child])) fuel [].

(** What a loop over the elements [ks] does when the list stays as it is. *)
Fixpoint each {St} (body : addr → St → result St) (ks : list addr) (s : St)
    : result St :=
  match ks with
  | [] => Ok s
  | k :: ks => s' ← body k s; each body ks s'
  end.

(** The order of the current children after a commit: the children that are
    only in the current list keep their place in front, the pending children
    follow in pending order. *)
Definition committed_order (cur pend : list addr) : list addr :=
  filter (λ j, j ∉ pend) cur ++ pend.

(** One round of the first loop of the commit: [k] goes to the end. *)
Definition move_to_end (k : addr) (l : list addr) : list addr :=
  filter (λ j, j ≠ k) l ++ [k].

(** The shape of a scene: a node and the subtrees of its children. *)
Inductive tree := Tree (n : addr) (ts : list tree).

Definition root (t : tree) : addr := match t with Tree n _ => n end.
Definition subtrees (t : tree) : list tree := match t with Tree _ ts => ts end.

Fixpoint nodes (t : tree) : list addr :=
  match t with Tree n ts => n :: concat (map nodes ts) end.

Definition size (t : tree) : nat := length (nodes t).

(** [shaped h t]: the heap holds the tree [t].  The children of a node are the
    nodes of its pending list and of its current list; a child that is not in
    one of the two lists has that link initialised and empty, as
    [scene_node_init] leaves it. *)
Inductive shaped (h : heap) : tree → Prop :=
| shaped_tree n ts cur pend :
    current_list h n cur →
    pending_list h n pend →
    (∀ k, k ∈ root <$> ts ↔ k ∈ cur ∨ k ∈ pend) →
    (∀ k, k ∈ root <$> ts → k ∉ cur → dll h (k, current_link) []) →
    (∀ k, k ∈ root <$> ts → k ∉ pend → dll h (k, pending_link) []) →
    (∀ k, k ∈ root <$> ts → parent_of h k = Some (Some n)) →
    Forall (shaped h) ts →
    shaped h (Tree n ts).

Definition scene_tree (h : heap) (t : tree) : Prop :=
  shaped h t ∧ NoDup (nodes t).

(** The cells that [shaped h t] reads: the two list heads of every node of
    [t], and the two links of every node below the root. *)
Fixpoint inner_cells (t : tree) : list loc :=
  match t with
  | Tree n ts =>
      (n, current_children) :: (n, pending_children) ::
      concat (map (λ t', (root t', current_link) :: (root t', pending_link)
                           :: inner_cells t') ts)
  end.

(** The cells that a commit of [t] writes. *)
Fixpoint commit_cells (t : tree) : list loc :=
  match t with
  | Tree n ts =>
      (n, current_children) ::
      concat (map (λ t', (root t', current_link) :: commit_cells t') ts)
  end.

Definition agree_on (t : tree) (h h' : heap) : Prop :=
  (∀ c, c ∈ inner_cells t → load h' c = load h c) ∧
  (∀ a, a ∈ nodes t → node_scalars h' a = node_scalars h a).

Definition forget_current (s : scalars) : scalars :=
  {| s_type := s_type s; s_parent := s_parent s; s_current := (0, 0)%Z;
     s_pending := s_pending s; s_surface := s_surface s |}.

(** [committed h h' t]: between [h] and [h'] the pending state of every node
    of [t] has become its current state. *)
Inductive committed (h h' : heap) : tree → Prop :=
| committed_tree n ts cur pend :
    current_list h n cur →
    pending_list h n pend →
    (∀ k, k ∈ root <$> ts ↔ k ∈ cur ∨ k ∈ pend) →
    current_pos h' n = pending_pos h n →
    is_Some (pending_pos h n) →
    current_list h' n (committed_order cur pend) →
    Forall (committed h h') ts →
    committed h h' (Tree n ts).

(** What a commit of the tree [t] leaves alone: every cell but
    [commit_cells t], every member of a node outside [t], and of the nodes of
    [t] everything but the current position. *)
Definition commit_frame (h h' : heap) (t : tree) : Prop :=
  (∀ c, c ∉ commit_cells t → load h' c = load h c) ∧
  (∀ a, a ∉ nodes t → node_scalars h' a = node_scalars h a) ∧
  (∀ a, forget_current <$> node_scalars h' a
        = forget_current <$> node_scalars h a).

(** The pending children after [place_above(a, b)] and [place_below(a, b)]:
    [a] is taken out and put back right after, right before, [b]. *)
Fixpoint insert_after (b a : addr) (l : list addr) : list addr :=
  match l with
  | [] => []
  | c :: l => if decide (c = b) then c :: a :: l else c :: insert_after b a l
  end.

Fixpoint insert_before (b a : addr) (l : list addr) : list addr :=
  match l with
  | [] => []
  | c :: l => if decide (c = b) then a :: c :: l else c :: insert_before b a l
  end.

Definition placed_above (a b : addr) (l : list addr) : list addr :=
  insert_after b a (filter (λ j, j ≠ a) l).

Definition placed_below (a b : addr) (l : list addr) : list addr :=
  insert_before b a (filter (λ j, j ≠ a) l).

(** ** The current tree, as the traversal sees it

    A node with its current position, the drawables its surface expands to
    (none for a root node) with their local offsets, and its current children
    in list order. *)
Inductive ctree :=
  CTree (n : addr) (pos : Z * Z) (drawables : list (addr * Z * Z))
        (kids : list ctree).

Definition croot (t : ctree) : addr := match t with CTree n _ _ _ => n end.

Fixpoint cnodes (t : ctree) : list addr :=
  match t with CTree n _ _ kids => n :: concat (map cnodes kids) end.

Definition csize (t : ctree) : nat := length (cnodes t).

(** The drawables of the tree in depth-first preorder, each with the
    positions of the nodes on the way to it: [anc] for the nodes above [t],
    then [t] itself, and so on down to the node of the drawable. *)
Fixpoint drawables_of (anc : list (Z * Z)) (t : ctree)
    : list (list (Z * Z) * (addr * Z * Z)) :=
  match t with
  | CTree _ pos ds kids =>
      ((λ d, (anc ++ [pos], d)) <$> ds)
      ++ concat (map (drawables_of (anc ++ [pos])) kids)
  end.

Definition sum_list_Z (l : list Z) : Z := foldr Z.add 0%Z l.

(** The absolute position of a drawable: the origin, plus the positions of
    its node and of all the nodes above it, plus its local offset. *)
Definition absolute (origin : Z * Z)
    (v : list (Z * Z) * (addr * Z * Z)) : addr * Z * Z :=
  (v.2.1.1,
   (origin.1 + sum_list_Z (fst <$> v.1) + v.2.1.2)%Z,
   (origin.2 + sum_list_Z (snd <$> v.1) + v.2.2)%Z).

(** No addition of the traversal overflows: the running offset after every
    node and the absolute position of every drawable are [int]s. *)
Fixpoint fits (lx ly : Z) (t : ctree) : bool :=
  match t with
  | CTree _ pos ds kids =>
      in_int (lx + pos.1) && in_int (ly + pos.2) &&
      forallb (λ d, in_int (lx + pos.1 + d.1.2) && in_int (ly + pos.2 + d.2))
              ds &&
      forallb (fits (lx + pos.1) (ly + pos.2)) kids
  end.

Section viewed.
Context `{collaborators}.

Definition drawables_at (nd : wlr_scene_node) : option (list (addr * Z * Z)) :=
  match type nd with
  | WLR_SCENE_NODE_SURFACE => surface_expansion <$> surface nd
  | WLR_SCENE_NODE_ROOT => Some []
  end.

(** [viewed h t]: [t] is the current tree of the heap below [croot t]. *)
Inductive viewed (h : heap) : ctree → Prop :=
| viewed_tree n nd ds kids :
    node_at h n = Some nd →
    drawables_at nd = Some ds →
    current_list h n (croot <$> kids) →
    Forall (viewed h) kids →
    viewed h (CTree n (x (current nd), y (current nd)) ds kids).
End viewed.

(** ** What a drawable makes the renderer do

    For one damage rectangle: the scissor is set to the rectangle seen from
    the output, then the texture is drawn once, opaque. *)
Section drawn.
Context `{collaborators}.

Definition scissor_box (output : wlr_output matrix) (rect : pixman_box32)
    : wlr_box :=
  let '(ow, oh) := wlr_output_transformed_resolution output in
  wlr_box_transform
    {| box_x := x1 rect; box_y := y1 rect;
       box_width := x2 rect - x1 rect; box_height := y2 rect - y1 rect |}
    (wlr_output_transform_invert (transform output)) ow oh.

Definition rect_calls (output : wlr_output matrix) (r texture : addr)
    (m : matrix) (rect : pixman_box32) : list (backend_call matrix) :=
  [wlr_renderer_scissor r (Some (scissor_box output rect));
   wlr_render_texture_with_matrix r texture m
     {| mantissa := 1; exponent := 0 |}].

(** The width and the height of the rectangle are [int]s. *)
Definition rect_fits (rect : pixman_box32) : bool :=
  in_int (x2 rect - x1 rect) && in_int (y2 rect - y1 rect).

(** The part of the damage that the scaled box of a drawable covers. *)
Definition damaged_part (damage : pixman_region32) (box : wlr_box)
    : pixman_region32 :=
  pixman_region32_intersect
    (pixman_region32_init_rect (box_x box) (box_y box)
       (box_width box) (box_height box))
    damage.

(** The calls for one drawable at an absolute position: none without a
    texture, else the calls of each rectangle of its damaged part, in the
    order of the rectangles. *)
Definition drawable_calls (output : wlr_output matrix)
    (damage : pixman_region32) (r : addr) (d : addr * Z * Z)
    : result (list (backend_call matrix)) :=
  match wlr_surface_get_texture d.1.1 with
  | None => Ok []
  | Some texture =>
      box ← scale_box {| box_x := d.1.2; box_y := d.2;
                         box_width := surface_current_width d.1.1;
                         box_height := surface_current_height d.1.1 |}
              (scale output);
      let m := wlr_matrix_project_box box
                 (wlr_output_transform_invert
                    (surface_current_transform d.1.1))
                 (transform_matrix output) in
      let rects := damaged_part damage box in
      if forallb rect_fits rects
      then Ok (concat (rect_calls output r texture m <$> rects))
      else Fail undefined_behaviour
  end.

Fixpoint scene_calls (output : wlr_output matrix) (damage : pixman_region32)
    (r : addr) (l : list (addr * Z * Z))
    : result (list (backend_call matrix)) :=
  match l with
  | [] => Ok []
  | d :: l =>
      cs ← drawable_calls output damage r d;
      rest ← scene_calls output damage r l;
      Ok (cs ++ rest)
  end.

(** The damage that [wlr_scene_render] works with: the one given, or the
    whole output. *)
Definition effective_damage (output : wlr_output matrix)
    (damage : option pixman_region32) : pixman_region32 :=
  default (pixman_region32_init_rect 0 0 (width output) (height output))
          damage.
End drawn.

(** ** Listeners of a surface

    The scene nodes subscribed to the destroy signal of [surface] are [subs],
    in the order of their subscription. *)
Definition listeners (h : heap) (surface : addr) (subs : list addr) : Prop :=
  dll h (surface, destroy_listener_list) (links_of surface_destroy_link subs).

(** The members of a fresh node as [scene_node_init] leaves them. *)
Definition fresh_scalars (ty : wlr_scene_node_type) (parent : option addr)
    (surface : option addr) : scalars :=
  {| s_type := ty; s_parent := parent; s_current := (0, 0)%Z;
     s_pending := (0, 0)%Z; s_surface := surface |}.

(** ** Destruction

    An inventory names lists of the heap: each entry is the head of a list
    with its elements in order.  [lists_ok h L]: the entries of [L] are
    well-formed lists of [h], and no cell is in two of them. *)
Abbreviation inventory := (list (loc * list loc)).

Definition all_cells (L : inventory) : list loc :=
  concat (map (λ p, p.1 :: p.2) L).

Definition lists_ok (h : heap) (L : inventory) : Prop :=
  Forall (λ p, dll h p.1 p.2) L ∧ NoDup (all_cells L).

(** The inventory without the cells of the nodes [DN] and without the cells
    [X]: a list whose head is one of them is left out, the other lists lose
    the elements that are among them. *)
Definition without (DN : list addr) (X : list loc) (L : inventory)
    : inventory :=
  (λ p, (p.1, filter (λ c, (c.1 ∉ DN) ∧ (c ∉ X)) p.2))
    <$> filter (λ p, (p.1.1 ∉ DN) ∧ (p.1 ∉ X)) L.

(** [held L h t]: the lists of the tree [t] are in the inventory [L].  The
    children of a node are its current children followed by the pending
    children that are not current, which is the order in which a destruction
    reaches them; a child that is in one of the two lists only has its other
    link initialised and empty; a surface node is subscribed to the destroy
    signal of a surface. *)
Inductive held (L : inventory) (h : heap) : tree → Prop :=
| held_tree n ts cur pend ty :
    type_of h n = Some ty →
    (ty = WLR_SCENE_NODE_SURFACE →
     ∃ s subs, ((s, destroy_listener_list),
                links_of surface_destroy_link subs) ∈ L ∧ n ∈ subs) →
    ((n, current_children), links_of current_link cur) ∈ L →
    ((n, pending_children), links_of pending_link pend) ∈ L →
    root <$> ts = cur ++ filter (λ k, k ∉ cur) pend →
    (∀ k, k ∈ pend → k ∉ cur → ((k, current_link), []) ∈ L) →
    (∀ k, k ∈ cur → k ∉ pend → ((k, pending_link), []) ∈ L) →
    Forall (held L h) ts →
    held L h (Tree n ts).

(** The link [e] of the root of [t] is initialised and empty, or it is in a
    list whose head belongs to a node that is neither destroyed yet nor in
    [t]. *)
Definition attached (L : inventory) (DN : list addr) (t : tree) (e : loc)
    : Prop :=
  (e, []) ∈ L ∨
  ∃ hd els, (hd, els) ∈ L ∧ e ∈ els ∧ (hd.1 ∉ DN) ∧ (hd.1 ∉ nodes t).

(** What the destruction of [t] emits and frees, in order. *)
Fixpoint teardown_events (t : tree) : list teardown_event :=
  match t with
  | Tree n ts =>
      destroy_signal n :: concat (map teardown_events ts) ++ [freed n]
  end.

(** The heap [h] in the course of a destruction that began in [h0] with the
    inventory [L0], when the nodes [DN] are destroyed: the lists that are
    left are well-formed, the destroyed nodes are freed, the other nodes
    have their members. *)
Definition survives (L0 : inventory) (h0 h : heap) (DN : list addr) : Prop :=
  lists_ok h (without DN [] L0) ∧
  (∀ a, a ∈ DN → h !! a = None) ∧
  (∀ a, a ∉ DN → node_scalars h a = node_scalars h0 a).

(** What [wlr_scene_node_destroy] does with [fuel] steps to a tree of the
    inventory whose root is attached: it returns, having emitted and freed
    what [teardown_events] lists, and leaves the heap without the nodes of
    the tree. *)
Definition destroys (L0 : inventory) (h0 : heap) (fuel : nat) : Prop :=
  ∀ t DN h ev,
    held L0 h0 t → NoDup (nodes t) → size t < fuel →
    (∀ m, m ∈ nodes t → m ∉ DN) →
    (∀ a, a ∈ DN → is_Some (node_at h0 a)) →
    attached L0 DN t (root t, current_link) →
    attached L0 DN t (root t, pending_link) →
    survives L0 h0 h DN →
    ∃ h', wlr_scene_node_destroy fuel (Some (root t)) (h, ev)
          = Ok (h', ev ++ teardown_events t) ∧
      survives L0 h0 h' (DN ++ nodes t).

(** What the traversal and the rendering read of a node: its type, its
    current position and its surface. *)
Definition visible (s : scalars) : wlr_scene_node_type * (Z * Z) * option addr :=
  (s_type s, s_current s, s_surface s).

(** The root node that [wlr_scene_create] makes at address [a]: every list
    head and every link points at itself. *)
Definition root_node (a : addr) : wlr_scene_node :=
  let self m := {| prev := Some (a, m); next := Some (a, m) |} in
  {| type := WLR_SCENE_NODE_ROOT; parent := None;
     current := {| x := 0; y := 0; children := self current_children;
                   link := self current_link |};
     pending := {| x := 0; y := 0; children := self pending_children;
                   link := self pending_link |};
     surface := None; surface_destroy := NULL_list |}.

(** ** The scene of the examples

    A root at address 1 and two surface nodes at 2 and 3, created in that
    order for the surfaces at 10 and 11; then the same scene committed. *)

Definition empty_list (l : loc) : wl_list := {| prev := Some l; next := Some l |}.

Definition heap_of (r : result (option addr * heap)) : heap :=
  match r with Ok (_, h) => h | Fail _ => ∅ end.

Definition heap_or_empty (r : result heap) : heap :=
  match r with Ok h => h | Fail _ => ∅ end.

Definition two_surfaces : heap :=
  <[ 11%positive := Surface (empty_list (11%positive, destroy_listener_list)) ]>
    {[ 10%positive :=
         Surface (empty_list (10%positive, destroy_listener_list)) ]}.

Definition scene_R : heap :=
  heap_of (wlr_scene_create (Some 1%positive) two_surfaces).
Definition scene_RA : heap :=
  heap_of (wlr_scene_surface_create (Some 2%positive) 1 10 scene_R).
Definition scene_RAB : heap :=
  heap_of (wlr_scene_surface_create (Some 3%positive) 1 11 scene_RA).
Definition scene_RAB_committed : heap :=
  heap_or_empty (wlr_scene_node_commit 4 1 scene_RAB).

Definition tree_RAB : tree := Tree 1 [Tree 2 []; Tree 3 []].

#[global] Instance linked_dec h a b : Decision (linked h a b).
Proof. unfold linked. apply _. Defined.

#[global] Instance chain_dec h ls : ∀ a z, Decision (chain h a ls z).
Proof. induction ls as [|l ls IH]; intros a z; simpl; apply _. Defined.

#[global] Instance dll_dec h head ls : Decision (dll h head ls).
Proof. unfold dll. apply _. Defined.

#[global] Instance current_list_dec h n ks : Decision (current_list h n ks).
Proof. unfold current_list. apply _. Defined.

#[global] Instance pending_list_dec h n ks : Decision (pending_list h n ks).
Proof. unfold pending_list. apply _. Defined.

(** The scenario of the specification: A moved to (5, 5), then a commit. *)
Definition scene_moved : heap :=
  heap_or_empty (h ← wlr_scene_node_move 2 5 5 scene_RAB;
                 wlr_scene_node_commit 4 1 h).

(** Collaborators for the examples: a surface has no sub-surfaces, is 10 by
    10 and has itself as texture; boxes are not transformed; the
    intersection of two regions intersects their rectangles pairwise. *)
Definition box_intersect (a b : pixman_box32) : pixman_region32 :=
  let r := {| x1 := Z.max (x1 a) (x1 b); y1 := Z.max (y1 a) (y1 b);
              x2 := Z.min (x2 a) (x2 b); y2 := Z.min (y2 a) (y2 b) |} in
  if (x1 r <? x2 r)%Z && (y1 r <? y2 r)%Z then [r] else [].

Definition pairwise_intersect (r1 r2 : pixman_region32) : pixman_region32 :=
  a ← r1; b ← r2; box_intersect a b.

#[local] Instance plain : collaborators := {|
  matrix := wlr_box;
  surface_expansion := λ s, [(s, 0%Z, 0%Z)];
  wlr_surface_get_texture := Some;
  surface_current_width := λ _, 10%Z;
  surface_current_height := λ _, 10%Z;
  surface_current_transform := λ _, WL_OUTPUT_TRANSFORM_NORMAL;
  wlr_output_transform_invert := id;
  wlr_matrix_project_box := λ box _ _, box;
  wlr_box_transform := λ box _ _ _, box;
  wlr_output_transformed_resolution := λ o, (width o, height o);
  pixman_region32_intersect := pairwise_intersect |}.

Definition ctree_moved : ctree :=
  CTree 1 (0, 0)%Z []
    [CTree 2 (5, 5)%Z [(10%positive, 0%Z, 0%Z)] [];
     CTree 3 (0, 0)%Z [(11%positive, 0%Z, 0%Z)] []].

(** A visitor that records what it is called with. *)
Definition record_visit (s : addr) (x y : Z) (acc : list (addr * Z * Z))
    : result (list (addr * Z * Z)) :=
  Ok (acc ++ [(s, x, y)]).

(** Boxes and a scale for the examples of scaling. *)
Definition one_and_a_half : float := {| mantissa := 3; exponent := -1 |}.
Definition float_one : float := {| mantissa := 1; exponent := 0 |}.
Definition box_0_10 : wlr_box :=
  {| box_x := 0; box_y := 0; box_width := 10; box_height := 10 |}.
Definition box_10_20 : wlr_box :=
  {| box_x := 10; box_y := 0; box_width := 10; box_height := 10 |}.
Definition box_0_15 : wlr_box :=
  {| box_x := 0; box_y := 0; box_width := 15; box_height := 15 |}.
Definition box_15_30 : wlr_box :=
  {| box_x := 15; box_y := 0; box_width := 15; box_height := 15 |}.
Definition box_full_hd : wlr_box :=
  {| box_x := -3; box_y := 7; box_width := 1920; box_height := 1080 |}.
Definition float_two : float := {| mantissa := 2; exponent := 0 |}.
Definition box_full_hd_2x : wlr_box :=
  {| box_x := -6; box_y := 14; box_width := 3840; box_height := 2160 |}.

(** An enabled 800x600 output at scale 1 whose renderer is object 99. *)
Definition output_800x600 : wlr_output wlr_box :=
  {| enabled := true; scale := float_one; width := 800; height := 600;
     transform := WL_OUTPUT_TRANSFORM_NORMAL;
     transform_matrix :=
       {| box_x := 0; box_y := 0; box_width := 0; box_height := 0 |};
     renderer := Some 99%positive |}.

(** A damage region of two rectangles, the second far from the scene. *)
Definition damage_two : pixman_region32 :=
  [ {| x1 := 0; y1 := 0; x2 := 8; y2 := 8 |};
    {| x1 := 100; y1 := 100; x2 := 200; y2 := 200 |} ].

Definition box_5_15 : wlr_box :=
  {| box_x := 5; box_y := 5; box_width := 10; box_height := 10 |}.
Definition box_5_8 : wlr_box :=
  {| box_x := 5; box_y := 5; box_width := 3; box_height := 3 |}.
Definition box_0_8 : wlr_box :=
  {| box_x := 0; box_y := 0; box_width := 8; box_height := 8 |}.

(** A disabled output. *)
Definition output_off : wlr_output wlr_box :=
  {| enabled := false; scale := float_one; width := 800; height := 600;
     transform := WL_OUTPUT_TRANSFORM_NORMAL;
     transform_matrix := box_0_8; renderer := Some 99%positive |}.

Definition tree_RA : tree := Tree 1 [Tree 2 []].

(** The lists of the example scene before the commit. *)
Definition lists_RAB : inventory :=
  [ ((1%positive, current_children), []);
    ((1%positive, pending_children),
     [(2%positive, pending_link); (3%positive, pending_link)]);
    ((1%positive, current_link), []);
    ((1%positive, pending_link), []);
    ((2%positive, current_children), []);
    ((2%positive, pending_children), []);
    ((2%positive, current_link), []);
    ((3%positive, current_children), []);
    ((3%positive, pending_children), []);
    ((3%positive, current_link), []);
    ((10%positive, destroy_listener_list),
     [(2%positive, surface_destroy_link)]);
    ((11%positive, destroy_listener_list),
     [(3%positive, surface_destroy_link)]) ].

(** And after it. *)
Definition lists_RAB_committed : inventory :=
  [ ((1%positive, current_children),
     [(2%positive, current_link); (3%positive, current_link)]);
    ((1%positive, pending_children),
     [(2%positive, pending_link); (3%positive, pending_link)]);
    ((1%positive, current_link), []);
    ((1%positive, pending_link), []);
    ((2%positive, current_children), []);
    ((2%positive, pending_children), []);
    ((3%positive, current_children), []);
    ((3%positive, pending_children), []);
    ((10%positive, destroy_listener_list),
     [(2%positive, surface_destroy_link)]);
    ((11%positive, destroy_listener_list),
     [(3%positive, surface_destroy_link)]) ].

#[global] Instance lists_ok_dec h L : Decision (lists_ok h L).
Proof. unfold lists_ok. apply _. Defined.


(** ** Lemmas on the memory model *)

Lemma get_set_member m c o o' m' :
  set_member m c o = Some o' →
  get_member m' o' = if decide (m' = m) then Some c else get_member m' o.
Proof.
  destruct o as [n|c0], m; simpl; try discriminate;
    try (destruct (type n) eqn:Ht; try discriminate);
    intros [= <-]; destruct m'; simpl; try rewrite Ht; reflexivity.
Qed.

Lemma set_member_is_Some m c o :
  is_Some (get_member m o) → is_Some (set_member m c o).
Proof.
  destruct o as [n|c0], m; simpl; try destruct (type n);
    intros [? ?]; simplify_eq; eauto.
Qed.

Lemma set_member_scalars m c n o' :
  set_member m c (Node n) = Some o' →
  ∃ n', o' = Node n' ∧ scalars_of n' = scalars_of n.
Proof.
  destruct m; simpl; try discriminate;
    try (destruct (type n) eqn:Ht; try discriminate);
    intros [= <-]; eexists; (split; [reflexivity|]);
    unfold scalars_of; simpl; rewrite ?Ht; reflexivity.
Qed.

Lemma load_store l c h h' l' :
  store l c h = Some h' →
  load h' l' = if decide (l' = l) then Some c else load h l'.
Proof.
  unfold store, load. destruct l as [a m], l' as [a' m']; simpl.
  destruct (h !! a) as [o|] eqn:Ho; simpl; [|discriminate].
  destruct (set_member m c o) as [o'|] eqn:Hs; simpl; [|discriminate].
  intros [= <-]. destruct (decide (a' = a)) as [->|Hne].
  - rewrite lookup_insert_eq. simpl. rewrite (get_set_member _ _ _ _ _ Hs).
    rewrite Ho. simpl. repeat case_decide; congruence.
  - rewrite lookup_insert_ne by done. case_decide; congruence.
Qed.

Lemma store_is_Some l c h : is_Some (load h l) → is_Some (store l c h).
Proof.
  unfold store, load. destruct (h !! l.1) as [o|]; simpl; [|intros [? [=]]].
  intros Hg. destruct (set_member_is_Some _ c _ Hg) as [o' ->]. simpl. eauto.
Qed.

Lemma store_scalars l c h h' a :
  store l c h = Some h' → node_scalars h' a = node_scalars h a.
Proof.
  unfold store, node_scalars, node_at.
  destruct (h !! l.1) as [o|] eqn:Ho; simpl; [|discriminate].
  destruct (set_member l.2 c o) as [o'|] eqn:Hs; simpl; [|discriminate].
  intros [= <-]. destruct (decide (a = l.1)) as [->|Hne].
  - rewrite lookup_insert_eq, Ho. destruct o as [n|c0].
    + destruct (set_member_scalars _ _ _ _ Hs) as (n' & -> & Hn). simpl.
      by rewrite Hn.
    + destruct l.2; simpl in Hs; try discriminate. by injection Hs as <-.
  - by rewrite lookup_insert_ne.
Qed.

Lemma load_next_is_Some h l : is_Some (load_next h l) ↔ is_Some (load h l).
Proof. unfold load_next. apply fmap_is_Some. Qed.

Lemma load_prev_is_Some h l : is_Some (load_prev h l) ↔ is_Some (load h l).
Proof. unfold load_prev. apply fmap_is_Some. Qed.

Lemma load_ext h h' l :
  load_next h' l = load_next h l → load_prev h' l = load_prev h l →
  load h' l = load h l.
Proof.
  unfold load_next, load_prev.
  destruct (load h' l) as [[p n]|], (load h l) as [[p' n']|]; simpl; congruence.
Qed.

(** The effect of a store on the views of the heap. *)
Lemma store_next_effect l v h :
  is_Some (load h l) →
  ∃ h', store_next l v h = Some h' ∧
    (∀ c, load_next h' c = if decide (c = l) then Some v else load_next h c) ∧
    (∀ c, load_prev h' c = load_prev h c) ∧
    (∀ a, node_scalars h' a = node_scalars h a).
Proof.
  intros [c Hc]. unfold store_next. rewrite Hc. simpl.
  destruct (store_is_Some l {| prev := prev c; next := v |} h) as [h' Hh'];
    [by eauto|].
  exists h'. split; [done|]. split; [|split].
  - intros c'. unfold load_next. rewrite (load_store _ _ _ _ _ Hh').
    by case_decide.
  - intros c'. unfold load_prev. rewrite (load_store _ _ _ _ _ Hh').
    case_decide; [|done]. subst. by rewrite Hc.
  - intros a. by eapply store_scalars.
Qed.

Lemma store_prev_effect l v h :
  is_Some (load h l) →
  ∃ h', store_prev l v h = Some h' ∧
    (∀ c, load_next h' c = load_next h c) ∧
    (∀ c, load_prev h' c = if decide (c = l) then Some v else load_prev h c) ∧
    (∀ a, node_scalars h' a = node_scalars h a).
Proof.
  intros [c Hc]. unfold store_prev. rewrite Hc. simpl.
  destruct (store_is_Some l {| prev := v; next := next c |} h) as [h' Hh'];
    [by eauto|].
  exists h'. split; [done|]. split; [|split].
  - intros c'. unfold load_next. rewrite (load_store _ _ _ _ _ Hh').
    case_decide; [|done]. subst. by rewrite Hc.
  - intros c'. unfold load_prev. rewrite (load_store _ _ _ _ _ Hh').
    by case_decide.
  - intros a. by eapply store_scalars.
Qed.

Lemma alloc_of_next h h' c :
  load_next h' c = load_next h c → is_Some (load h c) → is_Some (load h' c).
Proof.
  intros E H. apply load_next_is_Some. rewrite E. by apply load_next_is_Some.
Qed.

Lemma alloc_of_prev h h' c :
  load_prev h' c = load_prev h c → is_Some (load h c) → is_Some (load h' c).
Proof.
  intros E H. apply load_prev_is_Some. rewrite E. by apply load_prev_is_Some.
Qed.

(** ** The effect of the list primitives on the heap *)

Lemma wl_list_init_effect l h :
  is_Some (load h l) →
  ∃ h', wl_list_init l h = Some h' ∧
    (∀ c, load_next h' c = if decide (c = l) then Some (Some l)
                           else load_next h c) ∧
    (∀ c, load_prev h' c = if decide (c = l) then Some (Some l)
                           else load_prev h c) ∧
    (∀ a, node_scalars h' a = node_scalars h a).
Proof.
  intros Hl. unfold wl_list_init.
  destruct (store_prev_effect l (Some l) h Hl) as (h1 & -> & N1 & P1 & S1).
  simpl.
  destruct (store_next_effect l (Some l) h1) as (h2 & -> & N2 & P2 & S2).
  { eapply alloc_of_next; [apply N1|done]. }
  exists h2. split; [done|]. split; [|split].
  - intros c. rewrite N2, N1. done.
  - intros c. rewrite P2, P1. done.
  - intros a. by rewrite S2, S1.
Qed.

Lemma wl_list_remove_effect h e p q :
  load_prev h e = Some (Some p) → load_next h e = Some (Some q) →
  is_Some (load h p) → is_Some (load h q) →
  ∃ h', wl_list_remove (Some e) h = Some h' ∧
    (∀ c, load_next h' c =
            if decide (c = e) then Some None
            else if decide (c = p) then Some (Some q) else load_next h c) ∧
    (∀ c, load_prev h' c =
            if decide (c = e) then Some None
            else if decide (c = q) then Some (Some p) else load_prev h c) ∧
    (∀ a, node_scalars h' a = node_scalars h a).
Proof.
  intros Hp Hq Ap Aq. unfold wl_list_remove. simpl. rewrite Hp, Hq. simpl.
  assert (Ae : is_Some (load h e)) by (apply load_prev_is_Some; eauto).
  destruct (store_next_effect p (Some q) h Ap) as (h1 & -> & N1 & P1 & S1).
  simpl. rewrite N1, P1, Hp, Hq.
  replace (if decide (e = p) then Some (Some q) else Some (Some q))
    with (Some (Some q)) by (by case_decide).
  simpl.
  destruct (store_prev_effect q (Some p) h1) as (h2 & -> & N2 & P2 & S2).
  { eapply alloc_of_prev; [apply P1|done]. }
  simpl.
  destruct (store_next_effect e None h2) as (h3 & -> & N3 & P3 & S3).
  { eapply alloc_of_next; [apply N2|]. eapply alloc_of_prev; [apply P1|done]. }
  simpl.
  destruct (store_prev_effect e None h3) as (h4 & -> & N4 & P4 & S4).
  { eapply alloc_of_prev; [apply P3|]. eapply alloc_of_next; [apply N2|].
    eapply alloc_of_prev; [apply P1|done]. }
  exists h4. split; [done|]. split; [|split].
  - intros c. rewrite N4, N3, N2, N1. by repeat case_decide.
  - intros c. rewrite P4, P3, P2, P1. by repeat case_decide.
  - intros a. by rewrite S4, S3, S2, S1.
Qed.

Lemma wl_list_insert_effect h l e q :
  load_next h l = Some (Some q) → is_Some (load h e) → is_Some (load h q) →
  e ≠ l → e ≠ q →
  ∃ h', wl_list_insert (Some l) (Some e) h = Some h' ∧
    (∀ c, load_next h' c =
            if decide (c = l) then Some (Some e)
            else if decide (c = e) then Some (Some q) else load_next h c) ∧
    (∀ c, load_prev h' c =
            if decide (c = q) then Some (Some e)
            else if decide (c = e) then Some (Some l) else load_prev h c) ∧
    (∀ a, node_scalars h' a = node_scalars h a).
Proof.
  intros Hq Ae Aq Hel Heq. unfold wl_list_insert. simpl.
  assert (Al : is_Some (load h l)) by (apply load_next_is_Some; eauto).
  destruct (store_prev_effect e (Some l) h Ae) as (h1 & -> & N1 & P1 & S1).
  simpl. rewrite N1, Hq. simpl.
  destruct (store_next_effect e (Some q) h1) as (h2 & -> & N2 & P2 & S2).
  { eapply alloc_of_next; [apply N1|done]. }
  simpl.
  destruct (store_next_effect l (Some e) h2) as (h3 & -> & N3 & P3 & S3).
  { eapply alloc_of_prev; [apply P2|]. eapply alloc_of_next; [apply N1|done]. }
  simpl. rewrite N3, N2.
  rewrite (decide_False (P := e = l)) by done.
  rewrite (decide_True (P := e = e)) by done. simpl.
  destruct (store_prev_effect q (Some e) h3) as (h4 & -> & N4 & P4 & S4).
  { eapply alloc_of_prev; [apply P3|]. eapply alloc_of_prev; [apply P2|].
    eapply alloc_of_next; [apply N1|done]. }
  exists h4. split; [done|]. split; [|split].
  - intros c. rewrite N4, N3, N2, N1. by repeat case_decide.
  - intros c. rewrite P4, P3, P2, P1. by repeat case_decide.
  - intros a. by rewrite S4, S3, S2, S1.
Qed.

(** ** Lists in the heap: [wl_list_remove] and [wl_list_insert] *)

#[global] Arguments wl_list_init : simpl never.
#[global] Arguments wl_list_insert : simpl never.
#[global] Arguments wl_list_remove : simpl never.

Ltac split_nodup :=
  repeat match goal with
  | H : NoDup (_ :: _) |- _ => apply NoDup_cons in H; destruct H
  | H : NoDup (_ ++ _) |- _ => apply NoDup_app in H; destruct H as (? & ? & ?)
  end.

Lemma NoDup_mid {A} (a e : A) l1 l2 :
  NoDup (a :: l1 ++ e :: l2) ↔ (e ∉ a :: l1 ++ l2) ∧ NoDup (a :: l1 ++ l2).
Proof.
  rewrite <- NoDup_cons.
  assert ((a :: l1 ++ e :: l2) ≡ₚ (e :: a :: l1 ++ l2)) as ->; [|done].
  rewrite (app_comm_cons l1 (e :: l2) a), (app_comm_cons l1 l2 a).
  symmetry. apply Permutation_middle.
Qed.

Lemma linked_next h a b b' : linked h a b → linked h a b' → b = b'.
Proof. intros [H1 _] [H2 _]. congruence. Qed.

Lemma linked_prev h a a' b : linked h a b → linked h a' b → a = a'.
Proof. intros [_ H1] [_ H2]. congruence. Qed.

Lemma chain_app h a l1 e l2 z :
  chain h a (l1 ++ e :: l2) z ↔ chain h a l1 e ∧ chain h e l2 z.
Proof.
  revert a. induction l1 as [|b l1 IH]; intros a; simpl; [done|].
  rewrite IH. tauto.
Qed.

Lemma chain_frame h h' a ls z :
  (∀ c, c ∈ a :: ls → load_next h' c = load_next h c) →
  (∀ c, c ∈ ls ++ [z] → load_prev h' c = load_prev h c) →
  chain h a ls z → chain h' a ls z.
Proof.
  revert a. induction ls as [|b ls IH]; intros a Hn Hp; simpl.
  - intros [H1 H2]. split; [rewrite Hn|rewrite Hp]; set_solver.
  - intros [[H1 H2] H3]. split; [split|].
    + rewrite Hn; set_solver.
    + rewrite Hp; set_solver.
    + apply IH; [| |done]; intros c Hc; [apply Hn|apply Hp]; set_solver.
Qed.

Lemma chain_first h a ls z :
  chain h a ls z → ∃ b, linked h a b ∧ b ∈ ls ++ [z].
Proof.
  destruct ls as [|b ls]; simpl; [intros ?|intros [? _]];
    eexists; (split; [done|]); set_solver.
Qed.

Lemma chain_last h a ls z :
  chain h a ls z → ∃ b, linked h b z ∧ b ∈ a :: ls.
Proof.
  revert a. induction ls as [|b ls IH]; intros a; simpl.
  - intros ?. exists a. split; [done|set_solver].
  - intros [_ H]. destruct (IH _ H) as (c & ? & ?). exists c.
    split; [done|set_solver].
Qed.

Lemma chain_alloc h a ls z c :
  chain h a ls z → c ∈ a :: ls ++ [z] → is_Some (load h c).
Proof.
  revert a. induction ls as [|b ls IH]; intros a; simpl.
  - intros [H1 H2] Hc. apply elem_of_cons in Hc as [->|Hc].
    + apply load_next_is_Some. eauto.
    + apply list_elem_of_singleton in Hc as ->. apply load_prev_is_Some. eauto.
  - intros [[H1 H2] H3] Hc. apply elem_of_cons in Hc as [->|Hc].
    + apply load_next_is_Some. eauto.
    + by apply (IH b).
Qed.

Lemma dll_alloc h head ls c : dll h head ls → c ∈ head :: ls → is_Some (load h c).
Proof.
  intros [H _] Hc. eapply chain_alloc; [done|].
  rewrite app_comm_cons. apply elem_of_app. by left.
Qed.

Lemma chain_functional h a l1 l2 z :
  chain h a l1 z → chain h a l2 z → z ∉ l1 → z ∉ l2 → l1 = l2.
Proof.
  revert a l2. induction l1 as [|b l1 IH]; intros a [|b' l2]; simpl.
  - done.
  - intros H1 [H2 _] _ Hz. rewrite (linked_next _ _ _ _ H1 H2) in Hz. set_solver.
  - intros [H1 _] H2 Hz _. rewrite (linked_next _ _ _ _ H1 H2) in Hz. set_solver.
  - intros [H1 H1'] [H2 H2'] Hz1 Hz2.
    pose proof (linked_next _ _ _ _ H1 H2) as <-.
    f_equal. apply (IH b); [done|done|set_solver|set_solver].
Qed.

Lemma dll_functional h head l1 l2 : dll h head l1 → dll h head l2 → l1 = l2.
Proof.
  intros [H1 N1] [H2 N2]. split_nodup.
  by apply (chain_functional h head l1 l2 head).
Qed.

Section list_effects.
Variables h h' : heap.

(** After [wl_list_remove(e)], where [p] came before [e] and [q] after. *)
Section removed.
Variables e p q : loc.
Hypothesis Hnext : ∀ c, load_next h' c =
  if decide (c = e) then Some None
  else if decide (c = p) then Some (Some q) else load_next h c.
Hypothesis Hprev : ∀ c, load_prev h' c =
  if decide (c = e) then Some None
  else if decide (c = q) then Some (Some p) else load_prev h c.
Hypothesis Hp : linked h p e.
Hypothesis Hq : linked h e q.

Lemma chain_remove l1 l2 a z :
  NoDup (a :: l1 ++ e :: l2) → z ∉ l1 ++ e :: l2 →
  chain h a (l1 ++ e :: l2) z → chain h' a (l1 ++ l2) z.
Proof using Hnext Hprev Hp Hq.
  revert a. induction l1 as [|b l1 IH]; intros a Hnd Hz; simpl.
  - intros [Ha Hc].
    pose proof (linked_prev _ _ _ _ Hp Ha) as ->.
    assert (Hae : a ≠ e) by (split_nodup; set_solver).
    assert (Hze : z ≠ e) by set_solver.
    destruct l2 as [|b l2]; simpl in *.
    + pose proof (linked_next _ _ _ _ Hq Hc) as ->.
      split; [rewrite Hnext|rewrite Hprev]; by repeat case_decide.
    + destruct Hc as [Hb Hc].
      pose proof (linked_next _ _ _ _ Hq Hb) as ->.
      assert (Hbe : b ≠ e) by (split_nodup; set_solver).
      split; [split; [rewrite Hnext|rewrite Hprev]; by repeat case_decide|].
      eapply chain_frame; [| |done].
      * intros c Hc'. rewrite Hnext.
        rewrite !decide_False; [done| |]; split_nodup; set_solver.
      * intros c Hc'. rewrite Hprev.
        rewrite !decide_False; [done| |]; split_nodup; set_solver.
  - intros [[Hab Hba] Hc]. split; [split|].
    + rewrite Hnext. rewrite !decide_False; [done| |].
      * intros ->. destruct Hp as [Hp' _]. split_nodup.
        assert (b = e) by congruence. set_solver.
      * split_nodup; set_solver.
    + rewrite Hprev. rewrite !decide_False; [done| |].
      * intros ->. destruct Hq as [_ Hq']. split_nodup.
        assert (a = e) by congruence. set_solver.
      * split_nodup; set_solver.
    + apply IH; [|set_solver|done]. by apply NoDup_cons in Hnd as [_ ?].
Qed.
End removed.

(** After [wl_list_insert(l, e)], where [q] came after [l]. *)
Section inserted.
Variables l e q : loc.
Hypothesis Hnext : ∀ c, load_next h' c =
  if decide (c = l) then Some (Some e)
  else if decide (c = e) then Some (Some q) else load_next h c.
Hypothesis Hprev : ∀ c, load_prev h' c =
  if decide (c = q) then Some (Some e)
  else if decide (c = e) then Some (Some l) else load_prev h c.
Hypothesis Hq : linked h l q.

Lemma chain_insert_here l2 z :
  NoDup (l :: l2) → z ∉ l2 → e ∉ l :: l2 → e ≠ z →
  chain h l l2 z → chain h' l (e :: l2) z.
Proof using Hnext Hprev Hq.
  intros Hnd Hz He Hez Hc. simpl.
  destruct (chain_first _ _ _ _ Hc) as (q' & Hq' & Hin).
  pose proof (linked_next _ _ _ _ Hq Hq') as <-.
  assert (e ≠ q) by set_solver.
  assert (e ≠ l) by set_solver.
  split; [split; [rewrite Hnext|rewrite Hprev]; by repeat case_decide|].
  destruct l2 as [|b l2]; simpl in *.
  - pose proof (linked_next _ _ _ _ Hq Hc) as ->.
    split; [rewrite Hnext|rewrite Hprev]; by repeat case_decide.
  - destruct Hc as [Hb Hc].
    pose proof (linked_next _ _ _ _ Hq Hb) as ->.
    split; [split; [rewrite Hnext|rewrite Hprev]; by repeat case_decide|].
    eapply chain_frame; [| |done].
    + intros c Hc'. rewrite Hnext.
      rewrite !decide_False; [done| |]; split_nodup; set_solver.
    + intros c Hc'. rewrite Hprev.
      rewrite !decide_False; [done| |]; split_nodup; set_solver.
Qed.

Lemma chain_insert_after l1 l2 a z :
  NoDup (a :: l1 ++ l :: l2) → z ∉ l1 ++ l :: l2 →
  e ∉ a :: l1 ++ l :: l2 → e ≠ z →
  chain h a (l1 ++ l :: l2) z → chain h' a (l1 ++ l :: e :: l2) z.
Proof using Hnext Hprev Hq.
  revert a. induction l1 as [|b l1 IH]; intros a Hnd Hz He Hez; simpl.
  - intros [[Hal Hla] Hc]. split.
    + destruct (chain_first _ _ _ _ Hc) as (q' & Hq' & Hin).
      pose proof (linked_next _ _ _ _ Hq Hq') as <-.
      split; [rewrite Hnext|rewrite Hprev];
        (rewrite !decide_False; [done| |]); split_nodup; set_solver.
    + apply chain_insert_here; [|set_solver|set_solver|done|done].
      by apply NoDup_cons in Hnd as [_ ?].
  - intros [[Hab Hba] Hc]. split; [split|].
    + rewrite Hnext.
      rewrite !decide_False; [done| |]; split_nodup; set_solver.
    + rewrite Hprev. rewrite !decide_False; [done| |].
      * set_solver.
      * intros ->. destruct Hq as [_ Hq']. split_nodup.
        assert (a = l) by congruence. set_solver.
    + apply IH; [|set_solver|set_solver|done|done].
      by apply NoDup_cons in Hnd as [_ ?].
Qed.
End inserted.
End list_effects.

Lemma load_of_next_prev h l n p :
  load_next h l = Some n → load_prev h l = Some p →
  load h l = Some {| prev := p; next := n |}.
Proof.
  unfold load_next, load_prev. destruct (load h l) as [[p' n']|]; simpl;
    congruence.
Qed.

Lemma dll_nil_linked h e : dll h e [] ↔ linked h e e.
Proof.
  unfold dll. simpl. split; [by intros [? _]|]. intros ?. split; [done|].
  apply NoDup_singleton.
Qed.

Lemma dll_remove h head l1 e l2 :
  dll h head (l1 ++ e :: l2) →
  ∃ h', wl_list_remove (Some e) h = Some h' ∧
    dll h' head (l1 ++ l2) ∧
    load h' e = Some NULL_list ∧
    (∀ c, c ∉ head :: l1 ++ l2 → c ≠ e → load h' c = load h c) ∧
    (∀ a, node_scalars h' a = node_scalars h a).
Proof.
  intros [Hc Hnd].
  pose proof Hc as Hc'. apply chain_app in Hc' as [H1 H2].
  destruct (chain_last _ _ _ _ H1) as (p & Hp & Hpin).
  destruct (chain_first _ _ _ _ H2) as (q & Hq & Hqin).
  destruct (wl_list_remove_effect h e p q) as (h' & Hrm & N & P & S).
  { apply Hp. } { apply Hq. }
  { eapply chain_alloc; [exact H1|]. set_solver. }
  { eapply chain_alloc; [exact H2|]. set_solver. }
  exists h'. split; [done|]. split; [split|split; [|split]].
  - eapply chain_remove; [exact N|exact P|exact Hp|exact Hq|done| |done].
    split_nodup. set_solver.
  - by apply NoDup_mid in Hnd as [_ ?].
  - apply load_of_next_prev; [rewrite N|rewrite P]; by rewrite decide_True.
  - intros c Hc1 Hc2. apply load_ext; [rewrite N|rewrite P];
      (rewrite !decide_False; [done| |done]); set_solver.
  - done.
Qed.

Lemma dll_remove_self h e :
  dll h e [] →
  ∃ h', wl_list_remove (Some e) h = Some h' ∧
    load h' e = Some NULL_list ∧
    (∀ c, c ≠ e → load h' c = load h c) ∧
    (∀ a, node_scalars h' a = node_scalars h a).
Proof.
  intros He%dll_nil_linked.
  destruct (wl_list_remove_effect h e e e) as (h' & Hrm & N & P & S);
    [apply He|apply He|apply load_next_is_Some; rewrite (proj1 He); eauto..|].
  exists h'. split; [done|]. split; [|split].
  - apply load_of_next_prev; [rewrite N|rewrite P]; by rewrite decide_True.
  - intros c Hc. apply load_ext; [rewrite N|rewrite P];
      by rewrite !decide_False.
  - done.
Qed.

Lemma dll_insert_head h head ls e :
  dll h head ls → e ∉ head :: ls → is_Some (load h e) →
  ∃ h', wl_list_insert (Some head) (Some e) h = Some h' ∧
    dll h' head (e :: ls) ∧
    (∀ c, c ∉ head :: ls → c ≠ e → load h' c = load h c) ∧
    (∀ a, node_scalars h' a = node_scalars h a).
Proof.
  intros [Hc Hnd] He Ae.
  destruct (chain_first _ _ _ _ Hc) as (q & Hq & Hqin).
  destruct (wl_list_insert_effect h head e q) as (h' & Hin & N & P & S).
  { apply Hq. } { done. }
  { eapply chain_alloc; [exact Hc|]. set_solver. }
  { set_solver. } { set_solver. }
  exists h'. split; [done|]. split; [split|split].
  - eapply chain_insert_here; [exact N|exact P|exact Hq|done| | | |done];
      split_nodup; set_solver.
  - apply NoDup_cons in Hnd as [? ?]. repeat (apply NoDup_cons; split);
      [set_solver|set_solver|done].
  - intros c Hc1 Hc2. apply load_ext; [rewrite N|rewrite P];
      (rewrite !decide_False; [done| |]); set_solver.
  - done.
Qed.

Lemma dll_insert_after h head l1 l l2 e :
  dll h head (l1 ++ l :: l2) → e ∉ head :: l1 ++ l :: l2 →
  is_Some (load h e) →
  ∃ h', wl_list_insert (Some l) (Some e) h = Some h' ∧
    dll h' head (l1 ++ l :: e :: l2) ∧
    (∀ c, c ∉ head :: l1 ++ l :: l2 → c ≠ e → load h' c = load h c) ∧
    (∀ a, node_scalars h' a = node_scalars h a).
Proof.
  intros [Hc Hnd] He Ae.
  pose proof Hc as Hc'. apply chain_app in Hc' as [H1 H2].
  destruct (chain_first _ _ _ _ H2) as (q & Hq & Hqin).
  destruct (wl_list_insert_effect h l e q) as (h' & Hin & N & P & S).
  { apply Hq. } { done. }
  { eapply chain_alloc; [exact H2|]. set_solver. }
  { set_solver. } { set_solver. }
  exists h'. split; [done|]. split; [split|split].
  - eapply chain_insert_after; [exact N|exact P|exact Hq|done| |done| |done];
      split_nodup; set_solver.
  - rewrite (app_comm_cons l1 (l :: e :: l2) head), (cons_middle l (head :: l1)),
      app_assoc.
    rewrite (app_comm_cons l1 (l :: l2) head), (cons_middle l (head :: l1)),
      app_assoc in Hnd, He.
    destruct (head :: l1 ++ [l]) as [|b bs] eqn:E; [by destruct l1|].
    simpl. apply NoDup_mid. done.
  - intros c Hc1 Hc2. apply load_ext; [rewrite N|rewrite P];
      (rewrite !decide_False; [done| |]); set_solver.
  - done.
Qed.


Lemma last_cons_default {A} (b a : A) ls : List.last (b :: ls) a = List.last ls b.
Proof.
  revert a b. induction ls as [|c ls IH]; intros a b; [done|].
  change (List.last (b :: c :: ls) a) with (List.last (c :: ls) a).
  by rewrite !IH.
Qed.

Lemma chain_linked_last h a ls z : chain h a ls z → linked h (List.last ls a) z.
Proof.
  revert a. induction ls as [|b ls IH]; intros a; [done|].
  intros [_ H]. rewrite last_cons_default. by apply IH.
Qed.

Lemma dll_insert_tail h head ls e :
  dll h head ls → e ∉ head :: ls → is_Some (load h e) →
  ∃ t h', load_prev h head = Some t ∧
    wl_list_insert t (Some e) h = Some h' ∧
    dll h' head (ls ++ [e]) ∧
    (∀ c, c ∉ head :: ls → c ≠ e → load h' c = load h c) ∧
    (∀ a, node_scalars h' a = node_scalars h a).
Proof.
  intros Hd He Ae. exists (Some (List.last ls head)).
  pose proof (chain_linked_last _ _ _ _ (proj1 Hd)) as [_ Hl].
  destruct ls as [|l ls _] using rev_ind.
  - destruct (dll_insert_head h head [] e) as (h' & ? & ? & ? & ?); try done.
    exists h'. done.
  - rewrite last_last in Hl |- *.
    destruct (dll_insert_after h head ls l [] e) as (h' & ? & ? & ? & ?);
      try done.
    exists h'. rewrite <- app_assoc. done.
Qed.

Lemma dll_insert_before h head l1 l l2 e :
  dll h head (l1 ++ l :: l2) → e ∉ head :: l1 ++ l :: l2 →
  is_Some (load h e) →
  ∃ b h', load_prev h l = Some b ∧
    wl_list_insert b (Some e) h = Some h' ∧
    dll h' head (l1 ++ e :: l :: l2) ∧
    (∀ c, c ∉ head :: l1 ++ l :: l2 → c ≠ e → load h' c = load h c) ∧
    (∀ a, node_scalars h' a = node_scalars h a).
Proof.
  intros Hd He Ae. exists (Some (List.last l1 head)).
  pose proof (proj1 Hd) as Hc. apply chain_app in Hc as [Hc _].
  apply chain_linked_last in Hc as [_ Hl].
  destruct l1 as [|b l1 _] using rev_ind.
  - destruct (dll_insert_head h head (l :: l2) e) as (h' & ? & ? & ? & ?);
      try done.
    exists h'. done.
  - rewrite last_last in Hl |- *. rewrite <- app_assoc in Hd, He. simpl in *.
    destruct (dll_insert_after h head l1 b (l :: l2) e)
      as (h' & ? & ? & ? & ?); try done.
    exists h'. rewrite <- !app_assoc. done.
Qed.

(** ** The iteration macros over a well-formed list *)

Lemma links_of_app m l1 l2 : links_of m (l1 ++ l2) = links_of m l1 ++ links_of m l2.
Proof. apply fmap_app. Qed.

Lemma elem_of_links_of m m' k ks : (k, m') ∈ links_of m ks ↔ m' = m ∧ k ∈ ks.
Proof.
  unfold links_of. rewrite list_elem_of_fmap. split.
  - intros (k' & [= -> ->] & ?). done.
  - intros [-> ?]. eauto.
Qed.

Lemma elem_of_links_of' m c ks : c ∈ links_of m ks ↔ c.2 = m ∧ c.1 ∈ ks.
Proof. destruct c. apply elem_of_links_of. Qed.

Lemma NoDup_links_of m ks : NoDup (links_of m ks) ↔ NoDup ks.
Proof.
  unfold links_of. split; [apply NoDup_fmap_1|].
  apply NoDup_fmap_2. intros ?? [=]. done.
Qed.

Lemma dll_NoDup h head m ks : dll h head (links_of m ks) → NoDup ks.
Proof. intros [_ [_ H]%NoDup_cons]. by apply NoDup_links_of in H. Qed.

Lemma dll_frame h h' head ls :
  (∀ c, c ∈ head :: ls → load h' c = load h c) → dll h head ls → dll h' head ls.
Proof.
  intros Hf [Hc Hnd]. split; [|done].
  eapply chain_frame; [| |done]; intros c Hc'.
  - unfold load_next. rewrite Hf; set_solver.
  - unfold load_prev. rewrite Hf; set_solver.
Qed.

Lemma dll_next_head h head m ks :
  dll h head (links_of m ks) → load_next h head = Some (start m head ks).
Proof. intros [Hc _]. destruct ks; simpl in Hc; apply Hc. Qed.

Lemma dll_next_elem h head m l1 k l2 :
  dll h head (links_of m (l1 ++ k :: l2)) →
  load_next h (k, m) = Some (start m head l2).
Proof.
  intros [Hc _]. rewrite links_of_app in Hc. simpl in Hc.
  apply chain_app in Hc as [_ Hc]. destruct l2; simpl in Hc; apply Hc.
Qed.

Section for_each_rule.
Context {St : Type}.
Variable mem : St → heap.
Variable m : member.
Variable head : loc.
Variable body : addr → St → result St.
(** What holds when the elements [ks] remain to be visited. *)
Variable Inv : list addr → St → Prop.

Lemma for_each_from_rule :
  (∀ k ks s, Inv (k :: ks) s →
     (k, m) ≠ head ∧
     ∃ s', body k s = Ok s' ∧
       load_next (mem s') (k, m) = Some (start m head ks) ∧ Inv ks s') →
  ∀ fuel ks s, Inv ks s → length ks < fuel →
  ∃ s', for_each_from mem m head body fuel (start m head ks) s = Ok s' ∧
    each body ks s = Ok s' ∧ Inv [] s'.
Proof.
  intros Hstep fuel. induction fuel as [|fuel IH]; intros ks s HI Hlen;
    [lia|].
  destruct ks as [|k ks]; simpl.
  - rewrite decide_True by done. eauto.
  - destruct (Hstep _ _ _ HI) as (Hne & s' & Hb & Hn & HI').
    rewrite (decide_False (P := Some (k, m) = Some head)) by congruence.
    unfold wl_container_of. simpl. rewrite decide_True by done. simpl. rewrite Hb. simpl. rewrite Hn. simpl.
    apply IH; [done|]. simpl in Hlen. lia.
Qed.

Lemma wl_list_for_each_rule :
  (∀ k ks s, Inv (k :: ks) s →
     (k, m) ≠ head ∧
     ∃ s', body k s = Ok s' ∧
       load_next (mem s') (k, m) = Some (start m head ks) ∧ Inv ks s') →
  ∀ fuel ks s, Inv ks s → length ks < fuel →
  load_next (mem s) head = Some (start m head ks) →
  ∃ s', wl_list_for_each mem m head body fuel s = Ok s' ∧
    each body ks s = Ok s' ∧ Inv [] s'.
Proof.
  intros Hstep fuel ks s HI Hlen Hfirst. unfold wl_list_for_each.
  rewrite Hfirst. simpl. by apply for_each_from_rule.
Qed.

(** [wl_list_for_each_safe]: the body may remove the element it is given. *)
Lemma for_each_safe_from_rule :
  (∀ k ks s, Inv (k :: ks) s →
     (k, m) ≠ head ∧ ∃ s', body k s = Ok s' ∧ Inv ks s') →
  (∀ k ks s, Inv (k :: ks) s →
     load_next (mem s) (k, m) = Some (start m head ks)) →
  (∀ s, Inv [] s → is_Some (load_next (mem s) head)) →
  ∀ fuel ks s tmp, Inv ks s → length ks < fuel →
  (∀ k ks', ks = k :: ks' → tmp = start m head ks') →
  ∃ s', for_each_safe_from mem m head body fuel (start m head ks) tmp s
          = Ok s' ∧
    each body ks s = Ok s' ∧ Inv [] s'.
Proof.
  intros Hstep Hnext Hhead fuel.
  induction fuel as [|fuel IH]; intros ks s tmp HI Hlen Htmp; [lia|].
  destruct ks as [|k ks]; simpl.
  - rewrite decide_True by done. eauto.
  - destruct (Hstep _ _ _ HI) as (Hne & s' & Hb & HI').
    rewrite (decide_False (P := Some (k, m) = Some head)) by congruence.
    unfold wl_container_of. simpl. rewrite decide_True by done. simpl. rewrite Hb. simpl.
    rewrite (Htmp _ _ eq_refl). simpl.
    destruct ks as [|k' ks'].
    + destruct (Hhead _ HI') as [nxt Hnxt]. simpl. rewrite Hnxt. simpl.
      apply (IH [] s' nxt); [done|simpl in *; lia|done].
    + simpl. rewrite (Hnext _ _ _ HI'). simpl.
      apply (IH (k' :: ks') s'); [done|simpl in *; lia|].
      by intros ?? [= <- <-].
Qed.

Lemma wl_list_for_each_safe_rule :
  (∀ k ks s, Inv (k :: ks) s →
     (k, m) ≠ head ∧ ∃ s', body k s = Ok s' ∧ Inv ks s') →
  (∀ k ks s, Inv (k :: ks) s →
     load_next (mem s) (k, m) = Some (start m head ks)) →
  (∀ s, Inv [] s → is_Some (load_next (mem s) head)) →
  ∀ fuel ks s, Inv ks s → length ks < fuel →
  load_next (mem s) head = Some (start m head ks) →
  ∃ s', wl_list_for_each_safe mem m head body fuel s = Ok s' ∧
    each body ks s = Ok s' ∧ Inv [] s'.
Proof.
  intros Hstep Hnext Hhead fuel ks s HI Hlen Hfirst.
  unfold wl_list_for_each_safe. rewrite Hfirst. simpl.
  destruct ks as [|k ks'].
  - simpl. rewrite Hfirst. simpl.
    apply (for_each_safe_from_rule Hstep Hnext Hhead fuel [] s); done.
  - simpl. rewrite (Hnext _ _ _ HI). simpl.
    apply (for_each_safe_from_rule Hstep Hnext Hhead fuel (k :: ks') s);
      [done|done|]. by intros ?? [= <- <-].
Qed.
End for_each_rule.

(** The iteration yields the elements of a well-formed list, in order. *)
Lemma wl_list_elems_dll h m head ks fuel :
  dll h head (links_of m ks) → head.2 ≠ m → length ks < fuel →
  wl_list_elems h m head fuel = Ok ks.
Proof.
  intros Hd Hm Hlen. unfold wl_list_elems.
  destruct (wl_list_for_each_rule (λ _, h) m head
              (λ child acc, Ok (acc ++ [child]))
              (λ rem acc, ks = acc ++ rem)) with (fuel := fuel) (ks := ks)
              (s := @nil addr) as (s' & -> & _ & Hs').
  - intros k rem acc ->. split; [intros E; by rewrite <- E in Hm|].
    eexists. split; [done|]. split.
    + by eapply dll_next_elem.
    + by rewrite <- app_assoc.
  - done.
  - done.
  - by apply dll_next_head.
  - rewrite app_nil_r in Hs'. by subst.
Qed.

(** ** The first loop of the commit *)

Lemma filter_ne_notin (k : addr) (l : list addr) : k ∉ l → filter (λ j, j ≠ k) l = l.
Proof.
  induction l as [|a l IH]; [done|]. intros Hk.
  rewrite filter_cons_True by set_solver. rewrite IH; [done|set_solver].
Qed.

Lemma move_to_end_split (k : addr) (l1 l2 : list addr) :
  k ∉ l1 → k ∉ l2 → move_to_end k (l1 ++ k :: l2) = l1 ++ l2 ++ [k].
Proof.
  intros H1 H2. unfold move_to_end.
  rewrite filter_app, filter_cons_False by (intros ?; done).
  rewrite !filter_ne_notin by done. by rewrite <- app_assoc.
Qed.

Lemma elem_of_move_to_end k l j : j ∈ move_to_end k l ↔ j ∈ l ∨ j = k.
Proof.
  unfold move_to_end. rewrite elem_of_app, list_elem_of_filter,
    list_elem_of_singleton.
  destruct (decide (j = k)); naive_solver.
Qed.

Lemma elem_of_foldl_move_to_end (cur done : list addr) j :
  j ∈ foldl (λ l k, move_to_end k l) cur done ↔ j ∈ cur ∨ j ∈ done.
Proof.
  induction done as [|k done IH] using rev_ind; [set_solver|].
  rewrite foldl_snoc, elem_of_move_to_end, IH. set_solver.
Qed.

Lemma foldl_move_to_end (cur pend : list addr) :
  NoDup pend →
  foldl (λ l k, move_to_end k l) cur pend = committed_order cur pend.
Proof.
  unfold committed_order.
  induction pend as [|k pend IH] using rev_ind; intros Hnd.
  - simpl. rewrite app_nil_r. symmetry.
    induction cur as [|a cur IHc]; [done|].
    rewrite filter_cons_True by set_solver. by rewrite IHc.
  - apply NoDup_app in Hnd as (Hnd & Hk & _).
    rewrite foldl_snoc, IH by done. unfold move_to_end.
    rewrite filter_app, list_filter_filter, (filter_ne_notin k pend).
    + rewrite <- !app_assoc. f_equal. apply list_filter_iff. set_solver.
    + intros Hin. apply (Hk _ Hin). set_solver.
Qed.

Lemma commit_relink_one h n cur k :
  current_list h n cur → k ∈ cur ∨ dll h (k, current_link) [] →
  ∃ h', commit_relink n k h = Ok h' ∧
    current_list h' n (move_to_end k cur) ∧
    (∀ c, c ∉ (n, current_children) :: links_of current_link cur →
          c ≠ (k, current_link) → load h' c = load h c) ∧
    (∀ a, node_scalars h' a = node_scalars h a).
Proof.
  intros Hcur Hk. unfold commit_relink, current_list in *.
  pose proof (dll_NoDup _ _ _ _ Hcur) as Hnd.
  destruct (decide (k ∈ cur)) as [Hin|Hnin].
  - apply list_elem_of_split in Hin as (l1 & l2 & ->).
    apply NoDup_app in Hnd as (_ & Hk1 & [Hk2 _]%NoDup_cons).
    assert (k ∉ l1) by (intros ?; eapply Hk1; [done|set_solver]).
    rewrite links_of_app in Hcur. simpl in Hcur.
    destruct (dll_remove _ _ _ _ _ Hcur) as (h1 & -> & Hd1 & Hk' & F1 & S1).
    simpl.
    destruct (dll_insert_tail h1 _ _ (k, current_link) Hd1)
      as (t & h2 & -> & Hins & Hd2 & F2 & S2).
    { rewrite <- links_of_app. rewrite elem_of_cons, elem_of_links_of.
      set_solver. }
    { by rewrite Hk'. }
    simpl. rewrite Hins. simpl. exists h2. split; [done|].
    rewrite move_to_end_split by done. split; [|split].
    + rewrite app_assoc, links_of_app. rewrite <- links_of_app in Hd2. done.
    + intros c Hc1 Hc2. rewrite links_of_app in Hc1. simpl in Hc1.
      rewrite F2, F1; [done| |done| |done]; set_solver.
    + intros a. by rewrite S2, S1.
  - destruct Hk as [?|Hself]; [done|].
    destruct (dll_remove_self _ _ Hself) as (h1 & -> & Hk' & F1 & S1). simpl.
    assert (Hd1 : dll h1 (n, current_children) (links_of current_link cur)).
    { eapply dll_frame; [|done]. intros c Hc. apply F1. intros ->.
      rewrite elem_of_cons, elem_of_links_of in Hc. naive_solver. }
    destruct (dll_insert_tail h1 _ _ (k, current_link) Hd1)
      as (t & h2 & -> & Hins & Hd2 & F2 & S2).
    { rewrite elem_of_cons, elem_of_links_of. naive_solver. }
    { by rewrite Hk'. }
    simpl. rewrite Hins. simpl. exists h2. split; [done|].
    unfold move_to_end. rewrite filter_ne_notin by done. split; [|split].
    + by rewrite links_of_app.
    + intros c Hc1 Hc2. rewrite F2, F1; done.
    + intros a. by rewrite S2, S1.
Qed.

Lemma commit_relink_loop h n cur pend fuel :
  current_list h n cur → pending_list h n pend →
  (∀ k, k ∈ pend → k ∉ cur → dll h (k, current_link) []) →
  length pend < fuel →
  ∃ h', wl_list_for_each id pending_link (n, pending_children)
          (commit_relink n) fuel h = Ok h' ∧
    each (commit_relink n) pend h = Ok h' ∧
    current_list h' n (committed_order cur pend) ∧
    (∀ c, c ∉ (n, current_children) :: links_of current_link (cur ++ pend) →
          load h' c = load h c) ∧
    (∀ a, node_scalars h' a = node_scalars h a).
Proof.
  intros Hcur Hpend Hself Hlen.
  pose proof (dll_NoDup _ _ _ _ Hpend) as Hnd.
  set (Inv := λ (rem : list addr) (hi : heap),
    ∃ done, pend = done ++ rem ∧
      current_list hi n (foldl (λ l k, move_to_end k l) cur done) ∧
      (∀ c, c ∉ (n, current_children) :: links_of current_link (cur ++ done) →
            load hi c = load h c) ∧
      (∀ a, node_scalars hi a = node_scalars h a)).
  destruct (wl_list_for_each_rule id pending_link (n, pending_children)
              (commit_relink n) Inv) with (fuel := fuel) (ks := pend) (s := h)
    as (h' & Hloop & Heach & done & Hdone & Hcur' & F & S).
  - intros k rem hi (done & -> & Hci & Fi & Si). split; [done|].
    apply NoDup_app in Hnd as (_ & Hdk & [Hkr _]%NoDup_cons).
    assert (Hkd : k ∉ done) by (intros ?; eapply Hdk; [done|set_solver]).
    destruct (commit_relink_one hi n _ k Hci) as (hj & Hj & Hcj & Fj & Sj).
    { destruct (decide (k ∈ cur)) as [?|Hkc].
      - left. apply elem_of_foldl_move_to_end. by left.
      - right. eapply dll_frame; [|apply Hself; [set_solver|done]].
        intros c ->%list_elem_of_singleton. apply Fi.
        rewrite elem_of_cons, elem_of_links_of. set_solver. }
    exists hj. split; [done|]. split.
    + simpl. unfold load_next. rewrite Fj, Fi.
      * eapply (dll_next_elem h _ pending_link done k rem). apply Hpend.
      * rewrite elem_of_cons, elem_of_links_of. naive_solver.
      * rewrite elem_of_cons, elem_of_links_of'. naive_solver.
      * done.
    + exists (done ++ [k]). rewrite <- app_assoc. split; [done|].
      rewrite foldl_snoc. split; [done|]. split.
      * intros c Hc. rewrite Fj, Fi; [done| | |].
        -- rewrite elem_of_cons, elem_of_links_of' in Hc |- *. set_solver.
        -- rewrite elem_of_cons, elem_of_links_of' in Hc |- *.
           intros [?|[? Hin]]; [naive_solver|].
           apply elem_of_foldl_move_to_end in Hin. set_solver.
        -- intros ->. apply Hc. rewrite elem_of_cons, elem_of_links_of.
           set_solver.
      * intros a. by rewrite Sj, Si.
  - exists []. simpl. rewrite app_nil_r. done.
  - done.
  - by apply dll_next_head.
  - rewrite app_nil_r in Hdone. subst done. exists h'.
    rewrite foldl_move_to_end in Hcur' by done. done.
Qed.

(** ** Trees *)

Lemma tree_ind' (P : tree → Prop) :
  (∀ n ts, Forall P ts → P (Tree n ts)) → ∀ t, P t.
Proof.
  intros H. fix IH 1. intros [n ts]. apply H.
  induction ts as [|t ts IHts]; constructor; [apply IH|apply IHts].
Qed.

Lemma root_in_nodes t : root t ∈ nodes t.
Proof. destruct t. simpl. set_solver. Qed.

Lemma elem_of_concat_map {A B} (f : A → list B) (l : list A) (b : B) :
  b ∈ concat (map f l) ↔ ∃ a, a ∈ l ∧ b ∈ f a.
Proof.
  induction l as [|a l IH]; simpl.
  - split; [by intros ?%elem_of_nil|by intros (? & ?%elem_of_nil & _)].
  - rewrite elem_of_app, IH. split.
    + intros [?|(a' & ? & ?)]; [exists a|exists a']; set_solver.
    + intros (a' & [->|?]%elem_of_cons & ?); eauto.
Qed.

Lemma nodes_subtree n ts t a : t ∈ ts → a ∈ nodes t → a ∈ nodes (Tree n ts).
Proof.
  intros ??. simpl. apply elem_of_cons. right. apply elem_of_concat_map. eauto.
Qed.

Lemma elem_of_roots (ts : list tree) k :
  k ∈ root <$> ts ↔ ∃ t, t ∈ ts ∧ root t = k.
Proof. rewrite list_elem_of_fmap. naive_solver. Qed.

Lemma NoDup_concat_map {A B} (f : A → list B) (l : list A) :
  NoDup (concat (map f l)) →
  Forall (λ a, NoDup (f a)) l ∧
  ∀ l1 a l2 b c, l = l1 ++ a :: l2 → b ∈ l1 ++ l2 → c ∈ f a → c ∉ f b.
Proof.
  induction l as [|a l IH]; simpl; intros Hnd.
  - split; [constructor|]. intros [|??] ???? [=].
  - apply NoDup_app in Hnd as (Ha & Hdisj & Hl).
    destruct (IH Hl) as [IH1 IH2]. split; [by constructor|].
    intros [|a1 l1] a' l2 b c [= <- ->] Hb Hc Hcb; simpl in *.
    + eapply Hdisj; [done|]. apply elem_of_concat_map. eauto.
    + apply elem_of_cons in Hb as [->|Hb].
      * eapply Hdisj; [done|]. apply elem_of_concat_map.
        exists a'. split; [set_solver|done].
      * eapply IH2; done.
Qed.

Lemma NoDup_subtree n ts t : NoDup (nodes (Tree n ts)) → t ∈ ts → NoDup (nodes t).
Proof.
  simpl. intros [_ [H _]%NoDup_concat_map]%NoDup_cons Ht.
  rewrite Forall_forall in H. by apply H.
Qed.

Lemma nodes_disjoint n ts t1 t2 a :
  NoDup (nodes (Tree n ts)) → t1 ∈ ts → t2 ∈ ts → t1 ≠ t2 →
  a ∈ nodes t1 → a ∉ nodes t2.
Proof.
  simpl. intros [_ [_ H]%NoDup_concat_map]%NoDup_cons H1 H2 Hne Ha.
  apply list_elem_of_split in H1 as (l1 & l2 & ->).
  eapply H; [done| |done].
  rewrite elem_of_app, elem_of_cons in H2. set_solver.
Qed.

Lemma root_not_in_subtree n ts t :
  NoDup (nodes (Tree n ts)) → t ∈ ts → n ∉ nodes t.
Proof.
  simpl. intros [H _]%NoDup_cons Ht Hn. apply H. apply elem_of_concat_map. eauto.
Qed.

Lemma roots_NoDup_eq n ts t1 t2 :
  NoDup (nodes (Tree n ts)) → t1 ∈ ts → t2 ∈ ts → root t1 = root t2 → t1 = t2.
Proof.
  simpl. intros [_ [_ H]%NoDup_concat_map]%NoDup_cons H1 H2 Hr.
  apply list_elem_of_split in H1 as (l1 & l2 & ->).
  rewrite elem_of_app, elem_of_cons in H2.
  destruct H2 as [H2|[->|H2]]; [|done|]; exfalso;
    (eapply (H l1 t1 l2 t2 (root t1));
       [done|set_solver|apply root_in_nodes|rewrite Hr; apply root_in_nodes]).
Qed.

Lemma nodes_disjoint_roots n ts t1 t2 a :
  NoDup (nodes (Tree n ts)) → t1 ∈ ts → t2 ∈ ts → root t1 ≠ root t2 →
  a ∈ nodes t1 → a ∉ nodes t2.
Proof. intros ????. eapply nodes_disjoint; [done..|]. by intros ->. Qed.

Lemma length_concat_map_ge {A B} (f : A → list B) (l : list A) :
  (∀ a, a ∈ l → 0 < length (f a)) → length l ≤ length (concat (map f l)).
Proof.
  induction l as [|a l IH]; simpl; intros H; [lia|].
  rewrite length_app. pose proof (H a ltac:(set_solver)).
  assert (length l ≤ length (concat (map f l))) by (apply IH; set_solver). lia.
Qed.

Lemma size_subtrees n ts : length ts < size (Tree n ts).
Proof.
  unfold size. simpl. apply Nat.lt_succ_r. apply length_concat_map_ge.
  intros [??] _. simpl. lia.
Qed.

Lemma size_subtree n ts t : t ∈ ts → size t < size (Tree n ts).
Proof.
  intros (l1 & l2 & ->)%list_elem_of_split. unfold size. simpl.
  rewrite map_app, concat_app. simpl. rewrite !length_app. lia.
Qed.

Lemma length_children (ks : list addr) (ts : list tree) :
  NoDup ks → (∀ k, k ∈ ks → k ∈ root <$> ts) → length ks ≤ length ts.
Proof.
  intros Hnd Hsub. rewrite <- (length_fmap root ts).
  apply submseteq_length. by apply NoDup_submseteq.
Qed.

(** *** The cells of a tree *)

Lemma elem_of_inner_cells t c : c ∈ inner_cells t → c.1 ∈ nodes t.
Proof.
  induction t as [n ts IH] using tree_ind'. simpl. intros Hc.
  rewrite !elem_of_cons, !elem_of_concat_map in Hc. rewrite elem_of_cons.
  destruct Hc as [->|[->|(t & Ht & Hc)]]; [by left..|]. right.
  apply elem_of_concat_map. exists t. split; [done|].
  rewrite !elem_of_cons in Hc. destruct Hc as [->|[->|Hc]];
    [apply root_in_nodes..|].
  rewrite Forall_forall in IH. by apply IH.
Qed.

Lemma inner_cells_subtree n ts t c :
  t ∈ ts → c ∈ inner_cells t → c ∈ inner_cells (Tree n ts).
Proof.
  intros Ht Hc. simpl. rewrite !elem_of_cons, elem_of_concat_map.
  right. right. exists t. set_solver.
Qed.

Lemma inner_cells_child n ts t m :
  t ∈ ts → m = current_link ∨ m = pending_link →
  (root t, m) ∈ inner_cells (Tree n ts).
Proof.
  intros Ht Hm. simpl. rewrite !elem_of_cons, elem_of_concat_map.
  right. right. exists t. set_solver.
Qed.

Lemma inner_cells_root t m :
  NoDup (nodes t) → (root t, m) ∈ inner_cells t →
  m = current_children ∨ m = pending_children.
Proof.
  destruct t as [n ts]. simpl. intros [Hn _]%NoDup_cons.
  rewrite !elem_of_cons, elem_of_concat_map.
  intros [[= ->]|[[= ->]|(t & Ht & Hc)]]; [by left|by right|].
  exfalso. apply Hn. apply elem_of_concat_map. exists t. split; [done|].
  rewrite !elem_of_cons in Hc. destruct Hc as [[= ->]|[[= ->]|Hc]];
    [apply root_in_nodes..|].
  by apply elem_of_inner_cells in Hc.
Qed.

Lemma elem_of_commit_cells t c :
  NoDup (nodes t) → c ∈ commit_cells t →
  c.1 ∈ nodes t ∧
  (c.2 = current_children ∨ (c.2 = current_link ∧ c.1 ≠ root t)).
Proof.
  induction t as [n ts IH] using tree_ind'. intros Hnd. simpl. intros Hc.
  rewrite !elem_of_cons, !elem_of_concat_map in Hc. rewrite elem_of_cons.
  destruct Hc as [->|(t & Ht & Hc)]; [split; [by left|by left]|].
  rewrite Forall_forall in IH.
  pose proof (root_not_in_subtree _ _ _ Hnd Ht) as Hn.
  rewrite !elem_of_cons in Hc. destruct Hc as [->|Hc]; simpl.
  - split; [right|right; split; [done|]].
    + apply elem_of_concat_map. exists t. split; [done|apply root_in_nodes].
    + intros E. apply Hn. rewrite <- E. apply root_in_nodes.
  - destruct (IH t Ht (NoDup_subtree _ _ _ Hnd Ht) Hc) as [H1 H2].
    split; [right; apply elem_of_concat_map; eauto|].
    destruct H2 as [?|[? ?]]; [by left|right]. split; [done|].
    intros E. apply Hn. by rewrite <- E.
Qed.

Lemma commit_cells_child n ts t :
  t ∈ ts → (root t, current_link) ∈ commit_cells (Tree n ts).
Proof.
  intros Ht. simpl. rewrite !elem_of_cons, elem_of_concat_map.
  right. exists t. set_solver.
Qed.

Lemma commit_cells_subtree n ts t c :
  t ∈ ts → c ∈ commit_cells t → c ∈ commit_cells (Tree n ts).
Proof.
  intros Ht Hc. simpl. rewrite !elem_of_cons, elem_of_concat_map.
  right. exists t. set_solver.
Qed.

(** *** Heaps that agree on a tree *)

Lemma agree_on_subtree n ts t h h' :
  agree_on (Tree n ts) h h' → t ∈ ts → agree_on t h h'.
Proof.
  intros [Hc Hs] Ht. split.
  - intros c ?. apply Hc. by eapply inner_cells_subtree.
  - intros a ?. apply Hs. by eapply nodes_subtree.
Qed.

Lemma agree_on_sym t h h' : agree_on t h h' → agree_on t h' h.
Proof. intros [Hc Hs]. split; intros ??; symmetry; auto. Qed.

Lemma agree_on_trans t h1 h2 h3 :
  agree_on t h1 h2 → agree_on t h2 h3 → agree_on t h1 h3.
Proof.
  intros [Hc Hs] [Hc' Hs']. split; intros ??; [rewrite Hc'|rewrite Hs']; auto.
Qed.

Lemma agree_on_lists n ts h h' ks m hm :
  agree_on (Tree n ts) h h' →
  (hm = current_children ∨ hm = pending_children) →
  (m = current_link ∨ m = pending_link) →
  (∀ k, k ∈ ks → k ∈ root <$> ts) →
  dll h (n, hm) (links_of m ks) → dll h' (n, hm) (links_of m ks).
Proof.
  intros [Hc _] Hhm Hm Hks. apply dll_frame. intros c.
  rewrite elem_of_cons, elem_of_links_of'. intros [->|[Hc2 Hc1]].
  - apply Hc. simpl. destruct Hhm as [-> | ->]; set_solver.
  - apply Hks, elem_of_roots in Hc1 as (t & Ht & Hr). apply Hc.
    destruct c as [k m']. simpl in *. subst. by apply inner_cells_child.
Qed.

Lemma dll_frame_lists n ts h h' ks m hm :
  (∀ c, c ∈ inner_cells (Tree n ts) → load h' c = load h c) →
  (hm = current_children ∨ hm = pending_children) →
  (m = current_link ∨ m = pending_link) →
  (∀ k, k ∈ ks → k ∈ root <$> ts) →
  dll h (n, hm) (links_of m ks) → dll h' (n, hm) (links_of m ks).
Proof.
  intros Hc Hhm Hm Hks. apply dll_frame. intros c.
  rewrite elem_of_cons, elem_of_links_of'. intros [->|[Hc2 Hc1]].
  - apply Hc. simpl. destruct Hhm as [-> | ->]; set_solver.
  - apply Hks, elem_of_roots in Hc1 as (t & Ht & Hr). apply Hc.
    destruct c as [k m']. simpl in *. subst. by apply inner_cells_child.
Qed.

(** [shaped] reads the cells of the tree and the parent pointers only. *)
Lemma shaped_frame t h h' :
  (∀ c, c ∈ inner_cells t → load h' c = load h c) →
  (∀ a, a ∈ nodes t → parent_of h' a = parent_of h a) →
  shaped h t → shaped h' t.
Proof.
  induction t as [n ts IH] using tree_ind'. intros Hcells Hparent Hsh.
  inversion Hsh as [n' ts' cur pend Hcur Hpend Hkids Hsc Hsp Hpar Hsub]; subst.
  apply (shaped_tree h' n ts cur pend).
  - eapply dll_frame_lists; [done|by left|by left| |done].
    intros k ?. apply Hkids. by left.
  - eapply dll_frame_lists; [done|by right|by right| |done].
    intros k ?. apply Hkids. by right.
  - done.
  - intros k Hk Hkc. eapply dll_frame; [|by apply Hsc].
    intros c ->%list_elem_of_singleton. apply Hcells.
    apply elem_of_roots in Hk as (t & Ht & <-).
    apply inner_cells_child; [done|by left].
  - intros k Hk Hkc. eapply dll_frame; [|by apply Hsp].
    intros c ->%list_elem_of_singleton. apply Hcells.
    apply elem_of_roots in Hk as (t & Ht & <-).
    apply inner_cells_child; [done|by right].
  - intros k Hk. rewrite Hparent; [by apply Hpar|].
    apply elem_of_roots in Hk as (t & Ht & <-).
    eapply nodes_subtree; [done|apply root_in_nodes].
  - rewrite Forall_forall in IH, Hsub |- *. intros t Ht.
    apply IH; [done| | |by apply Hsub].
    + intros c ?. apply Hcells. by eapply inner_cells_subtree.
    + intros a ?. apply Hparent. by eapply nodes_subtree.
Qed.

Lemma shaped_agree t h h' : agree_on t h h' → shaped h t → shaped h' t.
Proof.
  intros [Hc Hs]. apply shaped_frame; [done|].
  intros a Ha. unfold parent_of. by rewrite Hs.
Qed.

Lemma committed_agree t h0 h0' h1 h1' :
  agree_on t h0 h0' → agree_on t h1 h1' →
  committed h0 h1 t → committed h0' h1' t.
Proof.
  induction t as [n ts IH] using tree_ind'. intros Hag0 Hag1 Hc.
  inversion Hc as [n' ts' cur pend Hcur Hpend Hkids Hpos Hsome Hcur' Hsub];
    subst.
  assert (Hn : n ∈ nodes (Tree n ts)) by (simpl; set_solver).
  apply (committed_tree h0' h1' n ts cur pend).
  - eapply agree_on_lists; [done|by left|by left| |done].
    intros k ?. apply Hkids. by left.
  - eapply agree_on_lists; [done|by right|by right| |done].
    intros k ?. apply Hkids. by right.
  - done.
  - unfold current_pos, pending_pos in *.
    by rewrite (proj2 Hag0), (proj2 Hag1).
  - unfold pending_pos in *. by rewrite (proj2 Hag0).
  - eapply agree_on_lists; [done|by left|by left| |done].
    intros k [[_ ?]%list_elem_of_filter|?]%elem_of_app; apply Hkids; auto.
  - rewrite Forall_forall in IH, Hsub |- *. intros t Ht.
    apply IH; [done| | |by apply Hsub]; by eapply agree_on_subtree.
Qed.

(** ** The commit of a tree *)

Lemma node_at_lookup h n nd : node_at h n = Some nd ↔ h !! n = Some (Node nd).
Proof.
  unfold node_at. destruct (h !! n) as [[?|?]|]; split; congruence.
Qed.

Lemma load_node_at h a m :
  m ≠ destroy_listener_list → is_Some (load h (a, m)) → is_Some (node_at h a).
Proof.
  unfold load, node_at. simpl. destruct (h !! a) as [[nd|c]|]; simpl; eauto.
  - destruct m; simpl; try done; by intros ? [? [=]].
  - by intros ? [? [=]].
Qed.


Lemma load_insert_node h n nd nd' c :
  node_at h n = Some nd →
  (∀ m, get_member m (Node nd') = get_member m (Node nd)) →
  load (<[n := Node nd']> h) c = load h c.
Proof.
  intros Hn%node_at_lookup Hm. unfold load.
  destruct (decide (c.1 = n)) as [->|Hne].
  - rewrite lookup_insert_eq, Hn. simpl. apply Hm.
  - by rewrite lookup_insert_ne.
Qed.

Lemma node_scalars_insert h n nd' a :
  node_scalars (<[n := Node nd']> h) a =
  if decide (a = n) then Some (scalars_of nd') else node_scalars h a.
Proof.
  unfold node_scalars, node_at. case_decide as E.
  - subst. by rewrite lookup_insert_eq.
  - by rewrite lookup_insert_ne.
Qed.

Lemma forget_current_eq (s s' : option scalars) :
  forget_current <$> s' = forget_current <$> s →
  s_pending <$> s' = s_pending <$> s ∧ s_parent <$> s' = s_parent <$> s ∧
  s_type <$> s' = s_type <$> s ∧ s_surface <$> s' = s_surface <$> s.
Proof.
  destruct s as [[]|], s' as [[]|]; simpl; try done.
  unfold forget_current. simpl. intros [=]. by subst.
Qed.

Lemma commit_state_effect h n :
  is_Some (node_at h n) →
  ∃ h1, commit_state n h = Ok h1 ∧
    (∀ c, load h1 c = load h c) ∧
    (∀ a, a ≠ n → node_scalars h1 a = node_scalars h a) ∧
    (∀ a, forget_current <$> node_scalars h1 a
          = forget_current <$> node_scalars h a) ∧
    current_pos h1 n = pending_pos h n ∧
    is_Some (pending_pos h n).
Proof.
  intros [nd Hnd]. unfold commit_state. rewrite Hnd. simpl.
  eexists. split; [done|]. split; [|split; [|split; [|split]]].
  - intros c. eapply load_insert_node; [done|]. by intros [].
  - intros a Ha. rewrite node_scalars_insert. by rewrite decide_False.
  - intros a. rewrite node_scalars_insert. case_decide; [|done]. subst.
    unfold node_scalars. rewrite Hnd. done.
  - unfold current_pos, pending_pos. rewrite node_scalars_insert.
    rewrite decide_True by done. unfold node_scalars. rewrite Hnd. done.
  - unfold pending_pos, node_scalars. rewrite Hnd. simpl. eauto.
Qed.

Lemma elem_of_committed_order (cur pend : list addr) k :
  k ∈ committed_order cur pend ↔ k ∈ cur ∨ k ∈ pend.
Proof.
  unfold committed_order. rewrite elem_of_app, list_elem_of_filter.
  destruct (decide (k ∈ pend)); naive_solver.
Qed.

Lemma committed_order_NoDup (cur pend : list addr) :
  NoDup cur → NoDup pend → NoDup (committed_order cur pend).
Proof.
  intros Hc Hp. unfold committed_order. apply NoDup_app.
  split; [by apply NoDup_filter|]. split; [|done].
  intros k [? _]%list_elem_of_filter. done.
Qed.

Lemma links_of_inj m l1 l2 : links_of m l1 = links_of m l2 → l1 = l2.
Proof.
  unfold links_of. revert l2. induction l1 as [|a l1 IH]; intros [|b l2];
    simpl; try done.
  intros [= -> ?]. f_equal. by apply IH.
Qed.

Lemma current_list_functional h n l1 l2 :
  current_list h n l1 → current_list h n l2 → l1 = l2.
Proof. intros H1 H2. eapply links_of_inj, dll_functional; done. Qed.

Lemma pending_list_functional h n l1 l2 :
  pending_list h n l1 → pending_list h n l2 → l1 = l2.
Proof. intros H1 H2. eapply links_of_inj, dll_functional; done. Qed.

Lemma wlr_scene_node_commit_unfold fuel node h :
  wlr_scene_node_commit (S fuel) node h =
  (h ← commit_state node h;
   h ← wl_list_for_each id pending_link (node, pending_children)
         (commit_relink node) fuel h;
   wl_list_for_each id current_link (node, current_children)
     (wlr_scene_node_commit fuel) fuel h).
Proof. reflexivity. Qed.

(** A cell of the parent's lists is no cell that the commit of a child
    writes. *)
Lemma parent_cell_not_committed n ts t' c :
  NoDup (nodes (Tree n ts)) → t' ∈ ts →
  c.1 = n ∨ (∃ t, t ∈ ts ∧ root t = c.1 ∧ c.2 ≠ current_children) →
  c ∉ commit_cells t'.
Proof.
  intros Hnd Ht' Hc Hin.
  apply elem_of_commit_cells in Hin as [Hin Hm];
    [|by eapply NoDup_subtree].
  destruct Hc as [Hc|(t & Ht & Hr & Hcm)].
  - rewrite Hc in Hin. by eapply root_not_in_subtree.
  - destruct Hm as [?|[_ Hne]]; [done|].
    destruct (decide (root t = root t')) as [E|E]; [congruence|].
    eapply (nodes_disjoint_roots n ts t t'); [done..| |done].
    rewrite <- Hr. apply root_in_nodes.
Qed.

Lemma child_agree_outside n ts t' h h' :
  NoDup (nodes (Tree n ts)) → t' ∈ ts →
  (∀ c, c.1 = root t' → c.2 = current_children ∨ c.2 = pending_children →
        load h' c = load h c) →
  (∀ c, c.1 ∈ nodes t' → c.1 ≠ root t' → load h' c = load h c) →
  (∀ a, a ∈ nodes t' → node_scalars h' a = node_scalars h a) →
  agree_on t' h h'.
Proof.
  intros Hnd Ht' H1 H2 H3. split; [|done].
  intros c Hc. pose proof (elem_of_inner_cells _ _ Hc) as Hn.
  destruct (decide (c.1 = root t')) as [E|E]; [|by apply H2].
  apply H1; [done|]. destruct c as [a m]. simpl in *. subst a.
  apply inner_cells_root in Hc; [done|by eapply NoDup_subtree].
Qed.

Lemma commit_correct fuel :
  ∀ t h, shaped h t → NoDup (nodes t) → size t < fuel →
  ∀ cur pend, current_list h (root t) cur → pending_list h (root t) pend →
  ∃ h2 h',
    wlr_scene_node_commit fuel (root t) h = Ok h' ∧
    current_pos h2 (root t) = pending_pos h (root t) ∧
    current_list h2 (root t) (committed_order cur pend) ∧
    each (wlr_scene_node_commit (pred fuel)) (committed_order cur pend) h2
      = Ok h' ∧
    shaped h' t ∧ commit_frame h h' t ∧ committed h h' t.
Proof.
  induction fuel as [|fuel IH]; intros t h Hsh Hnd Hsz cur0 pend0 Hcur0 Hpend0;
    [lia|].
  destruct t as [n ts]. simpl root in *. simpl pred.
  inversion Hsh as [n' ts' cur pend Hcur Hpend Hkids Hsc Hsp Hpar Hsub];
    subst n' ts'.
  pose proof (current_list_functional _ _ _ _ Hcur0 Hcur) as ->.
  pose proof (pending_list_functional _ _ _ _ Hpend0 Hpend) as ->.
  clear Hcur0 Hpend0.
  pose proof (dll_NoDup _ _ _ _ Hcur) as Hndc.
  pose proof (dll_NoDup _ _ _ _ Hpend) as Hndp.
  pose proof (size_subtrees n ts) as Hszts.
  assert (Hlenp : length pend < fuel).
  { pose proof (length_children pend ts Hndp) as Hl.
    assert (length pend ≤ length ts) by (apply Hl; intros; apply Hkids; auto).
    lia. }
  rewrite wlr_scene_node_commit_unfold.
  destruct (commit_state_effect h n) as (h1 & -> & L1 & S1 & SF1 & P1 & PS1).
  { eapply (load_node_at _ _ current_children); [done|].
    eapply dll_alloc; [apply Hcur|]. set_solver. }
  simpl.
  destruct (commit_relink_loop h1 n cur pend fuel)
    as (h2 & -> & _ & Hcur2 & F2 & S2).
  { eapply dll_frame; [|exact Hcur]. intros; apply L1. }
  { eapply dll_frame; [|exact Hpend]. intros; apply L1. }
  { intros k Hkp Hkc. eapply dll_frame; [|apply Hsc; [apply Hkids; by right|done]].
    intros; apply L1. }
  { done. }
  simpl. set (cur' := committed_order cur pend) in *.
  assert (Hroots : ∀ k, k ∈ cur' ↔ k ∈ root <$> ts).
  { intros k. unfold cur'. rewrite elem_of_committed_order. symmetry.
    apply Hkids. }
  assert (Hndc' : NoDup cur') by by apply committed_order_NoDup.
  assert (Hag : ∀ t', t' ∈ ts → agree_on t' h h2).
  { intros t' Ht'. apply (child_agree_outside n ts); [done..| | |].
    - intros c Hc1 Hc2. rewrite F2, L1; [done|].
      rewrite elem_of_cons, elem_of_links_of'. intros [-> | [Hm Hk]].
      + simpl in Hc1. eapply (root_not_in_subtree n ts); [done..|].
        rewrite Hc1. apply root_in_nodes.
      + rewrite Hm in Hc2. by destruct Hc2.
    - intros c Hc1 Hc2. rewrite F2, L1; [done|].
      rewrite elem_of_cons, elem_of_links_of'. intros [-> | [Hm Hk]].
      + simpl in Hc1. by eapply root_not_in_subtree.
      + apply elem_of_app, Hkids, elem_of_roots in Hk as (tk & Htk & Hr).
        eapply (nodes_disjoint_roots n ts tk t'); [done..| | |done].
        * congruence.
        * rewrite <- Hr. apply root_in_nodes.
    - intros a Ha. rewrite S2, S1; [done|]. intros ->.
      by eapply root_not_in_subtree. }
  set (Inv := λ (rem : list addr) (hi : heap),
    ∃ done, cur' = done ++ rem ∧
      (∀ c, (∀ t', t' ∈ ts → root t' ∈ done → c ∉ commit_cells t') →
            load hi c = load h2 c) ∧
      (∀ a, (∀ t', t' ∈ ts → root t' ∈ done → a ∉ nodes t') →
            node_scalars hi a = node_scalars h2 a) ∧
      (∀ a, forget_current <$> node_scalars hi a
            = forget_current <$> node_scalars h2 a) ∧
      (∀ t', t' ∈ ts → root t' ∈ done → shaped hi t' ∧ committed h2 hi t')).
  destruct (wl_list_for_each_rule id current_link (n, current_children)
              (wlr_scene_node_commit fuel) Inv) with
    (fuel := fuel) (ks := cur') (s := h2)
    as (h' & -> & Heach & done & Hdone & Fc & Fs & Ff & Hts).
  - (* one round of the second loop *)
    intros k rem hi (done & Hsplit & Fc & Fs & Ff & Hts). split; [done|].
    assert (Hk : k ∈ cur') by (rewrite Hsplit; set_solver).
    apply Hroots, elem_of_roots in Hk as (tk & Htk & Hrk).
    pose proof (NoDup_subtree _ _ _ Hnd Htk) as Hndk.
    assert (Hkd : k ∉ done).
    { rewrite Hsplit in Hndc'. apply NoDup_app in Hndc' as (_ & Hd & _).
      intros ?. eapply Hd; [done|set_solver]. }
    assert (Hagk : agree_on tk h2 hi).
    { split.
      - intros c Hc. apply Fc. intros t' Ht' Hd Hin.
        apply elem_of_commit_cells in Hin as [Hin _];
          [|by eapply NoDup_subtree].
        apply elem_of_inner_cells in Hc.
        eapply (nodes_disjoint_roots n ts tk t'); [done..| |done|done].
        congruence.
      - intros a Ha. apply Fs. intros t' Ht' Hd.
        eapply (nodes_disjoint_roots n ts tk t'); [done..| |done]. congruence. }
    assert (Hshk : shaped hi tk).
    { eapply shaped_agree; [exact Hagk|]. eapply shaped_agree; [by apply Hag|].
      rewrite Forall_forall in Hsub. by apply Hsub. }
    inversion Hshk as [nk tsk curk pendk Hcurk Hpendk _ _ _ _ _]. subst tk.
    simpl in Hrk. subst nk.
    destruct (IH (Tree k tsk) hi Hshk Hndk) with (cur := curk) (pend := pendk)
      as (_ & hj & Hj & _ & _ & _ & Hshj & (Fcj & Fsj & Ffj) & Hcj);
      [|done|done|].
    { pose proof (size_subtree n ts _ Htk). lia. }
    simpl in Hj. exists hj. split; [done|]. split.
    + (* the link of [k] is as the first loop left it *)
      simpl. unfold load_next. rewrite Fcj, Fc.
      * eapply (dll_next_elem h2 _ current_link done k rem).
        rewrite <- Hsplit. apply Hcur2.
      * intros t' Ht' Hd. eapply (parent_cell_not_committed n ts); [done..|].
        right. exists (Tree k tsk). simpl. by repeat split.
      * eapply (parent_cell_not_committed n ts); [done..|].
        right. exists (Tree k tsk). simpl. by repeat split.
    + exists (done ++ [k]). rewrite <- app_assoc. split; [done|].
      split; [|split; [|split]].
      * intros c Hc. rewrite Fcj, Fc; [done| |].
        -- intros t' Ht' Hd. apply Hc; [done|set_solver].
        -- apply (Hc _ Htk). simpl. set_solver.
      * intros a Ha. rewrite Fsj, Fs; [done| |].
        -- intros t' Ht' Hd. apply Ha; [done|set_solver].
        -- apply (Ha _ Htk). simpl. set_solver.
      * intros a. by rewrite Ffj, Ff.
      * intros t' Ht' [Hd|Hd%list_elem_of_singleton]%elem_of_app.
        -- destruct (Hts t' Ht' Hd) as [Hsh' Hc'].
           assert (agree_on t' hi hj).
           { split.
             - intros c Hc. apply Fcj. intros Hin.
               apply elem_of_commit_cells in Hin as [Hin _]; [|done].
               apply elem_of_inner_cells in Hc.
               eapply (nodes_disjoint_roots n ts t' (Tree k tsk));
                 [done..| |done|done].
               simpl. intros E. by rewrite E in Hd.
             - intros a Ha. apply Fsj. intros Hin.
               eapply (nodes_disjoint_roots n ts t' (Tree k tsk));
                 [done..| |done|done].
               simpl. intros E. by rewrite E in Hd. }
           split; [by eapply shaped_agree|].
           eapply committed_agree; [|done|done]. by split.
        -- pose proof (roots_NoDup_eq _ _ _ _ Hnd Ht' Htk Hd) as ->.
           split; [done|].
           eapply committed_agree; [|split; done|done].
           by apply agree_on_sym.
  - exists []. split; [done|]. split; [done|]. split; [done|].
    split; [done|]. intros ?? ?%elem_of_nil. done.
  - pose proof (length_children cur' ts Hndc') as Hl.
    assert (length cur' ≤ length ts) by (apply Hl; intros; by apply Hroots).
    lia.
  - by apply dll_next_head.
  - (* after the loop *)
    rewrite app_nil_r in Hdone. subst done.
    assert (Hall : ∀ t', t' ∈ ts → root t' ∈ cur').
    { intros t' Ht'. apply Hroots, elem_of_roots. eauto. }
    assert (Hcur' : current_list h' n cur').
    { eapply dll_frame; [|exact Hcur2]. intros c Hc. apply Fc.
      intros t' Ht' _. eapply (parent_cell_not_committed n ts); [done..|].
      rewrite elem_of_cons, elem_of_links_of' in Hc.
      destruct Hc as [->|[Hm Hc]]; [by left|right].
      apply Hroots, elem_of_roots in Hc as (tk & Htk & Hrk).
      exists tk. rewrite Hm. done. }
    assert (Hpl : ∀ c, c.2 ≠ current_children → c.2 ≠ current_link →
                       load h' c = load h c).
    { intros c Hc1 Hc2. rewrite Fc, F2, L1; [done| |].
      - rewrite elem_of_cons, elem_of_links_of'. intros [->|[? _]]; done.
      - intros t' Ht' _ Hin.
        apply elem_of_commit_cells in Hin as [_ [?|[? _]]];
          [done|done|by eapply NoDup_subtree]. }
    assert (Hff : ∀ a, forget_current <$> node_scalars h' a
                       = forget_current <$> node_scalars h a).
    { intros a. by rewrite Ff, S2, SF1. }
    exists h2, h'. split; [done|].
    split; [unfold current_pos; rewrite S2; exact P1|].
    split; [done|]. split; [done|]. split; [|split].
    + apply (shaped_tree h' n ts cur' pend).
      * done.
      * eapply dll_frame; [|exact Hpend]. intros c Hc. apply Hpl.
        -- rewrite elem_of_cons, elem_of_links_of' in Hc.
           destruct Hc as [->|[-> _]]; done.
        -- rewrite elem_of_cons, elem_of_links_of' in Hc.
           destruct Hc as [->|[-> _]]; done.
      * intros k. rewrite Hroots. set_solver.
      * intros k Hk Hkc. by apply Hroots in Hk.
      * intros k Hk Hkp. eapply dll_frame; [|by apply Hsp].
        intros c ->%list_elem_of_singleton. by apply Hpl.
      * intros k Hk. unfold parent_of.
        destruct (forget_current_eq _ _ (Hff k)) as (_ & -> & _).
        by apply Hpar.
      * rewrite Forall_forall. intros t' Ht'. by apply Hts; [|apply Hall].
    + split; [|split; [|done]].
      * intros c Hc. rewrite Fc, F2, L1; [done| |].
        -- rewrite elem_of_cons, elem_of_links_of'.
           intros [->|[Hm Hk]]; apply Hc; [simpl; set_solver|].
           apply elem_of_app, Hkids, elem_of_roots in Hk as (tk & Htk & Hrk).
           destruct c as [a m]. simpl in *. subst.
           by apply commit_cells_child.
        -- intros t' Ht' _ Hin. apply Hc. by eapply commit_cells_subtree.
      * intros a Ha. rewrite Fs, S2, S1; [done| |].
        -- intros ->. apply Ha. simpl. set_solver.
        -- intros t' Ht' _ Hin. apply Ha. by eapply nodes_subtree.
    + apply (committed_tree h h' n ts cur pend); try done.
      * unfold current_pos. rewrite Fs, S2; [done|].
        intros t' Ht' _. by eapply root_not_in_subtree.
      * rewrite Forall_forall. intros t' Ht'.
        destruct (Hts t' Ht' (Hall _ Ht')) as [Hsh' Hc'].
        eapply committed_agree; [| |exact Hc']; [|by split].
        apply agree_on_sym. by apply Hag.
Qed.

(** *** Consequences for every node of the tree *)

Lemma committed_node h h' t m :
  committed h h' t → m ∈ nodes t →
  ∃ cur pend, current_list h m cur ∧ pending_list h m pend ∧
    current_pos h' m = pending_pos h m ∧ is_Some (pending_pos h m) ∧
    current_list h' m (committed_order cur pend).
Proof.
  induction t as [n ts IH] using tree_ind'. intros Hc Hm.
  inversion Hc as [n' ts' cur pend Hcur Hpend Hkids Hpos Hsome Hcur' Hsub];
    subst.
  simpl in Hm. apply elem_of_cons in Hm as [->|Hm]; [by exists cur, pend|].
  apply elem_of_concat_map in Hm as (t & Ht & Hm).
  rewrite Forall_forall in IH, Hsub. by apply (IH t Ht); [apply Hsub|].
Qed.

Lemma shaped_node h t m :
  shaped h t → m ∈ nodes t →
  ∃ cur pend, current_list h m cur ∧ pending_list h m pend.
Proof.
  induction t as [n ts IH] using tree_ind'. intros Hs Hm.
  inversion Hs as [n' ts' cur pend Hcur Hpend _ _ _ _ Hsub]; subst.
  simpl in Hm. apply elem_of_cons in Hm as [->|Hm]; [by exists cur, pend|].
  apply elem_of_concat_map in Hm as (t & Ht & Hm).
  rewrite Forall_forall in IH, Hsub. by apply (IH t Ht); [apply Hsub|].
Qed.

Lemma shaped_node_at h t m : shaped h t → m ∈ nodes t → is_Some (node_at h m).
Proof.
  intros Hs Hm. destruct (shaped_node _ _ _ Hs Hm) as (cur & _ & Hcur & _).
  eapply (load_node_at _ _ current_children); [done|].
  eapply dll_alloc; [apply Hcur|]. set_solver.
Qed.

Lemma pending_cell_not_committed t c :
  NoDup (nodes t) → c.2 ≠ current_children → c.2 ≠ current_link →
  c ∉ commit_cells t.
Proof.
  intros Hnd H1 H2 Hin.
  apply elem_of_commit_cells in Hin as [_ [?|[? _]]]; done.
Qed.

Lemma filter_not_in_self (l : list addr) : filter (λ j, j ∉ l) l = [].
Proof.
  assert (∀ l' : list addr, (∀ k, k ∈ l' → k ∈ l) → filter (λ j, j ∉ l) l' = [])
    as Hgen; [|by apply Hgen].
  induction l' as [|a l' IH]; intros Hsub; [done|].
  rewrite filter_cons_False by (intros Hn; apply Hn, Hsub; set_solver).
  apply IH. intros k ?. apply Hsub. set_solver.
Qed.

Lemma committed_order_idem (cur pend : list addr) :
  committed_order (committed_order cur pend) pend = committed_order cur pend.
Proof.
  unfold committed_order. rewrite filter_app, filter_not_in_self, app_nil_r.
  by rewrite list_filter_filter_l.
Qed.

Lemma commit_frame_pending h h' t :
  NoDup (nodes t) → commit_frame h h' t →
  (∀ a, pending_pos h' a = pending_pos h a) ∧
  (∀ a, load h' (a, pending_children) = load h (a, pending_children)) ∧
  (∀ a, load h' (a, pending_link) = load h (a, pending_link)).
Proof.
  intros Hnd (Fc & _ & Ff). split; [|split].
  - intros a. unfold pending_pos. by destruct (forget_current_eq _ _ (Ff a)) as [-> _].
  - intros a. apply Fc. by apply pending_cell_not_committed.
  - intros a. apply Fc. by apply pending_cell_not_committed.
Qed.

Lemma pending_list_frame h h' n ks :
  (∀ a, load h' (a, pending_children) = load h (a, pending_children)) →
  (∀ a, load h' (a, pending_link) = load h (a, pending_link)) →
  pending_list h n ks → pending_list h' n ks.
Proof.
  intros H1 H2. apply dll_frame. intros c.
  rewrite elem_of_cons, elem_of_links_of'. destruct c as [a m]. simpl.
  intros [[= -> ->]|[-> _]]; [apply H1|apply H2].
Qed.

(** ** Reordering the pending children *)

Lemma insert_after_split (a b : addr) (m1 m2 : list addr) :
  b ∉ m1 → insert_after b a (m1 ++ b :: m2) = m1 ++ b :: a :: m2.
Proof.
  induction m1 as [|c m1 IH]; simpl; intros Hb.
  - by rewrite decide_True.
  - rewrite decide_False by set_solver. f_equal. apply IH. set_solver.
Qed.

Lemma insert_before_split (a b : addr) (m1 m2 : list addr) :
  b ∉ m1 → insert_before b a (m1 ++ b :: m2) = m1 ++ a :: b :: m2.
Proof.
  induction m1 as [|c m1 IH]; simpl; intros Hb.
  - by rewrite decide_True.
  - rewrite decide_False by set_solver. f_equal. apply IH. set_solver.
Qed.

Lemma filter_ne_split (a : addr) (l1 l2 : list addr) :
  NoDup (l1 ++ a :: l2) → filter (λ j, j ≠ a) (l1 ++ a :: l2) = l1 ++ l2.
Proof.
  intros Hnd. apply NoDup_app in Hnd as (_ & H1 & [H2 _]%NoDup_cons).
  rewrite filter_app, filter_cons_False by (intros ?; done).
  rewrite !filter_ne_notin; [done|done|]. intros ?. eapply H1; [done|set_solver].
Qed.

(** The list part of the two calls: take [a] out, find [b] in the rest. *)
Lemma place_split h p pend a b :
  pending_list h p pend → a ∈ pend → b ∈ pend → a ≠ b →
  ∃ h1 m1 m2,
    wl_list_remove (Some (a, pending_link)) h = Some h1 ∧
    filter (λ j, j ≠ a) pend = m1 ++ b :: m2 ∧ (b ∉ m1) ∧
    (a ∉ m1 ++ b :: m2) ∧
    pending_list h1 p (m1 ++ b :: m2) ∧
    is_Some (load h1 (a, pending_link)) ∧
    (∀ c, c ∉ (p, pending_children) :: links_of pending_link pend →
          load h1 c = load h c) ∧
    (∀ n, node_scalars h1 n = node_scalars h n).
Proof.
  intros Hpend Ha Hb Hab. unfold pending_list in *.
  pose proof (dll_NoDup _ _ _ _ Hpend) as Hnd.
  apply list_elem_of_split in Ha as (l1 & l2 & ->).
  rewrite links_of_app in Hpend. simpl in Hpend.
  destruct (dll_remove _ _ _ _ _ Hpend) as (h1 & Hrm & Hd1 & Ha' & F1 & S1).
  rewrite <- links_of_app in Hd1.
  assert (Hb' : b ∈ l1 ++ l2) by set_solver.
  apply list_elem_of_split in Hb' as (m1 & m2 & Hm).
  pose proof (filter_ne_split a l1 l2 Hnd) as Hf.
  apply NoDup_app in Hnd as (Hn1 & Hn12 & [Hn2 Hn3]%NoDup_cons).
  assert (Hnd' : NoDup (m1 ++ b :: m2)).
  { rewrite <- Hm. apply NoDup_app. split; [done|]. split; [|done].
    intros k ??. eapply Hn12; [done|set_solver]. }
  exists h1, m1, m2. split_and!.
  - done.
  - by rewrite Hf.
  - apply NoDup_app in Hnd' as (_ & H & _). intros ?. eapply H; [done|set_solver].
  - rewrite <- Hm. intros [?|?]%elem_of_app; [|done].
    eapply Hn12; [done|set_solver].
  - by rewrite <- Hm.
  - by rewrite Ha'.
  - intros c Hc. apply F1.
    + rewrite links_of_app in Hc. simpl in Hc. rewrite <- links_of_app.
      rewrite links_of_app. set_solver.
    + intros ->. apply Hc. rewrite links_of_app. simpl. set_solver.
  - done.
Qed.

Lemma place_asserts h a b :
  is_Some (load h (a, pending_link)) → is_Some (load h (b, pending_link)) →
  parent_of h a = parent_of h b →
  ∃ n s, node_at h a = Some n ∧ node_at h b = Some s ∧
    bool_decide (parent n = parent s) = true.
Proof.
  intros [n Hn]%(load_node_at _ _ pending_link)
         [s Hs]%(load_node_at _ _ pending_link) Hp; [|done..].
  exists n, s. split; [done|]. split; [done|]. apply bool_decide_eq_true.
  unfold parent_of, node_scalars in Hp. rewrite Hn, Hs in Hp. simpl in Hp.
  congruence.
Qed.

Lemma place_above_list h p pend a b :
  pending_list h p pend → a ∈ pend → b ∈ pend → a ≠ b →
  parent_of h a = parent_of h b →
  ∃ h' l1 l2,
    wlr_scene_node_place_above a b h = Ok h' ∧
    pending_list h' p (placed_above a b pend) ∧
    placed_above a b pend = l1 ++ b :: a :: l2 ∧
    filter (λ j, j ≠ a) pend = l1 ++ b :: l2 ∧
    (∀ c, c ∉ (p, pending_children) :: links_of pending_link pend →
          load h' c = load h c) ∧
    (∀ n, node_scalars h' n = node_scalars h n).
Proof.
  intros Hpend Ha Hb Hab Hpar.
  destruct (place_asserts h a b) as (n & s & Hn & Hs & Hassert); [| |done|].
  { eapply dll_alloc; [apply Hpend|].
    rewrite elem_of_cons, elem_of_links_of. auto. }
  { eapply dll_alloc; [apply Hpend|].
    rewrite elem_of_cons, elem_of_links_of. auto. }
  destruct (place_split h p pend a b Hpend Ha Hb Hab)
    as (h1 & m1 & m2 & Hrm & Hf & Hbm & Ham & Hd1 & Aa & F1 & S1).
  unfold pending_list in Hd1. rewrite links_of_app in Hd1. simpl in Hd1.
  destruct (dll_insert_after h1 _ _ _ _ (a, pending_link) Hd1)
    as (h2 & Hins & Hd2 & F2 & S2); [|done|].
  { change ((b, pending_link) :: links_of pending_link m2)
      with (links_of pending_link (b :: m2)).
    rewrite <- links_of_app, elem_of_cons, elem_of_links_of. naive_solver. }
  exists h2, m1, m2. unfold wlr_scene_node_place_above.
  rewrite Hn, Hs. simpl. rewrite Hassert. simpl. rewrite Hrm. simpl.
  rewrite Hins. simpl.
  assert (Hpl : placed_above a b pend = m1 ++ b :: a :: m2).
  { unfold placed_above. rewrite Hf. by apply insert_after_split. }
  split_and!; try done.
  - unfold pending_list. rewrite Hpl, links_of_app. done.
  - intros c Hc. rewrite F2, F1; [done|done| |].
    + change ((b, pending_link) :: links_of pending_link m2)
        with (links_of pending_link (b :: m2)).
      rewrite <- links_of_app, <- Hf.
      rewrite elem_of_cons, elem_of_links_of', list_elem_of_filter.
      rewrite elem_of_cons, elem_of_links_of' in Hc. naive_solver.
    + intros ->. apply Hc. rewrite elem_of_cons, elem_of_links_of. auto.
  - intros k. by rewrite S2, S1.
Qed.

Lemma place_below_list h p pend a b :
  pending_list h p pend → a ∈ pend → b ∈ pend → a ≠ b →
  parent_of h a = parent_of h b →
  ∃ h' l1 l2,
    wlr_scene_node_place_below a b h = Ok h' ∧
    pending_list h' p (placed_below a b pend) ∧
    placed_below a b pend = l1 ++ a :: b :: l2 ∧
    filter (λ j, j ≠ a) pend = l1 ++ b :: l2 ∧
    (∀ c, c ∉ (p, pending_children) :: links_of pending_link pend →
          load h' c = load h c) ∧
    (∀ n, node_scalars h' n = node_scalars h n).
Proof.
  intros Hpend Ha Hb Hab Hpar.
  destruct (place_asserts h a b) as (n & s & Hn & Hs & Hassert); [| |done|].
  { eapply dll_alloc; [apply Hpend|].
    rewrite elem_of_cons, elem_of_links_of. auto. }
  { eapply dll_alloc; [apply Hpend|].
    rewrite elem_of_cons, elem_of_links_of. auto. }
  destruct (place_split h p pend a b Hpend Ha Hb Hab)
    as (h1 & m1 & m2 & Hrm & Hf & Hbm & Ham & Hd1 & Aa & F1 & S1).
  unfold pending_list in Hd1. rewrite links_of_app in Hd1. simpl in Hd1.
  destruct (dll_insert_before h1 _ _ _ _ (a, pending_link) Hd1)
    as (t & h2 & Ht & Hins & Hd2 & F2 & S2); [|done|].
  { change ((b, pending_link) :: links_of pending_link m2)
      with (links_of pending_link (b :: m2)).
    rewrite <- links_of_app, elem_of_cons, elem_of_links_of. naive_solver. }
  exists h2, m1, m2. unfold wlr_scene_node_place_below.
  rewrite Hn, Hs. simpl. rewrite Hassert. simpl. rewrite Hrm. simpl.
  rewrite Ht. simpl. rewrite Hins. simpl.
  assert (Hpl : placed_below a b pend = m1 ++ a :: b :: m2).
  { unfold placed_below. rewrite Hf. by apply insert_before_split. }
  split_and!; try done.
  - unfold pending_list. rewrite Hpl, links_of_app. done.
  - intros c Hc. rewrite F2, F1; [done|done| |].
    + change ((b, pending_link) :: links_of pending_link m2)
        with (links_of pending_link (b :: m2)).
      rewrite <- links_of_app, <- Hf.
      rewrite elem_of_cons, elem_of_links_of', list_elem_of_filter.
      rewrite elem_of_cons, elem_of_links_of' in Hc. naive_solver.
    + intros ->. apply Hc. rewrite elem_of_cons, elem_of_links_of. auto.
  - intros k. by rewrite S2, S1.
Qed.

(** A failed assertion when the parents differ. *)
Lemma place_parent_mismatch h a b n s :
  node_at h a = Some n → node_at h b = Some s → parent n ≠ parent s →
  wlr_scene_node_place_above a b h = Fail assertion_failure ∧
  wlr_scene_node_place_below a b h = Fail assertion_failure.
Proof.
  intros Hn Hs Hp.
  unfold wlr_scene_node_place_above, wlr_scene_node_place_below.
  rewrite Hn, Hs. simpl. by rewrite bool_decide_eq_false_2.
Qed.

(** Another order of the same pending children leaves the tree in place. *)
Lemma shaped_reordered h h' p ts pend pend' :
  shaped h (Tree p ts) → NoDup (nodes (Tree p ts)) →
  pending_list h p pend → pending_list h' p pend' →
  (∀ k, k ∈ pend' ↔ k ∈ pend) →
  (∀ c, c ∉ (p, pending_children) :: links_of pending_link pend →
        load h' c = load h c) →
  (∀ n, node_scalars h' n = node_scalars h n) →
  shaped h' (Tree p ts).
Proof.
  intros Hsh Hnd Hpend Hpend' Hsame F S.
  inversion Hsh as [n' ts' cur pend0 Hcur Hpend0 Hkids Hsc Hsp Hpar Hsub];
    subst.
  pose proof (pending_list_functional _ _ _ _ Hpend0 Hpend) as ->.
  apply (shaped_tree h' p ts cur pend').
  - eapply dll_frame; [|exact Hcur]. intros c Hc. apply F.
    rewrite elem_of_cons, elem_of_links_of' in Hc |- *.
    intros [->|[Hm _]]; destruct Hc as [?|[Hm' _]]; subst; simpl in *;
      congruence.
  - done.
  - intros k. rewrite Hsame. apply Hkids.
  - intros k Hk Hkc. eapply dll_frame; [|by apply Hsc].
    intros c ->%list_elem_of_singleton. apply F.
    rewrite elem_of_cons, elem_of_links_of. intros [?|[? _]]; congruence.
  - intros k Hk Hkp. eapply dll_frame; [|apply Hsp; [done|by rewrite <- Hsame]].
    intros c ->%list_elem_of_singleton. apply F.
    rewrite elem_of_cons, elem_of_links_of. rewrite <- Hsame.
    intros [?|[_ ?]]; [congruence|done].
  - intros k Hk. unfold parent_of. rewrite S. by apply Hpar.
  - rewrite Forall_forall in Hsub |- *. intros t' Ht'.
    eapply shaped_agree; [|by apply Hsub].
    apply (child_agree_outside p ts); [done..| | |by intros].
    + intros c Hc1 Hc2. apply F.
      rewrite elem_of_cons, elem_of_links_of'. intros [->|[Hm Hk]].
      * simpl in Hc1. eapply (root_not_in_subtree p ts); [done..|].
        rewrite Hc1. apply root_in_nodes.
      * rewrite Hm in Hc2. by destruct Hc2.
    + intros c Hc1 Hc2. apply F.
      rewrite elem_of_cons, elem_of_links_of'. intros [->|[Hm Hk]].
      * simpl in Hc1. by eapply root_not_in_subtree.
      * assert (Hk' : c.1 ∈ root <$> ts) by (apply Hkids; by right).
        apply elem_of_roots in Hk' as (tk & Htk & Hr).
        eapply (nodes_disjoint_roots p ts tk t'); [done..| | |done].
        -- congruence.
        -- rewrite <- Hr. apply root_in_nodes.
Qed.








(** ** The traversal *)

Lemma each_const h m head {St} (body : addr → St → result St) ks :
  ∀ fuel pre s,
  dll h head (links_of m (pre ++ ks)) → head.2 ≠ m → length ks < fuel →
  for_each_from (λ _, h) m head body fuel (start m head ks) s
  = each body ks s.
Proof.
  induction ks as [|k ks IH]; intros fuel pre s Hd Hm Hlen;
    (destruct fuel as [|fuel]; [simpl in Hlen; lia|]); simpl.
  - by rewrite decide_True.
  - rewrite (decide_False (P := Some (k, m) = Some head)).
    2:{ intros [= E]. by rewrite <- E in Hm. }
    unfold wl_container_of. simpl. rewrite decide_True by done. simpl.
    destruct (body k s) as [s'|f]; [|done]. simpl.
    rewrite (dll_next_elem h head m pre k ks Hd). simpl.
    apply (IH fuel (pre ++ [k])); [by rewrite <- app_assoc|done|].
    simpl in Hlen. lia.
Qed.

Lemma wl_list_for_each_const h m head {St} (body : addr → St → result St)
    ks fuel s :
  dll h head (links_of m ks) → head.2 ≠ m → length ks < fuel →
  wl_list_for_each (λ _, h) m head body fuel s = each body ks s.
Proof.
  intros Hd Hm Hlen. unfold wl_list_for_each.
  rewrite (dll_next_head _ _ _ _ Hd). simpl. by apply (each_const h m head body ks fuel []).
Qed.

Section traversal_proofs.
Context `{collaborators}.
Context {D : Type}.
Variable user_iterator : addr → Z → Z → D → result D.

Lemma for_each_drawable_app l1 l2 (d : D) :
  for_each_drawable user_iterator (l1 ++ l2) d
  = (d' ← for_each_drawable user_iterator l1 d;
     for_each_drawable user_iterator l2 d').
Proof.
  revert d. induction l1 as [|[[s sx] sy] l1 IH]; intros d; simpl; [done|].
  destruct (user_iterator s sx sy d); simpl; [apply IH|done].
Qed.

Lemma to_int_fits z : in_int z = true → to_int z = Ok z.
Proof. unfold to_int. by intros ->. Qed.

Lemma surface_iterator_fits lx ly s sx sy (d : D) :
  in_int (lx + sx) = true → in_int (ly + sy) = true →
  surface_iterator user_iterator lx ly s sx sy d
  = user_iterator s (lx + sx)%Z (ly + sy)%Z d.
Proof.
  intros Hx Hy. unfold surface_iterator, int_add. by rewrite !to_int_fits.
Qed.

Lemma surface_iterator_shift lx ly ds (d : D) :
  forallb (λ v, in_int (lx + v.1.2) && in_int (ly + v.2)) ds = true →
  for_each_drawable (surface_iterator user_iterator lx ly) ds d
  = for_each_drawable user_iterator
      ((λ v, (v.1.1, lx + v.1.2, ly + v.2)%Z) <$> ds) d.
Proof.
  revert d. induction ds as [|[[s sx] sy] ds IH]; intros d Hf; [done|].
  cbn [forallb] in Hf.
  apply andb_true_iff in Hf as [[Hx Hy]%andb_true_iff Hds].
  rewrite fmap_cons. cbn [for_each_drawable].
  rewrite surface_iterator_fits by done. cbn [fst snd].
  destruct (user_iterator s (lx + sx)%Z (ly + sy)%Z d); simpl;
    [by apply IH|done].
Qed.

Lemma each_kids (body : addr → D → result D) (f : ctree → list (addr * Z * Z))
    kids (d : D) :
  Forall (λ t, ∀ d, body (croot t) d = for_each_drawable user_iterator (f t) d)
         kids →
  each body (croot <$> kids) d
  = for_each_drawable user_iterator (concat (map f kids)) d.
Proof.
  intros Hk. revert d. induction Hk as [|t kids Ht Hk IH]; intros d; simpl;
    [done|].
  rewrite for_each_drawable_app, Ht.
  destruct (for_each_drawable user_iterator (f t) d); simpl; [apply IH|done].
Qed.
End traversal_proofs.

Lemma sum_list_Z_snoc l z : sum_list_Z (l ++ [z]) = (sum_list_Z l + z)%Z.
Proof. unfold sum_list_Z. induction l as [|a l IH]; simpl; lia. Qed.

Lemma fmap_concat_map {A B C} (g : B → C) (f : A → list B) (l : list A) :
  g <$> concat (map f l) = concat (map (λ a, g <$> f a) l).
Proof.
  induction l as [|a l IH]; simpl; [done|]. by rewrite fmap_app, IH.
Qed.

Lemma csize_kids n pos ds kids : length kids < csize (CTree n pos ds kids).
Proof.
  unfold csize. simpl. apply Nat.lt_succ_r. apply length_concat_map_ge.
  intros [????] _. simpl. lia.
Qed.

Lemma csize_kid n pos ds kids t :
  t ∈ kids → csize t < csize (CTree n pos ds kids).
Proof.
  intros (l1 & l2 & ->)%list_elem_of_split. unfold csize. simpl.
  rewrite map_app, concat_app. simpl. rewrite !length_app. lia.
Qed.

Lemma scene_node_for_each_surface_unfold `{collaborators} {D} fuel h node
    lx ly (user_iterator : addr → Z → Z → D → result D) user_data :
  scene_node_for_each_surface (S fuel) h node lx ly user_iterator user_data =
  (n ← must (node_at h node);
   lx ← int_add lx (x (current n));
   ly ← int_add ly (y (current n));
   user_data ←
     match type n with
     | WLR_SCENE_NODE_SURFACE =>
         s ← must (surface n);
         wlr_surface_for_each_surface s
           (surface_iterator user_iterator lx ly) user_data
     | WLR_SCENE_NODE_ROOT => Ok user_data
     end;
   wl_list_for_each (λ _, h) current_link (node, current_children)
     (λ child d,
        scene_node_for_each_surface fuel h child lx ly user_iterator d)
     fuel user_data).
Proof. reflexivity. Qed.

Lemma traversal_correct `{collaborators} {D}
    (user_iterator : addr → Z → Z → D → result D) (h : heap) (ox oy : Z)
    (fuel : nat) :
  ∀ t anc d,
  viewed h t → csize t < fuel →
  fits (ox + sum_list_Z (fst <$> anc)) (oy + sum_list_Z (snd <$> anc)) t
    = true →
  scene_node_for_each_surface fuel h (croot t)
    (ox + sum_list_Z (fst <$> anc)) (oy + sum_list_Z (snd <$> anc))
    user_iterator d
  = for_each_drawable user_iterator
      (absolute (ox, oy) <$> drawables_of anc t) d.
Proof.
  induction fuel as [|fuel IH]; intros t anc d Hv Hsz Hfits; [lia|].
  inversion Hv as [n nd ds kids Hnd Hds Hcur Hkids]; subst t.
  set (pos := (x (current nd), y (current nd))) in *.
  simpl croot. rewrite scene_node_for_each_surface_unfold.
  rewrite Hnd. simpl must. cbn [mbind result_bind].
  simpl in Hfits.
  apply andb_true_iff in Hfits as [Hfits Hfk].
  apply andb_true_iff in Hfits as [Hfits Hfd].
  apply andb_true_iff in Hfits as [Hfx Hfy].
  unfold int_add. rewrite !to_int_fits by done. cbn [mbind result_bind].
  set (lx := (ox + sum_list_Z (fst <$> anc) + x (current nd))%Z) in *.
  set (ly := (oy + sum_list_Z (snd <$> anc) + y (current nd))%Z) in *.
  assert (Hlx : lx = (ox + sum_list_Z (fst <$> (anc ++ [pos])))%Z).
  { rewrite fmap_app. cbn [fmap list_fmap]. rewrite sum_list_Z_snoc.
    unfold lx, pos. simpl. lia. }
  assert (Hly : ly = (oy + sum_list_Z (snd <$> (anc ++ [pos])))%Z).
  { rewrite fmap_app. cbn [fmap list_fmap]. rewrite sum_list_Z_snoc.
    unfold ly, pos. simpl. lia. }
  cbn [drawables_of].
  rewrite fmap_app, for_each_drawable_app, <- list_fmap_compose.
  assert (Hown :
    match type nd with
    | WLR_SCENE_NODE_SURFACE =>
        s ← must (surface nd);
        wlr_surface_for_each_surface s (surface_iterator user_iterator lx ly) d
    | WLR_SCENE_NODE_ROOT => Ok d
    end = for_each_drawable user_iterator
            (absolute (ox, oy) ∘ (λ d0, (anc ++ [pos], d0)) <$> ds) d).
  { assert (Hshift : for_each_drawable (surface_iterator user_iterator lx ly)
                       ds d
                     = for_each_drawable user_iterator
                         (absolute (ox, oy) ∘ (λ d0, (anc ++ [pos], d0))
                            <$> ds) d).
    { rewrite surface_iterator_shift by done. f_equal.
      apply list_fmap_ext. intros i [[s sx] sy] _. unfold absolute. simpl.
      by rewrite Hlx, Hly. }
    unfold drawables_at in Hds. destruct (type nd).
    - injection Hds as <-. done.
    - destruct (surface nd) as [s|]; [|done]. injection Hds as <-. done. }
  rewrite Hown. clear Hown.
  destruct (for_each_drawable user_iterator _ d) as [d'|]; [|done].
  cbn [mbind result_bind].
  rewrite (wl_list_for_each_const h current_link (n, current_children) _
             (croot <$> kids)); [|done|done|].
  2:{ rewrite length_fmap. pose proof (csize_kids n pos ds kids). lia. }
  rewrite fmap_concat_map.
  apply (each_kids user_iterator _
           (λ t, absolute (ox, oy) <$> drawables_of (anc ++ [pos]) t)).
  rewrite Forall_forall in Hkids |- *. intros t Ht d0.
  rewrite Hlx, Hly. apply IH.
  - by apply Hkids.
  - pose proof (csize_kid n pos ds kids t Ht). lia.
  - rewrite <- Hlx, <- Hly.
    rewrite forallb_forall in Hfk. apply Hfk. by apply list_elem_of_In.
Qed.

(** ** The scene of the examples is well formed *)

Ltac each_elem H :=
  repeat (apply elem_of_cons in H as [->|H]); [..|by apply elem_of_nil in H].

Lemma shaped_leaf h n :
  current_list h n [] → pending_list h n [] → shaped h (Tree n []).
Proof.
  intros Hc Hp.
  apply (shaped_tree h n [] [] []); [done|done|set_solver|..|constructor];
    intros k Hk; by apply elem_of_nil in Hk.
Qed.

Lemma scene_RAB_tree : scene_tree scene_RAB tree_RAB.
Proof.
  split; [|compute_done].
  apply (shaped_tree _ 1%positive _ [] [2; 3]%positive).
  - compute_done.
  - compute_done.
  - set_solver.
  - intros k Hk _. simpl in Hk. each_elem Hk; compute_done.
  - intros k Hk Hn. simpl in Hk. set_solver.
  - intros k Hk. simpl in Hk. each_elem Hk; compute_done.
  - repeat constructor; apply shaped_leaf; compute_done.
Qed.

Lemma scene_RAB_committed_tree : scene_tree scene_RAB_committed tree_RAB.
Proof.
  split; [|compute_done].
  apply (shaped_tree _ 1%positive _ [2; 3]%positive [2; 3]%positive).
  - compute_done.
  - compute_done.
  - set_solver.
  - intros k Hk Hn. simpl in Hk. set_solver.
  - intros k Hk Hn. simpl in Hk. set_solver.
  - intros k Hk. simpl in Hk. each_elem Hk; compute_done.
  - repeat constructor; apply shaped_leaf; compute_done.
Qed.

(** ** Commit *)

(** C1. For a node [n] of a scene, [commit(n)] copies the pending position of
    [n] into its current position and relinks the current children of [n] so
    that the pending children come in pending order, at the end of the list,
    behind the children that are only in the current list, none of which is
    removed.  With the position copied and the children relinked (the heap
    [h2]), it then commits every child of the new current list, in that
    order; the position and the list of [n] are still the same when these
    calls have returned. *)
Theorem commit_node_spec (fuel : nat) (t : tree) (h : heap)
    (cur pend : list addr) :
  scene_tree h t → size t < fuel →
  current_list h (root t) cur → pending_list h (root t) pend →
  ∃ h2 h',
    wlr_scene_node_commit fuel (root t) h = Ok h' ∧
    current_pos h2 (root t) = pending_pos h (root t) ∧
    is_Some (pending_pos h (root t)) ∧
    current_list h2 (root t) (committed_order cur pend) ∧
    (∃ front, committed_order cur pend = front ++ pend) ∧
    (∀ k, k ∈ cur → k ∈ committed_order cur pend) ∧
    each (wlr_scene_node_commit (pred fuel)) (committed_order cur pend) h2
      = Ok h' ∧
    current_pos h' (root t) = pending_pos h (root t) ∧
    current_list h' (root t) (committed_order cur pend).
Proof.
  intros [Hsh Hnd] Hsz Hcur Hpend.
  destruct (commit_correct fuel t h Hsh Hnd Hsz cur pend Hcur Hpend)
    as (h2 & h' & Hc & Hp2 & Hc2 & Heach & Hsh' & Hfr & Hcm).
  exists h2, h'. destruct t as [n ts]. simpl root in *.
  inversion Hcm as [n' ts' cur1 pend1 Hcur1 Hpend1 _ Hpos Hsome Hcur' _]; subst.
  pose proof (current_list_functional _ _ _ _ Hcur1 Hcur) as ->.
  pose proof (pending_list_functional _ _ _ _ Hpend1 Hpend) as ->.
  split_and!; try done.
  - unfold committed_order. by eexists.
  - intros k Hk. apply elem_of_committed_order. by left.
Qed.

Lemma commit_node_spec_witness :
  scene_tree scene_RAB tree_RAB ∧
  ∃ h', wlr_scene_node_commit 4 1 scene_RAB = Ok h' ∧
        current_list h' 1 [2; 3]%positive.
Proof.
  split; [exact scene_RAB_tree|].
  destruct (commit_node_spec 4 tree_RAB scene_RAB [] [2; 3]%positive)
    as (h2 & h' & Hc & _ & _ & _ & _ & _ & _ & _ & Hl).
  - exact scene_RAB_tree.
  - vm_compute. lia.
  - compute_done.
  - compute_done.
  - exists h'. split; [exact Hc|exact Hl].
Defined.

(** C2. [move(n, x, y)] writes the pending position of [n] and nothing else:
    every list cell and every other member of every node is as before, so the
    current position of [n] read after the call is the one before it.  After
    a commit of a tree that holds [n], the current position of [n] is
    [(x, y)]. *)
Theorem move_then_commit (fuel : nat) (t : tree) (h : heap) (n : addr)
    (x y : Z) :
  scene_tree h t → n ∈ nodes t → size t < fuel →
  ∃ nd h1 h2,
    node_at h n = Some nd ∧
    wlr_scene_node_move n x y h = Ok h1 ∧
    h1 = <[n := Node (set_pending
                        {| x := x; y := y;
                           children := children (pending nd);
                           link := link (pending nd) |} nd)]> h ∧
    (∀ c, load h1 c = load h c) ∧
    (∀ a, a ≠ n → node_scalars h1 a = node_scalars h a) ∧
    current_pos h1 n = current_pos h n ∧
    is_Some (current_pos h n) ∧
    pending_pos h1 n = Some (x, y) ∧
    wlr_scene_node_commit fuel (root t) h1 = Ok h2 ∧
    current_pos h2 n = Some (x, y).
Proof.
  intros [Hsh Hnd] Hn Hsz.
  destruct (shaped_node_at _ _ _ Hsh Hn) as [nd Hnode].
  set (h1 := <[n := Node (set_pending
                        {| x := x; y := y;
                           children := children (pending nd);
                           link := link (pending nd) |} nd)]> h).
  assert (Hload : ∀ c, load h1 c = load h c).
  { intros c. eapply load_insert_node; [done|]. by intros []. }
  assert (Hsc : ∀ a, a ≠ n → node_scalars h1 a = node_scalars h a).
  { intros a Ha. unfold h1. rewrite node_scalars_insert.
    by rewrite decide_False. }
  assert (Hscn : node_scalars h1 n = Some (scalars_of (set_pending
                        {| x := x; y := y;
                           children := children (pending nd);
                           link := link (pending nd) |} nd))).
  { unfold h1. rewrite node_scalars_insert. by rewrite decide_True. }
  assert (Hsh1 : shaped h1 t).
  { eapply shaped_frame; [| |exact Hsh]; [by intros|].
    intros a _. unfold parent_of. destruct (decide (a = n)) as [->|Ha].
    - rewrite Hscn. unfold node_scalars. by rewrite Hnode.
    - by rewrite Hsc. }
  destruct (shaped_node _ _ _ Hsh1 (root_in_nodes t)) as (cur & pend & Hc & Hp).
  destruct (commit_correct fuel t h1 Hsh1 Hnd Hsz cur pend Hc Hp)
    as (_ & h2 & Hcommit & _ & _ & _ & _ & _ & Hcm).
  destruct (committed_node _ _ _ _ Hcm Hn) as (_ & _ & _ & _ & Hpos & _ & _).
  exists nd, h1, h2. split_and!; try done.
  - unfold wlr_scene_node_move. by rewrite Hnode.
  - unfold current_pos. rewrite Hscn. unfold node_scalars. by rewrite Hnode.
  - unfold current_pos, node_scalars. rewrite Hnode. simpl. eauto.
  - unfold pending_pos. by rewrite Hscn.
  - rewrite Hpos. unfold pending_pos. by rewrite Hscn.
Qed.

Lemma move_then_commit_witness :
  scene_tree scene_RAB tree_RAB ∧
  ∃ h1 h2,
    wlr_scene_node_move 2 5 5 scene_RAB = Ok h1 ∧
    current_pos h1 2 = Some (0, 0)%Z ∧
    wlr_scene_node_commit 4 1 h1 = Ok h2 ∧
    current_pos h2 2 = Some (5, 5)%Z.
Proof.
  split; [exact scene_RAB_tree|].
  destruct (move_then_commit 4 tree_RAB scene_RAB 2 5 5)
    as (nd & h1 & h2 & _ & Hm & _ & _ & _ & Hc1 & _ & _ & Hc & Hc2).
  - exact scene_RAB_tree.
  - compute_done.
  - vm_compute. lia.
  - exists h1, h2. split_and!; [exact Hm| |exact Hc|exact Hc2].
    rewrite Hc1. vm_compute. reflexivity.
Defined.

(** C10. A commit leaves the pending state of every node as it is: the
    pending positions, the heads of the pending children and the pending
    links.  A second commit of the same tree, with nothing done in between,
    changes neither the current position nor the order of the current
    children of any node of the tree. *)
Theorem commit_idempotent (fuel : nat) (t : tree) (h : heap) :
  scene_tree h t → size t < fuel →
  ∃ h1 h2,
    wlr_scene_node_commit fuel (root t) h = Ok h1 ∧
    (∀ a, pending_pos h1 a = pending_pos h a) ∧
    (∀ a, load h1 (a, pending_children) = load h (a, pending_children)) ∧
    (∀ a, load h1 (a, pending_link) = load h (a, pending_link)) ∧
    wlr_scene_node_commit fuel (root t) h1 = Ok h2 ∧
    (∀ m, m ∈ nodes t →
       current_pos h2 m = current_pos h1 m ∧
       ∃ ks, current_list h1 m ks ∧ current_list h2 m ks).
Proof.
  intros [Hsh Hnd] Hsz.
  destruct (shaped_node _ _ _ Hsh (root_in_nodes t)) as (cur & pend & Hc & Hp).
  destruct (commit_correct fuel t h Hsh Hnd Hsz cur pend Hc Hp)
    as (_ & h1 & Hcommit1 & _ & _ & _ & Hsh1 & Hfr1 & Hcm1).
  destruct (shaped_node _ _ _ Hsh1 (root_in_nodes t))
    as (cur1 & pend1 & Hc1 & Hp1).
  destruct (commit_correct fuel t h1 Hsh1 Hnd Hsz cur1 pend1 Hc1 Hp1)
    as (_ & h2 & Hcommit2 & _ & _ & _ & Hsh2 & Hfr2 & Hcm2).
  destruct (commit_frame_pending _ _ _ Hnd Hfr1) as (Hpp & Hpc & Hpl).
  exists h1, h2. split_and!; try done.
  intros m Hm.
  destruct (committed_node _ _ _ _ Hcm1 Hm)
    as (cm & pm & Hcm & Hpm & Hpos1 & _ & Hcm').
  destruct (committed_node _ _ _ _ Hcm2 Hm)
    as (cm2 & pm2 & Hcm2' & Hpm2 & Hpos2 & _ & Hcm2'').
  pose proof (current_list_functional _ _ _ _ Hcm2' Hcm') as ->.
  pose proof (pending_list_frame _ _ _ _ Hpc Hpl Hpm) as Hpm1.
  pose proof (pending_list_functional _ _ _ _ Hpm2 Hpm1) as ->.
  rewrite committed_order_idem in Hcm2''. split.
  - by rewrite Hpos2, Hpp, Hpos1.
  - by exists (committed_order cm pm).
Qed.

Lemma commit_idempotent_witness :
  scene_tree scene_RAB tree_RAB ∧
  ∃ h1 h2,
    wlr_scene_node_commit 4 1 scene_RAB = Ok h1 ∧
    wlr_scene_node_commit 4 1 h1 = Ok h2 ∧
    current_pos h2 3 = current_pos h1 3.
Proof.
  split; [exact scene_RAB_tree|].
  destruct (commit_idempotent 4 tree_RAB scene_RAB)
    as (h1 & h2 & Hc1 & _ & _ & _ & Hc2 & Hsame).
  - exact scene_RAB_tree.
  - vm_compute. lia.
  - exists h1, h2. split_and!; [exact Hc1|exact Hc2|].
    apply (Hsame 3%positive). compute_done.
Defined.

(** ** Placing a node above or below a sibling *)





(** C4, the part that holds, and what the two calls do when the node is its
    own sibling.  In the scene of root 1 with the pending children 2 and 3:
    the parents of 2 and 1 differ, and both calls abort on the assertion;
    [place_above(2, 2)] returns, and has taken 2 out of the pending children
    of 1, leaving its pending link pointing at itself;
    [place_below(2, 2)] reads [sibling->pending.link.prev] after
    [wl_list_remove] has set it to NULL and passes it to [wl_list_insert]. *)
Theorem place_on_itself :
  wlr_scene_node_place_above 2 1 scene_RAB = Fail assertion_failure ∧
  wlr_scene_node_place_below 2 1 scene_RAB = Fail assertion_failure ∧
  pending_list scene_RAB 1 [2; 3]%positive ∧
  (∃ h', wlr_scene_node_place_above 2 2 scene_RAB = Ok h' ∧
         pending_list h' 1 [3]%positive ∧
         dll h' (2%positive, pending_link) []) ∧
  wlr_scene_node_place_below 2 2 scene_RAB = Fail undefined_behaviour.
Proof.
  split_and!; try (vm_compute; reflexivity); try compute_done.
  eexists. split; [vm_compute; reflexivity|]. split; compute_done.
Qed.

(** ** Traversal *)

Lemma viewed_intro `{collaborators} h n nd pos ds kids :
  node_at h n = Some nd → pos = (x (current nd), y (current nd)) →
  drawables_at nd = Some ds → current_list h n (croot <$> kids) →
  Forall (viewed h) kids → viewed h (CTree n pos ds kids).
Proof. intros ? -> ???. by econstructor. Qed.

Ltac view_node :=
  match goal with
  | |- viewed ?h (CTree ?n _ _ _) =>
      let nd := eval vm_compute in (node_at h n) in
      match nd with
      | Some ?v =>
          apply (viewed_intro h n v);
          [vm_compute; reflexivity|reflexivity|reflexivity|compute_done|]
      end
  end.

Lemma scene_moved_viewed : viewed scene_moved ctree_moved.
Proof.
  unfold ctree_moved. view_node.
  repeat constructor; view_node; constructor.
Qed.

(** C9. The traversal from [n] with the running offset starting at the
    origin [(ox, oy)] calls the visitor once for every drawable of the
    current tree below [n], in depth-first preorder, the children of a node
    in the order of its current list; the position it passes is the origin
    plus the current positions of the node of the drawable and of all the
    nodes above it up to [n], plus the local offset of the drawable.  The
    result is a function of the heap and of the visitor: a second run over
    the same heap makes the same calls.  [fits] says that no addition
    overflows. *)
Theorem for_each_surface_preorder `{collaborators} {D : Type}
    (user_iterator : addr → Z → Z → D → result D) (h : heap) (t : ctree)
    (ox oy : Z) (fuel : nat) (d : D) :
  viewed h t → csize t < fuel → fits ox oy t = true →
  scene_node_for_each_surface fuel h (croot t) ox oy user_iterator d
  = for_each_drawable user_iterator
      (absolute (ox, oy) <$> drawables_of [] t) d.
Proof.
  intros Hv Hsz Hfits.
  pose proof (traversal_correct user_iterator h ox oy fuel t [] d Hv Hsz)
    as Ht.
  simpl in Ht. rewrite !Z.add_0_r in Ht. by apply Ht.
Qed.

Lemma for_each_surface_preorder_witness :
  viewed scene_moved ctree_moved ∧
  wlr_scene_node_for_each_surface 4 scene_moved 1 record_visit []
  = Ok [(10%positive, 5%Z, 5%Z); (11%positive, 0%Z, 0%Z)].
Proof.
  split; [exact scene_moved_viewed|].
  unfold wlr_scene_node_for_each_surface.
  rewrite (for_each_surface_preorder record_visit scene_moved ctree_moved
             0 0 4 []).
  - reflexivity.
  - exact scene_moved_viewed.
  - vm_compute. lia.
  - reflexivity.
Defined.

(** ** Scaling *)

Lemma bind_Ok_inv {A B} (r : result A) (k : A → result B) b :
  r ≫= k = Ok b → ∃ a, r = Ok a ∧ k a = Ok b.
Proof. destruct r as [a|f]; simpl; [eauto|done]. Qed.

Lemma to_int_Ok z v : to_int z = Ok v → v = z ∧ in_int z = true.
Proof. unfold to_int. destruct (in_int z); [|done]. by intros [= ->]. Qed.

Lemma int_add_Ok a b v : int_add a b = Ok v → v = (a + b)%Z.
Proof. intros H. by apply to_int_Ok in H as [-> _]. Qed.

(** A difference that fits an [int] is exact in [double]. *)
Lemma double_sub_to_int_Ok a b v :
  double_sub_to_int a b = Ok v → v = (a - b)%Z.
Proof.
  unfold double_sub_to_int, round_to_precision.
  generalize (a - b)%Z. intros z.
  destruct (Z.leb_spec (Z.log2 (Z.abs z) + 1) 53) as [Hn|Hn].
  - cbn [mantissa exponent]. rewrite Z.pow_0_r, Z.mul_1_r.
    by intros [-> _]%to_int_Ok.
  - cbn [mantissa exponent]. intros [_ Hin]%to_int_Ok. exfalso.
    remember (Z.log2 (Z.abs z) + 1 - 53)%Z as s eqn:Es.
    assert (Hs : (1 ≤ s)%Z) by lia.
    assert (Hz : (0 < Z.abs z)%Z).
    { destruct (Z.eq_dec (Z.abs z) 0) as [E|E]; [|lia].
      rewrite E in Hn. simpl in Hn. lia. }
    pose proof (Z.log2_spec _ Hz) as [Hlo _].
    assert (Hq : (2 ^ 52 ≤ Z.abs z / 2 ^ s)%Z).
    { apply Z.div_le_lower_bound; [lia|].
      rewrite <- Z.pow_add_r by lia.
      replace (s + 52)%Z with (Z.log2 (Z.abs z)) by lia. done. }
    remember (Z.abs z / 2 ^ s)%Z as q eqn:Eq.
    assert (H2s : (2 ≤ 2 ^ (0 + s))%Z).
    { replace (0 + s)%Z with (1 + (s - 1))%Z by lia.
      rewrite Z.pow_add_r by lia.
      assert (0 < 2 ^ (s - 1))%Z by (apply Z.pow_pos_nonneg; lia). lia. }
    remember (2 ^ (0 + s))%Z as w eqn:Ew.
    unfold in_int, INT_MIN, INT_MAX in Hin.
    apply andb_true_iff in Hin as [H1%Z.leb_le H2%Z.leb_le].
    assert (Hbig : (2 ^ 53 ≤ 2 ^ 52 * w)%Z) by lia.
    match type of H1 with
    | context [if ?c then _ else _] => destruct c
    end;
    destruct (Z.sgn_spec z) as [[? E]|[[? E]|[? E]]];
      rewrite E in H1, H2; try lia;
      assert (2 ^ 52 * w ≤ q * w)%Z by (apply Z.mul_le_mono_nonneg_r; lia);
      assert (q * w ≤ (q + 1) * w)%Z by (apply Z.mul_le_mono_nonneg_r; lia);
      lia.
Qed.

Lemma scale_length_Ok length offset scale v :
  scale_length length offset scale = Ok v →
  v = (c_round (float_mul (float_of_int (offset + length)) scale)
       - c_round (float_mul (float_of_int offset) scale))%Z.
Proof.
  unfold scale_length. intros (far & Hfar & Hsub)%bind_Ok_inv.
  apply int_add_Ok in Hfar as ->. by apply double_sub_to_int_Ok.
Qed.

Lemma scale_box_Ok box scale box' :
  scale_box box scale = Ok box' →
  let R := λ i, c_round (float_mul (float_of_int i) scale) in
  box_x box' = R (box_x box) ∧
  box_y box' = R (box_y box) ∧
  box_width box' = (R (box_x box + box_width box) - R (box_x box))%Z ∧
  box_height box' = (R (box_y box + box_height box) - R (box_y box))%Z.
Proof.
  unfold scale_box.
  intros (w & Hw & H1)%bind_Ok_inv. apply bind_Ok_inv in H1 as (h & Hh & H1).
  apply bind_Ok_inv in H1 as (x' & Hx & H1).
  apply bind_Ok_inv in H1 as (y' & Hy & H1).
  injection H1 as <-. simpl.
  apply scale_length_Ok in Hw, Hh.
  apply to_int_Ok in Hx as [-> _]. apply to_int_Ok in Hy as [-> _]. done.
Qed.

(** ** More on scaling *)

(** The rounded edge [round(i * scale)] of the source. *)
Lemma scale_box_defined box scale box' :
  scale_box box scale = Ok box' →
  in_int (box_x box + box_width box) = true ∧
  in_int (box_y box + box_height box) = true.
Proof.
  unfold scale_box, scale_length.
  intros (w & Hw & H1)%bind_Ok_inv. apply bind_Ok_inv in H1 as (h & Hh & _).
  apply bind_Ok_inv in Hw as (fx & Hfx & _).
  apply bind_Ok_inv in Hh as (fy & Hfy & _).
  apply to_int_Ok in Hfx as [_ ?]. apply to_int_Ok in Hfy as [_ ?]. done.
Qed.

(** X1.  [scale_box] sends every edge of the box to [round(edge * scale)]: the
    left edge [x] and the right edge [x + width], the top edge [y] and the
    bottom edge [y + height].  So when a box begins where another one ends,
    their images do as well, at any scale: no gap and no overlap. *)
Theorem scale_box_abutting (b1 b2 b1' b2' : wlr_box) (scale : float) :
  scale_box b1 scale = Ok b1' → scale_box b2 scale = Ok b2' →
  let R := λ i, c_round (float_mul (float_of_int i) scale) in
  box_x b1' = R (box_x b1) ∧
  (box_x b1' + box_width b1')%Z = R (box_x b1 + box_width b1)%Z ∧
  box_y b1' = R (box_y b1) ∧
  (box_y b1' + box_height b1')%Z = R (box_y b1 + box_height b1)%Z ∧
  (box_x b2 = (box_x b1 + box_width b1)%Z →
   (box_x b1' + box_width b1')%Z = box_x b2') ∧
  (box_y b2 = (box_y b1 + box_height b1)%Z →
   (box_y b1' + box_height b1')%Z = box_y b2').
Proof.
  intros (Hx1 & Hy1 & Hw1 & Hh1)%scale_box_Ok (Hx2 & Hy2 & _)%scale_box_Ok.
  cbv zeta in *. rewrite Hx1, Hy1, Hw1, Hh1, Hx2, Hy2.
  split_and!; try done; try lia.
  - intros ->. lia.
  - intros ->. lia.
Qed.

Lemma scale_box_abutting_witness :
  scale_box box_0_10 one_and_a_half = Ok box_0_15 ∧
  scale_box box_10_20 one_and_a_half = Ok box_15_30 ∧
  (box_x box_0_15 + box_width box_0_15)%Z = box_x box_15_30.
Proof.
  split; [reflexivity|]. split; [reflexivity|].
  apply (scale_box_abutting box_0_10 box_10_20 box_0_15 box_15_30
           one_and_a_half); reflexivity.
Defined.

(** The conversion of an [int] below 2^24 to [float] is exact. *)
Lemma float_of_int_small i :
  (Z.abs i < 2 ^ 24)%Z → float_of_int i = {| mantissa := i; exponent := 0 |}.
Proof.
  intros Hi. unfold float_of_int, round_to_precision.
  destruct (Z.leb_spec (Z.log2 (Z.abs i) + 1) 24) as [|Hn]; [done|].
  exfalso. destruct (Z.eq_dec (Z.abs i) 0) as [E|E].
  - rewrite E in Hn. simpl in Hn. lia.
  - assert (Z.log2 (Z.abs i) < 24)%Z; [|lia].
    apply Z.log2_lt_pow2; lia.
Qed.

Lemma scale_by_integer_edge i k :
  (Z.abs i < 2 ^ 24)%Z → (Z.abs (i * k) < 2 ^ 24)%Z →
  c_round (float_mul (float_of_int i) {| mantissa := k; exponent := 0 |})
  = (i * k)%Z.
Proof.
  intros Hi Hik. rewrite float_of_int_small by done.
  unfold float_mul. cbn [mantissa exponent]. rewrite Z.add_0_r.
  change (round_to_precision 24 (i * k) 0) with (float_of_int (i * k)).
  rewrite float_of_int_small by done. unfold c_round.
  cbn [mantissa exponent]. change (0 <=? 0)%Z with true. cbv iota.
  rewrite Z.pow_0_r. lia.
Qed.

(** X2.  At a scale that is an integer [k] (1.0, 2.0, ...) [scale_box]
    multiplies the box by [k] exactly: position and size are [k] times what
    they were.  This holds as long as the four edges of the box and of its
    image are below 2^24 in absolute value, where [float] holds every
    integer.  At scale 1.0 the box is returned as it is. *)
Theorem scale_box_integer (box : wlr_box) (k : Z) :
  (Z.abs (box_x box) < 2 ^ 24)%Z → (Z.abs (box_y box) < 2 ^ 24)%Z →
  (Z.abs (box_x box + box_width box) < 2 ^ 24)%Z →
  (Z.abs (box_y box + box_height box) < 2 ^ 24)%Z →
  (Z.abs (box_x box * k) < 2 ^ 24)%Z → (Z.abs (box_y box * k) < 2 ^ 24)%Z →
  (Z.abs ((box_x box + box_width box) * k) < 2 ^ 24)%Z →
  (Z.abs ((box_y box + box_height box) * k) < 2 ^ 24)%Z →
  scale_box box {| mantissa := k; exponent := 0 |}
  = Ok {| box_x := box_x box * k; box_y := box_y box * k;
          box_width := box_width box * k;
          box_height := box_height box * k |}.
Proof.
  intros Hx Hy Hxw Hyh Hxk Hyk Hxwk Hyhk.
  unfold scale_box, scale_length, int_add.
  assert (H24 : (2 ^ 24 = 16777216)%Z) by reflexivity.
  assert (H25 : (2 ^ 25 = 33554432)%Z) by reflexivity.
  assert (Hin : ∀ z, (Z.abs z < 2 ^ 25)%Z → to_int z = Ok z).
  { intros z Hz. apply to_int_fits. unfold in_int, INT_MIN, INT_MAX.
    assert (2 ^ 31 = 2147483648)%Z as -> by reflexivity.
    apply andb_true_iff. split; apply Z.leb_le; lia. }
  rewrite (Hin (box_x box + box_width box)%Z),
    (Hin (box_y box + box_height box)%Z) by lia.
  cbn [mbind result_bind].
  rewrite !scale_by_integer_edge by done.
  unfold double_sub_to_int.
  assert (Hsub : ∀ z, (Z.abs z < 2 ^ 25)%Z →
            round_to_precision 53 z 0 = {| mantissa := z; exponent := 0 |}).
  { intros z Hz. unfold round_to_precision.
    destruct (Z.leb_spec (Z.log2 (Z.abs z) + 1) 53) as [|Hn]; [done|].
    exfalso. destruct (Z.eq_dec (Z.abs z) 0) as [E|E].
    - rewrite E in Hn. simpl in Hn. lia.
    - assert (Z.log2 (Z.abs z) < 25)%Z; [|lia].
      apply Z.log2_lt_pow2; lia. }
  rewrite !Hsub by lia. cbn [mantissa exponent].
  rewrite !Z.pow_0_r, !Z.mul_1_r.
  rewrite (Hin ((box_x box + box_width box) * k - box_x box * k)%Z),
    (Hin ((box_y box + box_height box) * k - box_y box * k)%Z) by lia.
  cbn [mbind result_bind].
  rewrite (Hin (box_x box * k)%Z), (Hin (box_y box * k)%Z) by lia.
  cbn [mbind result_bind].
  f_equal. f_equal; lia.
Qed.

Lemma scale_box_integer_witness :
  scale_box box_full_hd float_two = Ok box_full_hd_2x ∧
  scale_box box_full_hd float_one = Ok box_full_hd.
Proof.
  split.
  - apply (scale_box_integer box_full_hd 2); simpl; lia.
  - apply (scale_box_integer box_full_hd 1); simpl; lia.
Defined.

(** * Scaling by a dyadic factor keeps the orientation of a box *)

(** [round] of a non-negative value [a / d]. *)
Lemma round_half_up_div (a d : Z) :
  (0 ≤ a)%Z → (0 < d)%Z →
  ((a / d) + (if (d <=? 2 * (a mod d))%Z then 1 else 0)
   = (2 * a + d) / (2 * d))%Z.
Proof.
  intros Ha Hd.
  pose proof (Z.div_mod a d ltac:(lia)) as Hdm.
  pose proof (Z.mod_pos_bound a d Hd) as Hr.
  destruct (Z.leb_spec d (2 * (a mod d))) as [Hle|Hlt].
  - apply (Z.div_unique _ _ _ (2 * (a mod d) - d)); [lia|nia].
  - rewrite Z.add_0_r.
    apply (Z.div_unique _ _ _ (2 * (a mod d) + d)); [lia|nia].
Qed.

Lemma c_round_nonneg (m e : Z) :
  (0 ≤ m)%Z → (e < 0)%Z →
  c_round {| mantissa := m; exponent := e |}
  = ((2 * m + 2 ^ (- e)) / (2 * 2 ^ (- e)))%Z.
Proof.
  intros Hm He. unfold c_round. cbn [mantissa exponent].
  destruct (Z.leb_spec 0 e) as [?|_]; [lia|].
  assert (Hd : (0 < 2 ^ (- e))%Z) by (apply Z.pow_pos_nonneg; lia).
  rewrite Z.abs_eq by done.
  destruct (Z.eq_dec m 0) as [->|Hne].
  - rewrite Z.sgn_0, Z.mul_0_l. symmetry. apply Z.div_small. lia.
  - rewrite Z.sgn_pos by lia. rewrite Z.mul_1_l.
    rewrite <- round_half_up_div by done.
    destruct (2 ^ (- e) <=? 2 * (m mod 2 ^ (- e)))%Z; lia.
Qed.

Lemma c_round_neg (m e : Z) :
  (m < 0)%Z → (e < 0)%Z →
  c_round {| mantissa := m; exponent := e |}
  = (- ((2 * (- m) + 2 ^ (- e)) / (2 * 2 ^ (- e))))%Z.
Proof.
  intros Hm He. unfold c_round. cbn [mantissa exponent].
  destruct (Z.leb_spec 0 e) as [?|_]; [lia|].
  assert (Hd : (0 < 2 ^ (- e))%Z) by (apply Z.pow_pos_nonneg; lia).
  rewrite Z.abs_neq by lia. rewrite Z.sgn_neg by lia.
  rewrite <- round_half_up_div by lia.
  destruct (2 ^ (- e) <=? 2 * (- m mod 2 ^ (- e)))%Z; lia.
Qed.

(** [round] is monotone, and does not leave the range of its argument. *)
Lemma c_round_mono (m1 m2 e : Z) :
  (e ≤ 0)%Z → (m1 ≤ m2)%Z →
  (c_round {| mantissa := m1; exponent := e |}
   ≤ c_round {| mantissa := m2; exponent := e |})%Z.
Proof.
  intros He Hm. destruct (Z.eq_dec e 0) as [->|Hne].
  { unfold c_round. cbn [mantissa exponent]. simpl. lia. }
  assert (He' : (e < 0)%Z) by lia.
  assert (Hd : (0 < 2 ^ (- e))%Z) by (apply Z.pow_pos_nonneg; lia).
  assert (Hpos : ∀ a, (0 ≤ a)%Z →
            (0 ≤ (2 * a + 2 ^ (- e)) / (2 * 2 ^ (- e)))%Z).
  { intros a Ha. apply Z.div_pos; lia. }
  destruct (Z.lt_ge_cases m1 0) as [H1|H1], (Z.lt_ge_cases m2 0) as [H2|H2].
  - rewrite !c_round_neg by done.
    apply Z.opp_le_mono. rewrite !Z.opp_involutive.
    apply Z.div_le_mono; lia.
  - rewrite c_round_neg, c_round_nonneg by done.
    pose proof (Hpos (- m1)%Z ltac:(lia)). pose proof (Hpos m2 H2). lia.
  - lia.
  - rewrite !c_round_nonneg by done. apply Z.div_le_mono; lia.
Qed.

Lemma c_round_bound (m e : Z) :
  (e ≤ 0)%Z → (Z.abs (c_round {| mantissa := m; exponent := e |}) ≤ Z.abs m)%Z.
Proof.
  intros He. destruct (Z.eq_dec e 0) as [->|Hne].
  { unfold c_round. cbn [mantissa exponent]. simpl. lia. }
  assert (He' : (e < 0)%Z) by lia.
  assert (Hd : (2 ≤ 2 ^ (- e))%Z).
  { change 2%Z with (2 ^ 1)%Z at 1. apply Z.pow_le_mono_r; lia. }
  assert (Hb : ∀ a, (0 ≤ a)%Z →
            (0 ≤ (2 * a + 2 ^ (- e)) / (2 * 2 ^ (- e)) ≤ a)%Z).
  { intros a Ha. split; [apply Z.div_pos; lia|].
    destruct (Z.eq_dec a 0) as [->|Hn].
    - rewrite Z.div_small; lia.
    - apply Z.div_le_upper_bound; [lia|]. nia. }
  destruct (Z.lt_ge_cases m 0) as [H|H].
  - rewrite c_round_neg by done. pose proof (Hb (- m)%Z ltac:(lia)). lia.
  - rewrite c_round_nonneg by done. pose proof (Hb m H). lia.
Qed.

(** An edge of a box under a scale [ms * 2 ^ es] when nothing is rounded
    before [round]. *)
Lemma scale_edge_exact (i ms es : Z) :
  (Z.abs i < 2 ^ 24)%Z → (Z.abs (i * ms) < 2 ^ 24)%Z →
  float_mul (float_of_int i) {| mantissa := ms; exponent := es |}
  = {| mantissa := i * ms; exponent := es |}.
Proof.
  intros Hi Him. rewrite float_of_int_small by done.
  unfold float_mul. cbn [mantissa exponent]. rewrite Z.add_0_l.
  unfold round_to_precision.
  destruct (Z.leb_spec (Z.log2 (Z.abs (i * ms)) + 1) 24) as [|Hn]; [done|].
  exfalso. destruct (Z.eq_dec (Z.abs (i * ms)) 0) as [E|E].
  - rewrite E in Hn. simpl in Hn. lia.
  - assert (Z.log2 (Z.abs (i * ms)) < 24)%Z; [|lia].
    apply Z.log2_lt_pow2; lia.
Qed.

(** X21.  At a scale [ms * 2 ^ es] with [ms >= 0] and [es <= 0] (1.0, 1.5,
    1.25, 0.5, ...), for a box whose edges times [ms] stay below 2^24 so
    that the product is exact, [scale_box] returns, each edge of the result
    is [round] of the exact product, and the box keeps its orientation: a
    width or height that was not negative is not negative afterwards. *)
Theorem scale_box_keeps_orientation (box : wlr_box) (ms es : Z) :
  (0 ≤ ms)%Z → (es ≤ 0)%Z →
  (Z.abs (box_x box) < 2 ^ 24)%Z → (Z.abs (box_y box) < 2 ^ 24)%Z →
  (Z.abs (box_x box + box_width box) < 2 ^ 24)%Z →
  (Z.abs (box_y box + box_height box) < 2 ^ 24)%Z →
  (Z.abs (box_x box * ms) < 2 ^ 24)%Z → (Z.abs (box_y box * ms) < 2 ^ 24)%Z →
  (Z.abs ((box_x box + box_width box) * ms) < 2 ^ 24)%Z →
  (Z.abs ((box_y box + box_height box) * ms) < 2 ^ 24)%Z →
  let R := λ i, c_round {| mantissa := i * ms; exponent := es |} in
  scale_box box {| mantissa := ms; exponent := es |}
  = Ok {| box_x := R (box_x box); box_y := R (box_y box);
          box_width := R (box_x box + box_width box)%Z - R (box_x box);
          box_height := R (box_y box + box_height box)%Z - R (box_y box) |}
  ∧ ((0 ≤ box_width box)%Z →
     (0 ≤ R (box_x box + box_width box)%Z - R (box_x box))%Z)
  ∧ ((0 ≤ box_height box)%Z →
     (0 ≤ R (box_y box + box_height box)%Z - R (box_y box))%Z).
Proof.
  intros Hms Hes Hx Hy Hxw Hyh Hxk Hyk Hxwk Hyhk R.
  assert (H24 : (2 ^ 24 = 16777216)%Z) by reflexivity.
  assert (H26 : (2 ^ 26 = 67108864)%Z) by reflexivity.
  assert (Hin : ∀ z, (Z.abs z < 2 ^ 26)%Z → to_int z = Ok z).
  { intros z Hz. apply to_int_fits. unfold in_int, INT_MIN, INT_MAX.
    assert (2 ^ 31 = 2147483648)%Z as -> by reflexivity.
    apply andb_true_iff. split; apply Z.leb_le; lia. }
  assert (HR : ∀ i, (Z.abs (i * ms) < 2 ^ 24)%Z → (Z.abs (R i) < 2 ^ 24)%Z).
  { intros i Hi. unfold R.
    pose proof (c_round_bound (i * ms) es Hes). lia. }
  assert (Hmono : ∀ i j, (i ≤ j)%Z → (R i ≤ R j)%Z).
  { intros i j Hij. unfold R. apply c_round_mono; [done|]. nia. }
  split_and!.
  - unfold scale_box, scale_length, int_add.
    rewrite (Hin (box_x box + box_width box)%Z),
      (Hin (box_y box + box_height box)%Z) by lia.
    cbn [mbind result_bind].
    rewrite !scale_edge_exact by done. fold (R (box_x box)).
    fold (R (box_y box)). fold (R (box_x box + box_width box)%Z).
    fold (R (box_y box + box_height box)%Z).
    pose proof (HR _ Hxk). pose proof (HR _ Hyk).
    pose proof (HR _ Hxwk). pose proof (HR _ Hyhk).
    unfold double_sub_to_int.
    assert (Hsub : ∀ z, (Z.abs z < 2 ^ 26)%Z →
              round_to_precision 53 z 0 = {| mantissa := z; exponent := 0 |}).
    { intros z Hz. unfold round_to_precision.
      destruct (Z.leb_spec (Z.log2 (Z.abs z) + 1) 53) as [|Hn]; [done|].
      exfalso. destruct (Z.eq_dec (Z.abs z) 0) as [E|E].
      - rewrite E in Hn. simpl in Hn. lia.
      - assert (Z.log2 (Z.abs z) < 26)%Z; [|lia].
        apply Z.log2_lt_pow2; lia. }
    rewrite !Hsub by lia. cbn [mantissa exponent].
    rewrite !Z.pow_0_r, !Z.mul_1_r.
    rewrite (Hin (R (box_x box + box_width box)%Z - R (box_x box))%Z),
      (Hin (R (box_y box + box_height box)%Z - R (box_y box))%Z) by lia.
    cbn [mbind result_bind].
    rewrite (Hin (R (box_x box))), (Hin (R (box_y box))) by lia.
    cbn [mbind result_bind]. done.
  - intros Hw. pose proof (Hmono (box_x box) (box_x box + box_width box)%Z
                             ltac:(lia)). lia.
  - intros Hh. pose proof (Hmono (box_y box) (box_y box + box_height box)%Z
                             ltac:(lia)). lia.
Qed.

Lemma scale_box_keeps_orientation_witness :
  scale_box box_10_20 one_and_a_half = Ok box_15_30.
Proof.
  destruct (scale_box_keeps_orientation box_10_20 3 (-1)) as (Hs & _ & _);
    [simpl; lia..|].
  exact Hs.
Defined.

(** * Rendering: the calls made to the renderer *)

Section rendering_proofs.
Context `{collaborators}.

Lemma render_rects_calls (output : wlr_output matrix) (texture r : addr)
    (m : matrix) (rects : list pixman_box32) :
  renderer output = Some r →
  ∀ tr,
  render_rects output texture m r rects tr
  = if forallb rect_fits rects
    then Ok (tr ++ concat (rect_calls output r texture m <$> rects))
    else Fail undefined_behaviour.
Proof.
  intros Hr. induction rects as [|rect rects IH]; intros tr; simpl.
  { by rewrite app_nil_r. }
  unfold render_rect, scissor_output, rect_fits at 1, int_sub, to_int.
  rewrite Hr. cbn [mbind result_bind].
  destruct (in_int (x2 rect - x1 rect)); cbn [mbind result_bind andb];
    [|done].
  destruct (in_int (y2 rect - y1 rect)); cbn [mbind result_bind andb];
    [|done].
  unfold scissor_box.
  destruct (wlr_output_transformed_resolution output) as [ow oh].
  cbn [mbind result_bind]. rewrite IH.
  destruct (forallb rect_fits rects); [|done].
  by rewrite <- !app_assoc.
Qed.

Lemma render_surface_iterator_calls (output : wlr_output matrix)
    (damage : pixman_region32) (r s : addr) (x y : Z)
    (tr : list (backend_call matrix)) :
  renderer output = Some r →
  render_surface_iterator output damage s x y tr
  = cs ← drawable_calls output damage r (s, x, y); Ok (tr ++ cs).
Proof.
  intros Hr. unfold render_surface_iterator, drawable_calls. simpl.
  destruct (wlr_surface_get_texture s) as [texture|];
    [|cbn [mbind result_bind]; by rewrite app_nil_r].
  destruct (scale_box _ _) as [box|f]; cbn [mbind result_bind]; [|done].
  unfold render_texture, damaged_part. rewrite Hr. cbn [mbind result_bind].
  destruct (pixman_region32_intersect _ _) as [|rect rects] eqn:Hd.
  { simpl. by rewrite app_nil_r. }
  cbn [pixman_region32_not_empty].
  rewrite (render_rects_calls output texture r _ _ Hr).
  by destruct (forallb rect_fits (rect :: rects)).
Qed.

Lemma for_each_drawable_calls (output : wlr_output matrix)
    (damage : pixman_region32) (r : addr) (l : list (addr * Z * Z)) :
  renderer output = Some r →
  ∀ tr cs,
  scene_calls output damage r l = Ok cs →
  for_each_drawable (render_surface_iterator output damage) l tr
  = Ok (tr ++ cs).
Proof.
  intros Hr. induction l as [|[[s x] y] l IH]; intros tr cs Hcs; simpl in *.
  { inversion Hcs. by rewrite app_nil_r. }
  rewrite (render_surface_iterator_calls output damage r s x y tr Hr).
  destruct (drawable_calls output damage r (s, x, y)) as [c|];
    cbn [mbind result_bind] in *; [|done].
  destruct (scene_calls output damage r l) as [rest|] eqn:Hrest;
    cbn [mbind result_bind] in *; [|done].
  inversion Hcs; subst cs. rewrite (IH (tr ++ c) rest eq_refl).
  by rewrite app_assoc.
Qed.

(** X3.  [render_texture] for one texture and its box: when the box does not
    meet the damage nothing is sent to the renderer; otherwise every
    rectangle of the intersection, in the order pixman lists them, gives
    exactly one scissor call (the rectangle seen through the inverse of the
    output's transform) followed by exactly one draw of the texture with the
    given matrix and alpha 1.0.  Calls made before are kept.  The width and
    height of each rectangle must be [int]s ([rect_fits]), as the C
    subtraction requires. *)
Theorem render_texture_calls (output : wlr_output matrix)
    (output_damage : pixman_region32) (texture r : addr) (box : wlr_box)
    (m : matrix) (tr : list (backend_call matrix)) :
  renderer output = Some r →
  forallb rect_fits (damaged_part output_damage box) = true →
  render_texture output output_damage texture box m tr
  = Ok (tr ++ concat (rect_calls output r texture m
                        <$> damaged_part output_damage box))
  ∧ (damaged_part output_damage box = [] →
     render_texture output output_damage texture box m tr = Ok tr)
  ∧ length (concat (rect_calls output r texture m
                      <$> damaged_part output_damage box))
    = 2 * length (damaged_part output_damage box).
Proof.
  intros Hr Hfit.
  assert (Hrt : render_texture output output_damage texture box m tr
    = Ok (tr ++ concat (rect_calls output r texture m
                          <$> damaged_part output_damage box))).
  { unfold render_texture. rewrite Hr. cbn [mbind result_bind].
    fold (damaged_part output_damage box).
    destruct (damaged_part output_damage box) as [|rect rects] eqn:Hd.
    { simpl. by rewrite app_nil_r. }
    cbn [pixman_region32_not_empty].
    rewrite (render_rects_calls output texture r m _ Hr). by rewrite Hfit. }
  split_and!; [done| |].
  - intros Hd. rewrite Hrt, Hd. simpl. by rewrite app_nil_r.
  - clear. induction (damaged_part output_damage box) as [|rect l IH];
      [done|]. rewrite fmap_cons. cbn [concat rect_calls app length].
    fold (rect_calls output r texture m). rewrite IH. lia.
Qed.

(** X4.  [render_surface_iterator] for one drawable at an absolute position:
    a surface without a texture sends nothing to the renderer; one with a
    texture sends the calls of [drawable_calls]: its box (the position and
    the surface's size) is scaled by the output's scale, projected, and drawn
    once per rectangle of the damage it meets.  A fault of the model (the
    scaling or a rectangle's size not an [int]) is a fault of the code and
    conversely. *)
Theorem render_surface_iterator_spec (output : wlr_output matrix)
    (damage : pixman_region32) (r s : addr) (x y : Z)
    (tr : list (backend_call matrix)) :
  renderer output = Some r →
  render_surface_iterator output damage s x y tr
  = (cs ← drawable_calls output damage r (s, x, y); Ok (tr ++ cs))
  ∧ (wlr_surface_get_texture s = None →
     render_surface_iterator output damage s x y tr = Ok tr).
Proof.
  intros Hr. split.
  - by apply render_surface_iterator_calls.
  - intros Ht. unfold render_surface_iterator. by rewrite Ht.
Qed.

(** X5.  [wlr_scene_render] on an enabled output with a non-empty damage
    (the one given, or the whole output when none is given): the calls sent
    to the renderer are those of the drawables of the current tree, in
    depth-first order, each at the position of its node chain counted from
    [(-lx, -ly)], and then exactly one call that resets the scissor. *)
Theorem wlr_scene_render_calls (h : heap) (t : ctree)
    (output : wlr_output matrix) (lx ly : Z)
    (damage : option pixman_region32) (r : addr) (fuel : nat)
    (tr cs : list (backend_call matrix)) :
  viewed h t → csize t < fuel →
  renderer output = Some r → enabled output = true →
  pixman_region32_not_empty (effective_damage output damage) = true →
  in_int (- lx) = true → in_int (- ly) = true →
  fits (- lx) (- ly) t = true →
  scene_calls output (effective_damage output damage) r
    (absolute (- lx, - ly)%Z <$> drawables_of [] t) = Ok cs →
  wlr_scene_render fuel h (croot t) output lx ly damage tr
  = Ok (tr ++ cs ++ [wlr_renderer_scissor r None]).
Proof.
  intros Hv Hsz Hr Hen Hne Hlx Hly Hfits Hcs.
  unfold wlr_scene_render. fold (effective_damage output damage).
  rewrite Hr, Hen, Hne. cbn [mbind result_bind andb].
  rewrite !to_int_fits by done. cbn [mbind result_bind].
  pose proof (traversal_correct
    (render_surface_iterator output (effective_damage output damage))
    h (- lx) (- ly) fuel t [] tr Hv Hsz) as Ht.
  simpl in Ht. rewrite !Z.add_0_r in Ht. rewrite (Ht Hfits).
  rewrite (for_each_drawable_calls output _ r _ Hr tr cs Hcs).
  cbn [mbind result_bind]. by rewrite <- app_assoc.
Qed.

(** X6.  [wlr_scene_render] sends nothing to the renderer, not even the
    reset of the scissor, and reads nothing of the scene, when the output is
    disabled or the damage it works with is empty.  With no damage given
    that is the case of an output whose width or height is not positive.  The renderer must exist
    all the same: without one the call aborts on its assertion. *)
Theorem wlr_scene_render_nothing (h : heap) (scene : addr)
    (output : wlr_output matrix) (lx ly : Z)
    (damage : option pixman_region32) (fuel : nat)
    (tr : list (backend_call matrix)) :
  (renderer output = None →
   wlr_scene_render fuel h scene output lx ly damage tr
   = Fail assertion_failure)
  ∧ (is_Some (renderer output) →
     enabled output = false ∨ damage = Some [] ∨
     (damage = None ∧ (- 2 ^ 31 ≤ width output < 2 ^ 31)%Z ∧
      (- 2 ^ 31 ≤ height output < 2 ^ 31)%Z ∧
      (width output ≤ 0 ∨ height output ≤ 0)%Z) →
     wlr_scene_render fuel h scene output lx ly damage tr = Ok tr).
Proof.
  split.
  - intros Hr. unfold wlr_scene_render. by rewrite Hr.
  - intros [r Hr] Hcase. unfold wlr_scene_render. rewrite Hr.
    cbn [mbind result_bind].
    destruct Hcase as [Hen|[->|(-> & Hw & Hh & Hz)]].
    + by rewrite Hen.
    + simpl. by rewrite andb_false_r.
    + assert (pixman_region32_init_rect 0 0 (width output) (height output)
              = []) as ->; [|simpl; by rewrite andb_false_r].
      unfold pixman_region32_init_rect, wrap32. cbn [x1 x2 y1 y2].
      assert ((2 ^ 31 = 2147483648)%Z ∧ (2 ^ 32 = 4294967296)%Z) as [E1 E2]
        by done.
      rewrite E1 in *. rewrite E2.
      rewrite !Z.add_0_l.
      rewrite !(Z.mod_small (_ + 2147483648) 4294967296) by lia.
      destruct Hz as [Hz|Hz].
      * by destruct (_ <? _)%Z eqn:E; [apply Z.ltb_lt in E; lia|].
      * rewrite andb_comm.
        by destruct (_ <? _)%Z eqn:E; [apply Z.ltb_lt in E; lia|].
Qed.
End rendering_proofs.

Lemma render_texture_calls_witness :
  render_texture output_800x600 damage_two 10 box_0_10 box_0_10 []
  = Ok [wlr_renderer_scissor 99 (Some box_0_8);
        wlr_render_texture_with_matrix 99 10 box_0_10 float_one].
Proof.
  destruct (@render_texture_calls plain output_800x600 damage_two 10 99 box_0_10
              box_0_10 [] eq_refl eq_refl) as (-> & _ & _).
  reflexivity.
Defined.

Lemma render_surface_iterator_spec_witness :
  render_surface_iterator output_800x600 damage_two 10 5 5 []
  = Ok [wlr_renderer_scissor 99 (Some box_5_8);
        wlr_render_texture_with_matrix 99 10 box_5_15 float_one].
Proof.
  destruct (@render_surface_iterator_spec plain output_800x600 damage_two 99 10 5 5
              [] eq_refl) as [-> _].
  reflexivity.
Defined.

Lemma wlr_scene_render_calls_witness :
  wlr_scene_render 4 scene_moved 1 output_800x600 0 0 (Some damage_two) []
  = Ok [wlr_renderer_scissor 99 (Some box_5_8);
        wlr_render_texture_with_matrix 99 10 box_5_15 float_one;
        wlr_renderer_scissor 99 (Some box_0_8);
        wlr_render_texture_with_matrix 99 11 box_0_10 float_one;
        wlr_renderer_scissor 99 None].
Proof.
  apply (@wlr_scene_render_calls plain scene_moved ctree_moved output_800x600 0 0
           (Some damage_two) 99 4 []
           [wlr_renderer_scissor 99 (Some box_5_8);
            wlr_render_texture_with_matrix 99 10 box_5_15 float_one;
            wlr_renderer_scissor 99 (Some box_0_8);
            wlr_render_texture_with_matrix 99 11 box_0_10 float_one]).
  - exact scene_moved_viewed.
  - vm_compute. lia.
  - reflexivity.
  - reflexivity.
  - reflexivity.
  - reflexivity.
  - reflexivity.
  - reflexivity.
  - reflexivity.
Defined.

Lemma wlr_scene_render_nothing_witness :
  wlr_scene_render 4 scene_moved 1 output_off 0 0 None [] = Ok [].
Proof.
  destruct (@wlr_scene_render_nothing plain scene_moved 1 output_off 0 0 None 4 [])
    as [_ Hn].
  apply Hn; [by eexists|by left].
Defined.

(** * Creation of nodes *)

Lemma wl_list_init_dll l h :
  is_Some (load h l) →
  ∃ h', wl_list_init l h = Some h' ∧ dll h' l [] ∧
    (∀ c, c ≠ l → load h' c = load h c) ∧
    (∀ a, node_scalars h' a = node_scalars h a).
Proof.
  intros Hl.
  destruct (wl_list_init_effect l h Hl) as (h' & Hi & Hn & Hp & Hs).
  exists h'. split_and!; [done| | |done].
  - apply dll_nil_linked. split; [rewrite Hn|rewrite Hp]; by rewrite decide_True.
  - intros c Hc. specialize (Hn c). specialize (Hp c).
    rewrite decide_False in Hn, Hp by done.
    unfold load_next, load_prev in Hn, Hp.
    destruct (load h' c) as [[]|], (load h c) as [[]|]; simpl in *;
      congruence.
Qed.

Lemma scene_node_state_init_effect node cm lm h :
  cm ≠ lm →
  is_Some (load h (node, cm)) → is_Some (load h (node, lm)) →
  ∃ h', scene_node_state_init node cm lm h = Some h' ∧
    dll h' (node, cm) [] ∧ dll h' (node, lm) [] ∧
    (∀ c, c ≠ (node, cm) → c ≠ (node, lm) → load h' c = load h c) ∧
    (∀ a, node_scalars h' a = node_scalars h a).
Proof.
  intros Hne Hc Hl.
  destruct (wl_list_init_dll _ h Hc) as (h1 & Hi1 & Hd1 & Hf1 & Hs1).
  assert (Hcl : (node, lm) ≠ (node, cm)) by congruence.
  destruct (wl_list_init_dll (node, lm) h1) as (h2 & Hi2 & Hd2 & Hf2 & Hs2).
  { by rewrite Hf1. }
  exists h2. unfold scene_node_state_init. rewrite Hi1. simpl. rewrite Hi2.
  split_and!; [done| |done| |].
  - eapply dll_frame; [|exact Hd1]. intros c Hc'.
    apply list_elem_of_singleton in Hc' as ->. apply Hf2. congruence.
  - intros c H1 H2. by rewrite Hf2, Hf1.
  - intros a. by rewrite Hs2, Hs1.
Qed.

Lemma load_insert_other h a o c : c.1 ≠ a → load (<[a := o]> h) c = load h c.
Proof. intros Hc. unfold load. by rewrite lookup_insert_ne. Qed.

Lemma load_insert_same h a o m :
  load (<[a := o]> h) (a, m) = get_member m o.
Proof. unfold load. simpl. by rewrite lookup_insert_eq. Qed.

Lemma inner_cells_member t c :
  c ∈ inner_cells t →
  c.2 = current_children ∨ c.2 = pending_children ∨
  c.2 = current_link ∨ c.2 = pending_link.
Proof.
  induction t as [n ts IH] using tree_ind'. simpl. intros Hc.
  apply elem_of_cons in Hc as [->|Hc]; [by left|].
  apply elem_of_cons in Hc as [->|Hc]; [by right; left|].
  apply elem_of_concat_map in Hc as (t' & Ht' & Hc).
  apply elem_of_cons in Hc as [->|Hc]; [by right; right; left|].
  apply elem_of_cons in Hc as [->|Hc]; [by right; right; right|].
  rewrite Forall_forall in IH. by apply (IH t').
Qed.

(** The core of [scene_node_init]: a node [a] that is in no list becomes an
    empty node of type [ty] under [parent]. *)
Lemma scene_node_init_root a nd h :
  node_at h a = Some nd →
  ∃ h', scene_node_init a WLR_SCENE_NODE_ROOT None h = Ok h' ∧
    dll h' (a, current_children) [] ∧ dll h' (a, current_link) [] ∧
    dll h' (a, pending_children) [] ∧ dll h' (a, pending_link) [] ∧
    node_scalars h' a
      = Some (scalars_of (set_type_parent WLR_SCENE_NODE_ROOT None nd)) ∧
    (∀ b, b ≠ a → node_scalars h' b = node_scalars h b) ∧
    (∀ c, c.1 ≠ a → load h' c = load h c).
Proof.
  intros Hnd. unfold scene_node_init.
  rewrite bool_decide_eq_true_2 by (by left).
  cbn [assert mbind result_bind]. rewrite Hnd. cbn [must mbind result_bind].
  set (hT := <[a := Node (set_type_parent WLR_SCENE_NODE_ROOT None nd)]> h).
  destruct (scene_node_state_init_effect a current_children current_link hT)
    as (h1 & -> & Hcc & Hcl & Hf1 & Hs1); [done| | |].
  1,2: unfold hT; rewrite load_insert_same; by eexists.
  cbn [must mbind result_bind].
  destruct (scene_node_state_init_effect a pending_children pending_link h1)
    as (h2 & -> & Hpc & Hpl & Hf2 & Hs2); [done| | |].
  1,2: rewrite Hf1 by congruence; unfold hT; rewrite load_insert_same;
    by eexists.
  cbn [must mbind result_bind]. exists h2.
  split_and!; [done| | |done|done| | |].
  - eapply dll_frame; [|exact Hcc]. intros c Hc.
    apply list_elem_of_singleton in Hc as ->. apply Hf2; congruence.
  - eapply dll_frame; [|exact Hcl]. intros c Hc.
    apply list_elem_of_singleton in Hc as ->. apply Hf2; congruence.
  - rewrite Hs2, Hs1. unfold hT. rewrite node_scalars_insert.
    by rewrite decide_True.
  - intros b Hb. rewrite Hs2, Hs1. unfold hT. rewrite node_scalars_insert.
    by rewrite decide_False.
  - intros c Hc. rewrite Hf2, Hf1.
    + by apply load_insert_other.
    + intros ->. by apply Hc.
    + intros ->. by apply Hc.
    + intros ->. by apply Hc.
    + intros ->. by apply Hc.
Qed.

Lemma scene_node_init_child a nd ty p pend h :
  node_at h a = Some nd →
  p ≠ a → type_of h p = Some WLR_SCENE_NODE_ROOT →
  pending_list h p pend → a ∉ pend →
  ∃ h', scene_node_init a ty (Some p) h = Ok h' ∧
    dll h' (a, current_children) [] ∧ dll h' (a, current_link) [] ∧
    dll h' (a, pending_children) [] ∧
    pending_list h' p (pend ++ [a]) ∧
    node_scalars h' a = Some (scalars_of (set_type_parent ty (Some p) nd)) ∧
    (∀ b, b ≠ a → node_scalars h' b = node_scalars h b) ∧
    (∀ c, c.1 ≠ a → c ∉ (p, pending_children) :: links_of pending_link pend →
          load h' c = load h c) ∧
    (∀ m, m = surface_destroy_link ∨ m = destroy_listener_list →
          load h' (a, m)
          = get_member m (Node (set_type_parent ty (Some p) nd))).
Proof.
  intros Hnd Hpa Hty Hpend Hfresh. unfold scene_node_init.
  rewrite bool_decide_eq_true_2 by (by right).
  cbn [assert mbind result_bind]. rewrite Hty. cbn [must mbind result_bind].
  rewrite bool_decide_eq_true_2 by done.
  cbn [assert mbind result_bind]. rewrite Hnd. cbn [must mbind result_bind].
  set (hT := <[a := Node (set_type_parent ty (Some p) nd)]> h).
  destruct (scene_node_state_init_effect a current_children current_link hT)
    as (h1 & -> & Hcc & Hcl & Hf1 & Hs1); [done| | |].
  1,2: unfold hT; rewrite load_insert_same; by eexists.
  cbn [must mbind result_bind].
  destruct (scene_node_state_init_effect a pending_children pending_link h1)
    as (h2 & -> & Hpc & Hpl & Hf2 & Hs2); [done| | |].
  1,2: rewrite Hf1 by congruence; unfold hT; rewrite load_insert_same;
    by eexists.
  cbn [must mbind result_bind].
  assert (Hout : ∀ c, c.1 ≠ a → load h2 c = load h c).
  { intros c Hc. rewrite Hf2, Hf1.
    - by apply load_insert_other.
    - intros ->. by apply Hc.
    - intros ->. by apply Hc.
    - intros ->. by apply Hc.
    - intros ->. by apply Hc. }
  assert (Hpend2 : pending_list h2 p pend).
  { eapply dll_frame; [|exact Hpend]. intros c Hc. apply Hout.
    apply elem_of_cons in Hc as [->|Hc]; [done|].
    apply elem_of_links_of' in Hc as [_ Hc]. intros E. apply Hfresh.
    by rewrite <- E. }
  destruct (dll_insert_tail h2 (p, pending_children)
              (links_of pending_link pend) (a, pending_link) Hpend2)
    as (t & h3 & Ht & Hins & Hd3 & Hf3 & Hs3).
  { intros Hc. apply elem_of_cons in Hc as [Hc|Hc]; [congruence|].
    apply elem_of_links_of in Hc as [_ Hc]. by apply Hfresh. }
  { eapply dll_alloc; [exact Hpl|]. by left. }
  rewrite Ht. cbn [must mbind result_bind]. rewrite Hins.
  cbn [must mbind result_bind]. exists h3.
  assert (Hkeep : ∀ c, c.1 = a → c.2 ≠ pending_link → load h3 c = load h2 c).
  { intros c Hc Hm. apply Hf3.
    - intros Hin. apply elem_of_cons in Hin as [->|Hin]; [by apply Hpa|].
      apply elem_of_links_of' in Hin as [Hin _]. by apply Hm.
    - intros ->. by apply Hm. }
  split_and!; [done| | | | | | | |].
  - eapply dll_frame; [|eapply dll_frame; [|exact Hcc]].
    + intros c Hc. apply list_elem_of_singleton in Hc as ->. by apply Hkeep.
    + intros c Hc. apply list_elem_of_singleton in Hc as ->.
      apply Hf2; congruence.
  - eapply dll_frame; [|eapply dll_frame; [|exact Hcl]].
    + intros c Hc. apply list_elem_of_singleton in Hc as ->. by apply Hkeep.
    + intros c Hc. apply list_elem_of_singleton in Hc as ->.
      apply Hf2; congruence.
  - eapply dll_frame; [|exact Hpc].
    intros c Hc. apply list_elem_of_singleton in Hc as ->. by apply Hkeep.
  - unfold pending_list. rewrite links_of_app. exact Hd3.
  - rewrite Hs3, Hs2, Hs1. unfold hT. rewrite node_scalars_insert.
    by rewrite decide_True.
  - intros b Hb. rewrite Hs3, Hs2, Hs1. unfold hT.
    rewrite node_scalars_insert. by rewrite decide_False.
  - intros c Hc Hnin. rewrite Hf3; [by apply Hout|done|].
    intros ->. by apply Hc.
  - intros m Hm. rewrite Hkeep; [|done|destruct Hm; simpl; congruence].
    rewrite Hf2, Hf1;
      [unfold hT; by rewrite load_insert_same|
       destruct Hm; congruence..].
Qed.

Lemma calloc_fresh a h :
  h !! a = None →
  calloc (Some a) h = Some (a, <[a := Node zero_node]> h).
Proof. intros Ha. unfold calloc. simpl. by rewrite Ha. Qed.

Lemma load_fresh a m h : h !! a = None → load h (a, m) = None.
Proof. intros Ha. unfold load. simpl. by rewrite Ha. Qed.

Lemma node_scalars_fresh a h : h !! a = None → node_scalars h a = None.
Proof. intros Ha. unfold node_scalars, node_at. by rewrite Ha. Qed.

Lemma dll_not_fresh h head ls a m :
  dll h head ls → h !! a = None → (a, m) ∉ head :: ls.
Proof.
  intros Hd Ha Hin. destruct (dll_alloc _ _ _ _ Hd Hin) as [c Hc].
  by rewrite load_fresh in Hc.
Qed.

(** X7.  [wlr_scene_create]: when the allocator has no memory the result is
    NULL and the heap is as before; when it returns an unused address [a] the
    result is [a], the heap holds a well-formed scene that consists of the
    root [a] alone (type ROOT, no parent, no surface, both positions (0,0),
    no children, links of its own initialised and empty), and nothing that
    was in the heap before is changed. *)
Theorem wlr_scene_create_spec (a : addr) (h : heap) :
  h !! a = None →
  wlr_scene_create None h = Ok (None, h) ∧
  ∃ h', wlr_scene_create (Some a) h = Ok (Some a, h') ∧
    scene_tree h' (Tree a []) ∧
    current_list h' a [] ∧ pending_list h' a [] ∧
    dll h' (a, current_link) [] ∧ dll h' (a, pending_link) [] ∧
    node_scalars h' a = Some (fresh_scalars WLR_SCENE_NODE_ROOT None None) ∧
    (∀ b, b ≠ a → node_scalars h' b = node_scalars h b) ∧
    (∀ c, c.1 ≠ a → load h' c = load h c).
Proof.
  intros Ha. split; [done|].
  unfold wlr_scene_create. rewrite (calloc_fresh a h Ha).
  destruct (scene_node_init_root a zero_node (<[a := Node zero_node]> h))
    as (h' & -> & Hcc & Hcl & Hpc & Hpl & Hs & Hso & Hf).
  { apply node_at_lookup. by rewrite lookup_insert_eq. }
  cbn [mbind result_bind]. exists h'.
  split_and!; [done| |done|done|done|done|done| |].
  - split; [by apply shaped_leaf|]. simpl. apply NoDup_singleton.
  - intros b Hb. rewrite (Hso b Hb), node_scalars_insert.
    by rewrite decide_False.
  - intros c Hc. rewrite (Hf c Hc). by apply load_insert_other.
Qed.

Lemma wlr_scene_create_spec_witness :
  ∃ h', wlr_scene_create (Some 1%positive) two_surfaces = Ok (Some 1%positive, h') ∧
    scene_tree h' (Tree 1 []) ∧
    node_scalars h' 1%positive
      = Some (fresh_scalars WLR_SCENE_NODE_ROOT None None).
Proof.
  destruct (wlr_scene_create_spec 1 two_surfaces eq_refl)
    as (_ & h' & Hc & Ht & _ & _ & _ & _ & Hs & _).
  exists h'. by split_and!.
Defined.

(** The effect of [wlr_scene_surface_create] on a well-formed scene. *)
Lemma surface_create_effect (a p s : addr) (ts : list tree)
    (cur pend subs : list addr) (h : heap) :
  h !! a = None →
  scene_tree h (Tree p ts) →
  type_of h p = Some WLR_SCENE_NODE_ROOT →
  current_list h p cur → pending_list h p pend →
  listeners h s subs →
  ∃ h', wlr_scene_surface_create (Some a) p s h = Ok (Some a, h') ∧
    scene_tree h' (Tree p (ts ++ [Tree a []])) ∧
    pending_list h' p (pend ++ [a]) ∧
    current_list h' p cur ∧ (a ∉ cur) ∧
    listeners h' s (subs ++ [a]) ∧
    node_scalars h' a
      = Some (fresh_scalars WLR_SCENE_NODE_SURFACE (Some p) (Some s)) ∧
    (∀ b, b ≠ a → node_scalars h' b = node_scalars h b) ∧
    (∀ c, c.1 ≠ a →
          c ∉ (p, pending_children) :: links_of pending_link pend →
          c ∉ (s, destroy_listener_list) :: links_of surface_destroy_link subs →
          load h' c = load h c).
Proof.
  intros Ha [Hsh Hnd] Hty Hcur Hpend Hsubs.
  assert (Hpa : p ≠ a).
  { intros ->. unfold type_of in Hty. by rewrite node_scalars_fresh in Hty. }
  assert (Hapend : a ∉ pend).
  { intros Hin. apply (dll_not_fresh _ _ _ a pending_link Hpend Ha).
    right. by apply elem_of_links_of. }
  assert (Hacur : a ∉ cur).
  { intros Hin. apply (dll_not_fresh _ _ _ a current_link Hcur Ha).
    right. by apply elem_of_links_of. }
  assert (Hasubs : (a, surface_destroy_link) ∉
            (s, destroy_listener_list) :: links_of surface_destroy_link subs).
  { by apply (dll_not_fresh _ _ _ a surface_destroy_link Hsubs Ha). }
  assert (Hanodes : a ∉ nodes (Tree p ts)).
  { intros Hin. destruct (shaped_node_at h _ a Hsh Hin) as [nd Hn].
    apply node_at_lookup in Hn. congruence. }
  unfold wlr_scene_surface_create. rewrite (calloc_fresh a h Ha).
  set (h0 := <[a := Node zero_node]> h).
  assert (H0 : ∀ c, c.1 ≠ a → load h0 c = load h c).
  { intros c Hc. by apply load_insert_other. }
  assert (Hs0 : ∀ b, b ≠ a → node_scalars h0 b = node_scalars h b).
  { intros b Hb. unfold h0. rewrite node_scalars_insert.
    by rewrite decide_False. }
  destruct (scene_node_init_child a zero_node WLR_SCENE_NODE_SURFACE p pend h0)
    as (h1 & -> & Hcc & Hcl & Hpc & Hpl & Hs1 & Hso1 & Hf1 & Hm1).
  { apply node_at_lookup. unfold h0. by rewrite lookup_insert_eq. }
  { done. }
  { unfold type_of. by rewrite Hs0. }
  { eapply dll_frame; [|exact Hpend]. intros c Hc. apply H0.
    apply elem_of_cons in Hc as [->|Hc]; [done|].
    apply elem_of_links_of' in Hc as [_ Hc]. intros E. apply Hapend.
    by rewrite <- E. }
  { done. }
  cbn [mbind result_bind].
  destruct (node_at h1 a) as [n1|] eqn:Hn1;
    [|unfold node_scalars in Hs1; by rewrite Hn1 in Hs1].
  cbn [must mbind result_bind].
  set (h2 := <[a := Node (set_surface (Some s) n1)]> h1).
  assert (H2 : ∀ c, load h2 c = load h1 c).
  { intros c. by apply (load_insert_node h1 a n1). }
  assert (Hsc1 : scalars_of n1
    = scalars_of (set_type_parent WLR_SCENE_NODE_SURFACE (Some p) zero_node)).
  { unfold node_scalars in Hs1. rewrite Hn1 in Hs1. simpl in Hs1. congruence. }
  assert (Hty1 : type n1 = WLR_SCENE_NODE_SURFACE).
  { by apply (f_equal s_type) in Hsc1. }
  assert (Hpar1 : parent n1 = Some p).
  { by apply (f_equal s_parent) in Hsc1. }
  assert (Hcp1 : (x (current n1), y (current n1)) = (0, 0)%Z).
  { by apply (f_equal s_current) in Hsc1. }
  assert (Hpp1 : (x (pending n1), y (pending n1)) = (0, 0)%Z).
  { by apply (f_equal s_pending) in Hsc1. }
  assert (Hlist2 : listeners h2 s subs).
  { eapply dll_frame; [|exact Hsubs]. intros c Hc. rewrite H2.
    assert (Hca : c.1 ≠ a).
    { intros E. destruct (dll_alloc _ _ _ _ Hsubs Hc) as [x Hx].
      destruct c as [c1 c2]. simpl in E. subst c1.
      by rewrite load_fresh in Hx. }
    rewrite Hf1, H0; [done|done|done|].
    intros Hin. apply elem_of_cons in Hc as [->|Hc].
    - apply elem_of_cons in Hin as [Hin|Hin]; [congruence|].
      by apply elem_of_links_of in Hin as [? _].
    - apply elem_of_links_of' in Hc as [Hc _].
      apply elem_of_cons in Hin as [->|Hin]; [done|].
      apply elem_of_links_of' in Hin as [Hin _]. congruence. }
  destruct (dll_insert_tail h2 (s, destroy_listener_list)
              (links_of surface_destroy_link subs) (a, surface_destroy_link)
              Hlist2 Hasubs)
    as (t & h3 & Ht & Hins & Hd3 & Hf3 & Hs3).
  { rewrite H2, Hm1 by (by left). simpl. by eexists. }
  unfold wl_signal_add. rewrite Ht. simpl. rewrite Hins.
  cbn [must mbind result_bind]. exists h3.
  assert (Hkeep : ∀ c, c.2 ≠ destroy_listener_list →
            c.2 ≠ surface_destroy_link → load h3 c = load h1 c).
  { intros c Hc1 Hc2. rewrite Hf3, H2; [done| |].
    - intros Hin. apply elem_of_cons in Hin as [->|Hin]; [done|].
      by apply elem_of_links_of' in Hin as [Hin _].
    - by intros ->. }
  assert (Hso3 : ∀ b, b ≠ a → node_scalars h3 b = node_scalars h b).
  { intros b Hb. rewrite Hs3. unfold h2. rewrite node_scalars_insert.
    rewrite decide_False by done. by rewrite Hso1, Hs0. }
  assert (Hframe : ∀ c, c.1 ≠ a →
            c ∉ (p, pending_children) :: links_of pending_link pend →
            c.2 ≠ destroy_listener_list → c.2 ≠ surface_destroy_link →
            load h3 c = load h c).
  { intros c Hc Hnin Hc1 Hc2. by rewrite Hkeep, Hf1, H0. }
  assert (Hcur3 : current_list h3 p cur).
  { eapply dll_frame; [|exact Hcur]. intros c Hc.
    apply elem_of_cons in Hc as [->|Hc].
    - apply Hframe; [done| |done|done].
      intros Hin. apply elem_of_cons in Hin as [Hin|Hin]; [congruence|].
      by apply elem_of_links_of in Hin as [? _].
    - apply elem_of_links_of' in Hc as [Hc2 Hc1]. apply Hframe.
      + intros E. apply Hacur. by rewrite <- E.
      + intros Hin. apply elem_of_cons in Hin as [->|Hin]; [done|].
        apply elem_of_links_of' in Hin as [Hin _]. congruence.
      + congruence.
      + congruence. }
  assert (Hpend3 : pending_list h3 p (pend ++ [a])).
  { eapply dll_frame; [|exact Hpl]. intros c Hc. apply Hkeep.
    - apply elem_of_cons in Hc as [->|Hc]; [done|].
      apply elem_of_links_of' in Hc as [-> _]. done.
    - apply elem_of_cons in Hc as [->|Hc]; [done|].
      apply elem_of_links_of' in Hc as [-> _]. done. }
  assert (Hleaf : ∀ m, m = current_children ∨ m = current_link ∨
                       m = pending_children →
                  dll h1 (a, m) [] → dll h3 (a, m) []).
  { intros m Hm Hd. eapply dll_frame; [|exact Hd]. intros c Hc.
    apply list_elem_of_singleton in Hc as ->.
    apply Hkeep; destruct Hm as [->|[->| ->]]; done. }
  split_and!; [done| |done|done|done| | |done|].
  - inversion Hsh as [n ts' cur' pend' Hcur' Hpend' Hkids Hlc Hlp Hpar Hsub];
      subst n ts'.
    assert (cur' = cur) as -> by (by eapply current_list_functional).
    assert (pend' = pend) as -> by (by eapply pending_list_functional).
    split.
    + apply (shaped_tree h3 p _ cur (pend ++ [a])); [done|done| | | | |].
      * intros k. rewrite fmap_app, !elem_of_app, Hkids. simpl.
        rewrite !list_elem_of_singleton. tauto.
      * intros k Hk Hkc. rewrite fmap_app, elem_of_app in Hk. simpl in Hk.
        rewrite list_elem_of_singleton in Hk. destruct Hk as [Hk| ->].
        -- eapply dll_frame; [|exact (Hlc k Hk Hkc)]. intros c Hc.
           apply list_elem_of_singleton in Hc as ->. apply Hframe.
           ++ simpl. intros ->. apply Hanodes. simpl. right.
              apply elem_of_roots in Hk as (t' & Ht' & <-).
              apply elem_of_concat_map. exists t'. split; [done|].
              apply root_in_nodes.
           ++ intros Hin. apply elem_of_cons in Hin as [Hin|Hin];
                [congruence|].
              by apply elem_of_links_of in Hin as [? _].
           ++ done.
           ++ done.
        -- apply Hleaf; [|done]. by right; left.
      * intros k Hk Hkp. rewrite fmap_app, elem_of_app in Hk. simpl in Hk.
        rewrite list_elem_of_singleton in Hk.
        rewrite elem_of_app, list_elem_of_singleton in Hkp.
        destruct Hk as [Hk| ->]; [|tauto].
        eapply dll_frame; [|apply (Hlp k Hk); tauto]. intros c Hc.
        apply list_elem_of_singleton in Hc as ->. apply Hframe.
        -- simpl. intros ->. tauto.
        -- intros Hin. apply elem_of_cons in Hin as [Hin|Hin];
             [congruence|].
           apply elem_of_links_of in Hin as [_ Hin]. tauto.
        -- done.
        -- done.
      * intros k Hk. rewrite fmap_app, elem_of_app in Hk. simpl in Hk.
        rewrite list_elem_of_singleton in Hk. unfold parent_of.
        destruct Hk as [Hk| ->].
        -- rewrite Hso3; [by apply Hpar|].
           intros ->. apply Hanodes. simpl. right.
           apply elem_of_roots in Hk as (t' & Ht' & <-).
           apply elem_of_concat_map. exists t'. split; [done|].
           apply root_in_nodes.
        -- rewrite Hs3. unfold h2. rewrite node_scalars_insert.
           rewrite decide_True by done. simpl. by rewrite Hpar1.
      * apply Forall_app. split.
        -- rewrite Forall_forall in Hsub. apply Forall_forall.
           intros t' Ht'.
           assert (Hsubn : ∀ b, b ∈ nodes t' → b ≠ a).
           { intros b Hb ->. apply Hanodes. simpl. right.
             apply elem_of_concat_map. by exists t'. }
           apply (shaped_frame t' h h3); [| |by apply Hsub].
           ++ intros c Hc.
              pose proof (elem_of_inner_cells _ _ Hc) as Hc1.
              pose proof (inner_cells_member _ _ Hc) as Hc2.
              apply Hframe.
              ** by apply Hsubn.
              ** intros Hin. apply elem_of_cons in Hin as [->|Hin].
                 --- simpl in Hc1.
                     apply (root_not_in_subtree p ts t'); done.
                 --- apply elem_of_links_of' in Hin as [Hin2 Hin1].
                     (* a pending link of a child of p is no inner cell of
                        another child's subtree *)
                     assert (Hk : c.1 ∈ root <$> ts).
                     { apply Hkids. by right. }
                     apply elem_of_roots in Hk as (t'' & Ht'' & Hr).
                     assert (t'' = t').
                     { destruct (decide (root t'' = root t')) as [E|E].
                       - by apply (roots_NoDup_eq p ts).
                       - exfalso.
                         apply (nodes_disjoint_roots p ts t'' t' c.1);
                           [done..|by rewrite <- Hr; apply root_in_nodes
                           |done]. }
                     subst t''.
                     destruct c as [c1 c2]. simpl in *. subst c1 c2.
                     apply inner_cells_root in Hc as [?|?]; [done|done|].
                     by apply (NoDup_subtree p ts).
              ** destruct Hc2 as [E|[E|[E|E]]]; rewrite E; done.
              ** destruct Hc2 as [E|[E|[E|E]]]; rewrite E; done.
           ++ intros b Hb. unfold parent_of. rewrite Hso3; [done|].
              by apply Hsubn.
        -- apply Forall_singleton. apply shaped_leaf.
           ++ apply (Hleaf current_children); [by left|done].
           ++ apply (Hleaf pending_children); [by right; right|done].
    + simpl. rewrite map_app, concat_app. simpl.
      simpl in Hnd. apply NoDup_cons in Hnd as [Hp Hnd'].
      apply NoDup_cons. split.
      * rewrite elem_of_app, list_elem_of_singleton. intros [?|?]; [done|].
        by apply Hpa.
      * apply NoDup_app. split_and!; [done| |apply NoDup_singleton].
        intros b Hb Hb'. apply list_elem_of_singleton in Hb' as ->.
        apply Hanodes. simpl. by right.
  - unfold listeners. rewrite links_of_app. exact Hd3.
  - rewrite Hs3. unfold h2. rewrite node_scalars_insert.
    rewrite decide_True by done. f_equal.
    unfold scalars_of, fresh_scalars. simpl.
    by rewrite Hty1, Hpar1, Hcp1, Hpp1.
  - intros c Hc Hnp Hns.
    destruct (decide (c = (a, surface_destroy_link))) as [->|Hne]; [done|].
    rewrite Hf3, H2, Hf1, H0; done.
Qed.

(** X8.  [wlr_scene_surface_create(parent, surface)] in a well-formed scene
    whose root [p] is of type ROOT, with an unused address [a] from the
    allocator: the result is [a]; the scene is well-formed again, with the
    new leaf [a] as the last child of [p]; [a] is the last of the pending
    children of [p] and is not among its current children, which are as
    before; [a] is the last subscriber of the destroy signal of [surface];
    it has type SURFACE, parent [p], the surface, and both positions (0,0);
    no other node's members and no cell outside the two lists changes. *)
Theorem wlr_scene_surface_create_spec (a p s : addr) (ts : list tree)
    (cur pend subs : list addr) (h : heap) :
  h !! a = None →
  scene_tree h (Tree p ts) →
  type_of h p = Some WLR_SCENE_NODE_ROOT →
  current_list h p cur → pending_list h p pend →
  listeners h s subs →
  ∃ h', wlr_scene_surface_create (Some a) p s h = Ok (Some a, h') ∧
    scene_tree h' (Tree p (ts ++ [Tree a []])) ∧
    pending_list h' p (pend ++ [a]) ∧
    current_list h' p cur ∧ (a ∉ cur) ∧
    listeners h' s (subs ++ [a]) ∧
    node_scalars h' a
      = Some (fresh_scalars WLR_SCENE_NODE_SURFACE (Some p) (Some s)) ∧
    (∀ b, b ≠ a → node_scalars h' b = node_scalars h b) ∧
    (∀ c, c.1 ≠ a →
          c ∉ (p, pending_children) :: links_of pending_link pend →
          c ∉ (s, destroy_listener_list) :: links_of surface_destroy_link subs →
          load h' c = load h c).
Proof. apply surface_create_effect. Qed.

Lemma scene_RA_tree : scene_tree scene_RA tree_RA.
Proof.
  split; [|compute_done].
  apply (shaped_tree _ 1%positive _ [] [2]%positive).
  - compute_done.
  - compute_done.
  - set_solver.
  - intros k Hk _. simpl in Hk. each_elem Hk; compute_done.
  - intros k Hk Hn. simpl in Hk. set_solver.
  - intros k Hk. simpl in Hk. each_elem Hk; compute_done.
  - repeat constructor; apply shaped_leaf; compute_done.
Qed.

Lemma wlr_scene_surface_create_spec_witness :
  ∃ h', wlr_scene_surface_create (Some 3%positive) 1 11 scene_RA
        = Ok (Some 3%positive, h') ∧
    scene_tree h' tree_RAB ∧ pending_list h' 1 [2; 3]%positive ∧
    current_list h' 1 [] ∧ listeners h' 11 [3%positive].
Proof.
  destruct (wlr_scene_surface_create_spec 3 1 11 [Tree 2 []] [] [2]%positive
              [] scene_RA)
    as (h' & Hc & Ht & Hp & Hcu & _ & Hl & _);
    [reflexivity|exact scene_RA_tree|reflexivity|compute_done|compute_done
    |compute_done|].
  exists h'. by split_and!.
Defined.

(** X9.  What the creation of a surface node does when it cannot succeed.
    Without memory the result is NULL, the heap is untouched, and the parent
    is not looked at.  With memory, a parent that is a surface node fails
    the assertion of [scene_node_init] (the process aborts), and so does a
    surface node without a parent; a parent that is no node in the heap is
    read all the same, which is undefined behaviour. *)
Theorem wlr_scene_surface_create_errors (a p s : addr) (h : heap) :
  h !! a = None →
  wlr_scene_surface_create None p s h = Ok (None, h) ∧
  (type_of h p = Some WLR_SCENE_NODE_SURFACE →
   wlr_scene_surface_create (Some a) p s h = Fail assertion_failure) ∧
  (p ≠ a → node_at h p = None →
   wlr_scene_surface_create (Some a) p s h = Fail undefined_behaviour) ∧
  scene_node_init a WLR_SCENE_NODE_SURFACE None (<[a := Node zero_node]> h)
  = Fail assertion_failure.
Proof.
  intros Ha. split_and!; [done| | |].
  - intros Hty.
    assert (Hpa : p ≠ a).
    { intros ->. unfold type_of in Hty.
      by rewrite node_scalars_fresh in Hty. }
    unfold wlr_scene_surface_create. rewrite (calloc_fresh a h Ha).
    unfold scene_node_init.
    rewrite bool_decide_eq_true_2 by (by right).
    cbn [assert mbind result_bind]. unfold type_of.
    rewrite node_scalars_insert, decide_False by done.
    unfold type_of in Hty. rewrite Hty. cbn [must mbind result_bind].
    by rewrite bool_decide_eq_false_2.
  - intros Hpa Hp.
    unfold wlr_scene_surface_create. rewrite (calloc_fresh a h Ha).
    unfold scene_node_init.
    rewrite bool_decide_eq_true_2 by (by right).
    cbn [assert mbind result_bind]. unfold type_of.
    rewrite node_scalars_insert, decide_False by done.
    unfold node_scalars. by rewrite Hp.
  - unfold scene_node_init. rewrite bool_decide_eq_false_2; [done|].
    intros [?|?]; done.
Qed.

Lemma wlr_scene_surface_create_errors_witness :
  wlr_scene_surface_create (Some 3%positive) 2 11 scene_RA
  = Fail assertion_failure.
Proof.
  destruct (wlr_scene_surface_create_errors 3 2 11 scene_RA eq_refl)
    as (_ & Hs & _).
  apply Hs. reflexivity.
Defined.

Lemma committed_order_fresh (cur pend : list addr) (a : addr) :
  a ∉ cur →
  committed_order cur (pend ++ [a]) = committed_order cur pend ++ [a].
Proof.
  intros Ha. unfold committed_order. rewrite app_assoc. f_equal. f_equal.
  induction cur as [|k cur IH]; [done|].
  apply not_elem_of_cons in Ha as [Hk Ha].
  rewrite !filter_cons, (IH Ha).
  destruct (decide (k ∉ pend ++ [a])) as [H1|H1],
    (decide (k ∉ pend)) as [H2|H2]; [done| | |done]; exfalso.
  - apply H2. intros Hin. apply H1. rewrite elem_of_app. by left.
  - apply H1. rewrite elem_of_app, list_elem_of_singleton. intros [?|?]; done.
Qed.

(** X10.  A surface node takes effect at the next commit of its parent:
    created under the root [p] of a well-formed scene it is not among the
    current children of [p]; after [wlr_scene_node_commit(p)] it is the last
    of them (the topmost), behind the children that were there, its own
    position is (0,0), it has no children, and the scene is well-formed. *)
Theorem create_then_commit (a p s : addr) (ts : list tree)
    (cur pend subs : list addr) (h : heap) (fuel : nat) :
  h !! a = None →
  scene_tree h (Tree p ts) →
  type_of h p = Some WLR_SCENE_NODE_ROOT →
  current_list h p cur → pending_list h p pend →
  listeners h s subs →
  size (Tree p ts) + 1 < fuel →
  ∃ h1 h2,
    wlr_scene_surface_create (Some a) p s h = Ok (Some a, h1) ∧
    current_list h1 p cur ∧ (a ∉ cur) ∧
    wlr_scene_node_commit fuel p h1 = Ok h2 ∧
    current_list h2 p (committed_order cur pend ++ [a]) ∧
    pending_list h2 p (pend ++ [a]) ∧
    current_pos h2 a = Some (0, 0)%Z ∧
    current_list h2 a [] ∧
    scene_tree h2 (Tree p (ts ++ [Tree a []])).
Proof.
  intros Ha Ht Hty Hcur Hpend Hsubs Hfuel.
  destruct (surface_create_effect a p s ts cur pend subs h
              Ha Ht Hty Hcur Hpend Hsubs)
    as (h1 & Hc & [Hsh1 Hnd1] & Hp1 & Hc1 & Hacur & Hl1 & Hs1 & _).
  set (t1 := Tree p (ts ++ [Tree a []])) in *.
  assert (Hsz : size t1 < fuel).
  { unfold size, t1 in *. simpl in *. rewrite map_app, concat_app.
    simpl. rewrite !length_app. simpl. lia. }
  destruct (commit_correct fuel t1 h1 Hsh1 Hnd1 Hsz cur (pend ++ [a])
              Hc1 Hp1)
    as (hm & h2 & Hcm & _ & _ & _ & Hsh2 & Hfr & Hcd).
  exists h1, h2.
  assert (Hain : a ∈ nodes t1).
  { unfold t1. simpl. right. rewrite map_app, concat_app. simpl.
    rewrite elem_of_app. right. by left. }
  assert (Hpin : p ∈ nodes t1) by (by left).
  destruct (commit_frame_pending h1 h2 t1 Hnd1 Hfr) as (Hpp & Hpc & Hpl).
  split_and!; [done|done|done|done| | | | |done].
  - destruct (committed_node h1 h2 t1 p Hcd Hpin)
      as (cur' & pend' & Hc' & Hp' & _ & _ & Hc2).
    assert (cur' = cur) as -> by (by eapply current_list_functional).
    assert (pend' = pend ++ [a]) as ->
      by (by eapply pending_list_functional).
    by rewrite committed_order_fresh in Hc2.
  - by apply (pending_list_frame h1 h2).
  - destruct (committed_node h1 h2 t1 a Hcd Hain)
      as (_ & _ & _ & _ & Hpos & _ & _).
    rewrite Hpos. unfold pending_pos. by rewrite Hs1.
  - destruct (committed_node h1 h2 t1 a Hcd Hain)
      as (cur' & pend' & Hc' & Hp' & _ & _ & Hc2).
    pose proof Hsh1 as Hsh1'. unfold t1 in Hsh1'.
    inversion Hsh1' as [n ts' cur1 pend1 ? ? ? ? ? ? Hsub]; subst n ts'.
    rewrite Forall_app, Forall_singleton in Hsub.
    destruct Hsub as [_ Hleaf].
    inversion Hleaf as [n ts' cur2 pend2 Hcu2 Hpe2 Hk2 ? ? ? ?];
      subst n ts'.
    assert (cur2 = []).
    { destruct cur2 as [|k ?]; [done|]. exfalso.
      assert (Hk : k ∈ root <$> ([] : list tree)) by (apply Hk2; left; by left).
      by apply elem_of_nil in Hk. }
    assert (pend2 = []).
    { destruct pend2 as [|k ?]; [done|]. exfalso.
      assert (Hk : k ∈ root <$> ([] : list tree)) by (apply Hk2; right; by left).
      by apply elem_of_nil in Hk. }
    subst cur2 pend2.
    assert (cur' = []) as -> by (by eapply current_list_functional).
    assert (pend' = []) as -> by (by eapply pending_list_functional).
    exact Hc2.
Qed.

Lemma create_then_commit_witness :
  ∃ h1 h2,
    wlr_scene_surface_create (Some 3%positive) 1 11 scene_RA
    = Ok (Some 3%positive, h1) ∧
    wlr_scene_node_commit 4 1 h1 = Ok h2 ∧
    current_list h2 1 [2; 3]%positive.
Proof.
  destruct (create_then_commit 3 1 11 [Tree 2 []] [] [2]%positive [] scene_RA
              4)
    as (h1 & h2 & Hc & _ & _ & Hcm & Hl & _);
    [reflexivity|exact scene_RA_tree|reflexivity|compute_done|compute_done
    |compute_done|vm_compute; lia|].
  exists h1, h2. by split_and!.
Defined.

(** * Destruction *)

(** ** Inventories *)

Lemma all_cells_cons (p : loc * list loc) (L : inventory) :
  all_cells (p :: L) = p.1 :: p.2 ++ all_cells L.
Proof. done. Qed.

Lemma elem_of_all_cells (L : inventory) c :
  c ∈ all_cells L ↔ ∃ p, p ∈ L ∧ c ∈ p.1 :: p.2.
Proof.
  unfold all_cells. apply elem_of_concat_map.
Qed.

Lemma elem_of_without DN X (L : inventory) q :
  q ∈ without DN X L ↔
  ∃ p, p ∈ L ∧ (p.1.1 ∉ DN) ∧ (p.1 ∉ X) ∧
       q = (p.1, filter (λ c, (c.1 ∉ DN) ∧ (c ∉ X)) p.2).
Proof.
  unfold without. rewrite list_elem_of_fmap. split.
  - intros (p & -> & Hp). apply list_elem_of_filter in Hp as [[? ?] ?].
    by exists p.
  - intros (p & Hp & H1 & H2 & ->). exists p. split; [done|].
    apply list_elem_of_filter. done.
Qed.

Lemma without_cons DN X p (L : inventory) :
  without DN X (p :: L)
  = if decide ((p.1.1 ∉ DN) ∧ (p.1 ∉ X))
    then (p.1, filter (λ c, (c.1 ∉ DN) ∧ (c ∉ X)) p.2) :: without DN X L
    else without DN X L.
Proof. unfold without. rewrite filter_cons. by destruct (decide _). Qed.

Lemma all_cells_without DN X (L : inventory) c :
  c ∈ all_cells (without DN X L) →
  c ∈ all_cells L ∧ (c.1 ∉ DN) ∧ (c ∉ X).
Proof.
  rewrite !elem_of_all_cells. intros (q & Hq & Hc).
  apply elem_of_without in Hq as (p & Hp & H1 & H2 & ->). simpl in Hc.
  apply elem_of_cons in Hc as [->|Hc].
  - split; [|done]. exists p. split; [done|]. by left.
  - apply list_elem_of_filter in Hc as [[? ?] Hc].
    split; [|done]. exists p. split; [done|]. by right.
Qed.

Lemma NoDup_without DN X (L : inventory) :
  NoDup (all_cells L) → NoDup (all_cells (without DN X L)).
Proof.
  induction L as [|p L IH]; [done|].
  rewrite all_cells_cons, without_cons. intros Hnd.
  apply NoDup_cons in Hnd as [Hhd Hnd].
  apply NoDup_app in Hnd as (Hels & Hdis & HL).
  destruct (decide _) as [_|_]; [|by apply IH].
  rewrite all_cells_cons. simpl. apply NoDup_cons. split.
  - rewrite elem_of_app. intros [Hin|Hin].
    + apply list_elem_of_filter in Hin as [_ Hin]. apply Hhd.
      rewrite elem_of_app. by left.
    + apply all_cells_without in Hin as [Hin _]. apply Hhd.
      rewrite elem_of_app. by right.
  - apply NoDup_app. split_and!.
    + by apply NoDup_filter.
    + intros c Hc Hc'. apply list_elem_of_filter in Hc as [_ Hc].
      apply all_cells_without in Hc' as [Hc' _]. by apply (Hdis c).
    + by apply IH.
Qed.

Lemma filter_ext_in {A} (P Q : A → Prop) `{∀ x, Decision (P x)}
    `{∀ x, Decision (Q x)} (l : list A) :
  (∀ x, x ∈ l → P x ↔ Q x) → filter P l = filter Q l.
Proof.
  induction l as [|a l IH]; intros Hl; [done|].
  rewrite !filter_cons.
  rewrite IH by (intros x Hx; apply Hl; by right).
  destruct (decide (P a)) as [HP|HP], (decide (Q a)) as [HQ|HQ];
    [done| | |done]; exfalso.
  - apply HQ, (Hl a); [by left|done].
  - apply HP, (Hl a); [by left|done].
Qed.

Lemma without_ext DN1 X1 DN2 X2 (L : inventory) :
  (∀ c, c ∈ all_cells L →
        (c.1 ∉ DN1) ∧ (c ∉ X1) ↔ (c.1 ∉ DN2) ∧ (c ∉ X2)) →
  without DN1 X1 L = without DN2 X2 L.
Proof.
  induction L as [|p L IH]; intros Hext; [done|].
  rewrite !without_cons.
  assert (Hp : ∀ c, c ∈ p.1 :: p.2 →
            (c.1 ∉ DN1) ∧ (c ∉ X1) ↔ (c.1 ∉ DN2) ∧ (c ∉ X2)).
  { intros c Hc. apply Hext. rewrite all_cells_cons.
    apply elem_of_cons in Hc as [->|Hc]; [by left|].
    right. rewrite elem_of_app. by left. }
  rewrite IH.
  2:{ intros c Hc. apply Hext. rewrite all_cells_cons. right.
      rewrite elem_of_app. by right. }
  rewrite (filter_ext_in (λ c, (c.1 ∉ DN1) ∧ (c ∉ X1))
             (λ c, (c.1 ∉ DN2) ∧ (c ∉ X2)) p.2).
  2:{ intros c Hc. apply Hp. by right. }
  destruct (decide ((p.1.1 ∉ DN1) ∧ (p.1 ∉ X1))) as [H1|H1],
    (decide ((p.1.1 ∉ DN2) ∧ (p.1 ∉ X2))) as [H2|H2];
    [done| | |done]; exfalso.
  - apply H2, (Hp p.1); [by left|done].
  - apply H1, (Hp p.1); [by left|done].
Qed.

Lemma without_without DN1 X1 DN2 X2 (L : inventory) :
  without DN2 X2 (without DN1 X1 L) = without (DN1 ++ DN2) (X1 ++ X2) L.
Proof.
  induction L as [|p L IH]; [done|].
  rewrite (without_cons DN1), (without_cons (DN1 ++ DN2)).
  destruct (decide ((p.1.1 ∉ DN1) ∧ (p.1 ∉ X1))) as [H1|H1].
  - rewrite without_cons. simpl. rewrite IH.
    rewrite list_filter_filter.
    rewrite (filter_ext_in
               (λ c, ((c.1 ∉ DN2) ∧ (c ∉ X2)) ∧ (c.1 ∉ DN1) ∧ (c ∉ X1))
               (λ c, (c.1 ∉ DN1 ++ DN2) ∧ (c ∉ X1 ++ X2)) p.2).
    2:{ intros c _. rewrite !elem_of_app. tauto. }
    destruct (decide ((p.1.1 ∉ DN2) ∧ (p.1 ∉ X2))) as [H2|H2],
      (decide ((p.1.1 ∉ DN1 ++ DN2) ∧ (p.1 ∉ X1 ++ X2))) as [H3|H3];
      [done| | |done]; exfalso.
    + apply H3. rewrite !elem_of_app. tauto.
    + apply H2. rewrite !elem_of_app in H3. tauto.
  - rewrite IH. rewrite decide_False; [done|].
    rewrite !elem_of_app. tauto.
Qed.

Lemma without_nil (L : inventory) : without [] [] L = L.
Proof.
  induction L as [|[hd els] L IH]; [done|].
  rewrite without_cons, IH.
  destruct (decide _) as [_|Hn];
    [|exfalso; apply Hn; split; apply not_elem_of_nil].
  cbn [fst snd]. f_equal. f_equal. induction els as [|c els IHe]; [done|].
  rewrite filter_cons, IHe.
  destruct (decide _) as [_|Hn]; [done|].
  exfalso; apply Hn; split; apply not_elem_of_nil.
Qed.

(** A cell is in one list of the inventory only. *)
Lemma lists_disjoint (L : inventory) p q c :
  NoDup (all_cells L) → p ∈ L → q ∈ L →
  c ∈ p.1 :: p.2 → c ∈ q.1 :: q.2 → p = q.
Proof.
  induction L as [|r L IH]; intros Hnd Hp Hq Hcp Hcq;
    [by apply elem_of_nil in Hp|].
  rewrite all_cells_cons in Hnd.
  change (NoDup ((r.1 :: r.2) ++ all_cells L)) in Hnd.
  apply NoDup_app in Hnd as (Hr & Hdis & HL).
  apply elem_of_cons in Hp as [->|Hp], Hq as [->|Hq].
  - done.
  - exfalso. apply (Hdis c Hcp). apply elem_of_all_cells. eauto.
  - exfalso. apply (Hdis c Hcq). apply elem_of_all_cells. eauto.
  - by apply IH.
Qed.

Lemma lists_ok_dll h (L : inventory) hd els :
  lists_ok h L → (hd, els) ∈ L → dll h hd els.
Proof.
  intros [HL _] Hin. rewrite Forall_forall in HL. by apply (HL (hd, els)).
Qed.

Lemma lists_ok_alloc h (L : inventory) c :
  lists_ok h L → c ∈ all_cells L → is_Some (load h c).
Proof.
  intros HL Hc. apply elem_of_all_cells in Hc as ([hd els] & Hp & Hc).
  eapply dll_alloc; [by eapply lists_ok_dll|done].
Qed.

(** ** The steps of a destruction on an inventory *)

Lemma store_dom l c h h' a :
  store l c h = Some h' → h' !! a = None ↔ h !! a = None.
Proof.
  unfold store. destruct (h !! l.1) as [o|] eqn:Ho; [|done]. simpl.
  destruct (set_member l.2 c o) as [o'|]; [|done]. simpl. intros [= <-].
  destruct (decide (a = l.1)) as [->|Hne].
  - rewrite lookup_insert_eq, Ho. split; done.
  - by rewrite lookup_insert_ne.
Qed.

Lemma store_next_dom l v h h' a :
  store_next l v h = Some h' → h' !! a = None ↔ h !! a = None.
Proof.
  unfold store_next. destruct (load h l); [|done]. simpl. apply store_dom.
Qed.

Lemma store_prev_dom l v h h' a :
  store_prev l v h = Some h' → h' !! a = None ↔ h !! a = None.
Proof.
  unfold store_prev. destruct (load h l); [|done]. simpl. apply store_dom.
Qed.

Lemma wl_list_remove_dom e h h' a :
  wl_list_remove e h = Some h' → h' !! a = None ↔ h !! a = None.
Proof.
  unfold wl_list_remove. intros H.
  destruct e as [e|]; [|done]. simpl in H.
  destruct (load_prev h e) as [[p|]|]; [|done..]. simpl in H.
  destruct (load_next h e) as [en|]; [|done]. simpl in H.
  destruct (store_next p en h) as [h1|] eqn:H1; [|done]. simpl in H.
  destruct (load_next h1 e) as [[n|]|]; [|done..]. simpl in H.
  destruct (load_prev h1 e) as [ep|]; [|done]. simpl in H.
  destruct (store_prev n ep h1) as [h2|] eqn:H2; [|done]. simpl in H.
  destruct (store_next e None h2) as [h3|] eqn:H3; [|done]. simpl in H.
  rewrite (store_prev_dom _ _ _ _ a H), (store_next_dom _ _ _ _ a H3),
    (store_prev_dom _ _ _ _ a H2). by apply (store_next_dom _ _ _ _ a H1).
Qed.

Lemma filter_all {A} (P : A → Prop) `{∀ x, Decision (P x)} (l : list A) :
  (∀ x, x ∈ l → P x) → filter P l = l.
Proof.
  induction l as [|a l IH]; intros Hl; [done|].
  rewrite filter_cons, decide_True by (apply Hl; by left).
  f_equal. apply IH. intros x Hx. apply Hl. by right.
Qed.

Lemma filter_out_mid (X : list loc) (DN : list addr) (l1 l2 : list loc) e :
  NoDup (l1 ++ e :: l2) →
  filter (λ c, (c.1 ∉ ([] : list addr)) ∧ (c ∉ [e])) (l1 ++ e :: l2)
  = l1 ++ l2.
Proof.
  intros Hnd. apply NoDup_app in Hnd as (_ & H1 & Hnd).
  apply NoDup_cons in Hnd as [H2 _].
  rewrite filter_app, filter_cons.
  destruct (decide _) as [[_ Hn]|_];
    [exfalso; apply Hn; by apply list_elem_of_singleton|].
  f_equal.
  - apply filter_all. intros c Hc.
    split; [apply not_elem_of_nil|]. rewrite list_elem_of_singleton.
    intros ->. apply (H1 e Hc). by left.
  - apply filter_all. intros c Hc.
    split; [apply not_elem_of_nil|]. rewrite list_elem_of_singleton.
    by intros ->.
Qed.

Lemma filter_out_absent (els : list loc) e :
  e ∉ els →
  filter (λ c, (c.1 ∉ ([] : list addr)) ∧ (c ∉ [e])) els = els.
Proof.
  intros He. apply filter_all. intros c Hc.
  split; [apply not_elem_of_nil|]. rewrite list_elem_of_singleton.
  by intros ->.
Qed.

(** [wl_list_remove] of an element of a list of the inventory. *)
Lemma lists_ok_remove h (L : inventory) hd els e :
  lists_ok h L → (hd, els) ∈ L → e ∈ els →
  ∃ h', wl_list_remove (Some e) h = Some h' ∧
    lists_ok h' (without [] [e] L) ∧
    (∀ a, node_scalars h' a = node_scalars h a) ∧
    (∀ a, h' !! a = None ↔ h !! a = None).
Proof.
  intros HL Hin He. pose proof HL as [HLd HLn].
  pose proof (lists_ok_dll h L hd els HL Hin) as Hd.
  apply list_elem_of_split in He as (l1 & l2 & ->).
  destruct (dll_remove h hd l1 e l2 Hd) as (h' & Hr & Hd' & _ & Hf & Hs).
  exists h'. split_and!; [done| |done|intros a; by eapply wl_list_remove_dom].
  split; [|by apply NoDup_without].
  apply Forall_forall. intros q Hq.
  apply elem_of_without in Hq as (p & Hp & _ & Hpe & ->). simpl.
  destruct (decide (p = (hd, l1 ++ e :: l2))) as [->|Hne].
  - simpl. rewrite (filter_out_mid [] []); [done|].
    destruct Hd as [_ Hnd]. by apply NoDup_cons in Hnd as [_ ?].
  - assert (Hdis : ∀ c, c ∈ p.1 :: p.2 → c ∉ hd :: l1 ++ e :: l2).
    { intros c Hc Hc'. apply Hne.
      by apply (lists_disjoint L p (hd, l1 ++ e :: l2) c). }
    rewrite filter_out_absent.
    2:{ intros Hc. apply (Hdis e); [by right|]. right.
        rewrite elem_of_app. right. by left. }
    rewrite Forall_forall in HLd.
    eapply dll_frame; [|by apply (HLd p)]. intros c Hc. apply Hf.
    + intros Hc'. apply (Hdis c Hc).
      apply elem_of_cons in Hc' as [->|Hc']; [by left|]. right.
      rewrite elem_of_app in Hc'. rewrite elem_of_app.
      destruct Hc' as [?|?]; [by left|by right; right].
    + intros ->. apply (Hdis e Hc). right. rewrite elem_of_app. right.
      by left.
Qed.

(** [wl_list_remove] of a link that is initialised and empty. *)
Lemma lists_ok_remove_self h (L : inventory) e :
  lists_ok h L → (e, []) ∈ L →
  ∃ h', wl_list_remove (Some e) h = Some h' ∧
    lists_ok h' (without [] [e] L) ∧
    (∀ a, node_scalars h' a = node_scalars h a) ∧
    (∀ a, h' !! a = None ↔ h !! a = None).
Proof.
  intros HL Hin. pose proof HL as [HLd HLn].
  pose proof (lists_ok_dll h L e [] HL Hin) as Hd.
  destruct (dll_remove_self h e Hd) as (h' & Hr & _ & Hf & Hs).
  exists h'. split_and!; [done| |done|intros a; by eapply wl_list_remove_dom].
  split; [|by apply NoDup_without].
  apply Forall_forall. intros q Hq.
  apply elem_of_without in Hq as (p & Hp & _ & Hpe & ->). simpl.
  assert (Hdis : ∀ c, c ∈ p.1 :: p.2 → c ≠ e).
  { intros c Hc ->. apply Hpe. apply list_elem_of_singleton.
    assert (p = (e, [])) as ->; [|done].
    apply (lists_disjoint L p (e, []) e); [done..|by left]. }
  rewrite filter_out_absent.
  2:{ intros Hc. apply (Hdis e); [by right|done]. }
  rewrite Forall_forall in HLd.
  eapply dll_frame; [|by apply (HLd p)]. intros c Hc. apply Hf.
  by apply Hdis.
Qed.

(** [free] of a node none of whose cells is an element of a list. *)
Lemma lists_ok_free h (L : inventory) a :
  lists_ok h L →
  (∀ p c, p ∈ L → c ∈ p.2 → c.1 ≠ a) →
  lists_ok (delete a h) (without [a] [] L).
Proof.
  intros [HLd HLn] Hels. split; [|by apply NoDup_without].
  apply Forall_forall. intros q Hq.
  apply elem_of_without in Hq as (p & Hp & Hpa & _ & ->). simpl.
  rewrite filter_all.
  2:{ intros c Hc.
      split; [|apply not_elem_of_nil]. rewrite list_elem_of_singleton.
      by apply (Hels p). }
  rewrite Forall_forall in HLd.
  eapply dll_frame; [|by apply (HLd p)]. intros c Hc.
  unfold load. rewrite lookup_delete_ne; [done|].
  apply elem_of_cons in Hc as [->|Hc].
  - intros E. apply Hpa. rewrite E. by left.
  - intros E. by apply (Hels p c).
Qed.

(** A link that is attached in the inventory [L0] is unlinked from what is
    left of it. *)
Lemma unlink_attached (L0 : inventory) h DN X e :
  NoDup (all_cells L0) →
  lists_ok h (without DN X L0) →
  (e, []) ∈ L0 ∨
    (∃ hd els, (hd, els) ∈ L0 ∧ e ∈ els ∧ (hd.1 ∉ DN) ∧ (hd ∉ X)) →
  e.1 ∉ DN → e ∉ X →
  ∃ h', wl_list_remove (Some e) h = Some h' ∧
    lists_ok h' (without DN (X ++ [e]) L0) ∧
    (∀ a, node_scalars h' a = node_scalars h a) ∧
    (∀ a, h' !! a = None ↔ h !! a = None).
Proof.
  intros Hnd HL Hatt He1 He2.
  assert (Hgoal : ∀ h',
    lists_ok h' (without [] [e] (without DN X L0)) →
    lists_ok h' (without DN (X ++ [e]) L0)).
  { intros h'. by rewrite without_without, app_nil_r. }
  destruct Hatt as [Hself|(hd & els & Hin & He & Hhd1 & Hhd2)].
  - destruct (lists_ok_remove_self h (without DN X L0) e HL)
      as (h' & Hr & HL' & Hs & Hdom).
    { apply elem_of_without. exists (e, []). by split_and!. }
    exists h'. split_and!; [done|by apply Hgoal|done|done].
  - destruct (lists_ok_remove h (without DN X L0) hd
                (filter (λ c, (c.1 ∉ DN) ∧ (c ∉ X)) els) e HL)
      as (h' & Hr & HL' & Hs & Hdom).
    { apply elem_of_without. exists (hd, els). by split_and!. }
    { apply list_elem_of_filter. done. }
    exists h'. split_and!; [done|by apply Hgoal|done|done].
Qed.

Lemma filter_links m (DN : list addr) (ks : list addr) :
  filter (λ c : loc, (c.1 ∉ DN) ∧ (c ∉ ([] : list loc))) (links_of m ks)
  = links_of m (filter (λ k, k ∉ DN) ks).
Proof.
  induction ks as [|k ks IH]; [done|].
  unfold links_of in *. rewrite fmap_cons, !filter_cons, IH. simpl.
  destruct (decide (k ∉ DN)) as [Hk|Hk].
  - rewrite decide_True; [done|]. split; [done|apply not_elem_of_nil].
  - rewrite decide_False; [done|]. tauto.
Qed.

Lemma survives_list (L0 : inventory) h0 h DN n hm lm ks :
  survives L0 h0 h DN →
  ((n, hm), links_of lm ks) ∈ L0 → n ∉ DN →
  dll h (n, hm) (links_of lm (filter (λ k, k ∉ DN) ks)).
Proof.
  intros (HL & _ & _) Hin Hn. rewrite <- filter_links.
  apply (lists_ok_dll h (without DN [] L0)); [done|].
  apply elem_of_without. exists ((n, hm), links_of lm ks).
  split_and!; [done|done|apply not_elem_of_nil|done].
Qed.

Lemma held_node_at (L0 : inventory) h0 t m :
  held L0 h0 t → m ∈ nodes t → is_Some (node_at h0 m).
Proof.
  induction t as [n ts IH] using tree_ind'. intros Hh Hm.
  inversion Hh as [n' ts' cur pend ty Hty _ _ _ _ _ _ Hsub]; subst n' ts'.
  simpl in Hm. apply elem_of_cons in Hm as [->|Hm].
  - unfold type_of, node_scalars in Hty.
    destruct (node_at h0 n); [by eexists|done].
  - apply elem_of_concat_map in Hm as (t' & Ht' & Hm).
    rewrite Forall_forall in IH, Hsub.
    apply (IH t' Ht'); [by apply Hsub|done].
Qed.

Section children.
Variable L0 : inventory.
Variable h0 : heap.
Variable fuel : nat.
Hypothesis IH : destroys L0 h0 fuel.

(** One of the two loops of [scene_node_finish]: the children [tsx] are
    destroyed one after the other. *)
Lemma destroy_children (n : addr) (hm lm : member) (ks0 : list addr)
    (tsx : list tree) (DN : list addr) (h : heap)
    (ev : list teardown_event) :
  hm ≠ lm →
  ((n, hm), links_of lm ks0) ∈ L0 →
  n ∉ DN ++ concat (map nodes tsx) →
  (∀ done rem, tsx = done ++ rem →
     filter (λ k, k ∉ DN ++ concat (map nodes done)) ks0 = root <$> rem) →
  Forall (held L0 h0) tsx →
  NoDup (concat (map nodes tsx)) →
  Forall (λ t, size t < fuel) tsx → length tsx < fuel →
  (∀ m, m ∈ concat (map nodes tsx) → m ∉ DN) →
  (∀ a, a ∈ DN → is_Some (node_at h0 a)) →
  (∀ done t rem, tsx = done ++ t :: rem →
     attached L0 (DN ++ concat (map nodes done)) t (root t, current_link) ∧
     attached L0 (DN ++ concat (map nodes done)) t (root t, pending_link)) →
  survives L0 h0 h DN →
  ∃ h', wl_list_for_each_safe fst lm (n, hm)
          (λ child, wlr_scene_node_destroy fuel (Some child)) fuel (h, ev)
        = Ok (h', ev ++ concat (map teardown_events tsx)) ∧
    survives L0 h0 h' (DN ++ concat (map nodes tsx)).
Proof using IH.
  intros Hml Hin Hn Hrem Hheld Hnd Hsz Hlen Hfresh HDN Hatt Hsurv.
  set (Inv := λ (ks : list addr) (s : heap * list teardown_event),
    ∃ done rem, tsx = done ++ rem ∧ ks = root <$> rem ∧
      survives L0 h0 s.1 (DN ++ concat (map nodes done)) ∧
      s.2 = ev ++ concat (map teardown_events done)).
  assert (Hlist : ∀ ks s, Inv ks s → dll s.1 (n, hm) (links_of lm ks)).
  { intros ks s (done & rem & -> & -> & Hs & _).
    rewrite <- (Hrem done rem eq_refl).
    apply (survives_list L0 h0); [done|done|].
    intros Hc. apply Hn. rewrite map_app, concat_app.
    rewrite !elem_of_app in *. tauto. }
  destruct (wl_list_for_each_safe_rule fst lm (n, hm)
              (λ child, wlr_scene_node_destroy fuel (Some child)) Inv)
    with (fuel := fuel) (ks := root <$> tsx) (s := (h, ev))
    as (s' & Hrun & _ & (done & rem & Hts & Hrem' & Hs' & Hev')).
  - intros k ks s HI. split; [congruence|].
    destruct HI as (done & rem & -> & Hks & Hs & Hev).
    destruct rem as [|t rem]; [done|]. simpl in Hks.
    injection Hks as -> ->.
    rewrite Forall_forall in Hheld, Hsz.
    destruct (Hatt done t rem eq_refl) as [Ha1 Ha2].
    destruct (IH t (DN ++ concat (map nodes done)) s.1 s.2)
      as (h' & Hd & Hs'); [..|done|done|done|].
    + apply Hheld. rewrite elem_of_app. right. by left.
    + rewrite map_app, concat_app in Hnd. simpl in Hnd.
      apply NoDup_app in Hnd as (_ & _ & Hnd).
      by apply NoDup_app in Hnd as (Hnd & _ & _).
    + apply Hsz. rewrite elem_of_app. right. by left.
    + intros m Hm. rewrite elem_of_app. intros [Hc|Hc].
      * apply (Hfresh m); [|done]. rewrite map_app, concat_app. simpl.
        rewrite !elem_of_app. tauto.
      * rewrite map_app, concat_app in Hnd. simpl in Hnd.
        apply NoDup_app in Hnd as (_ & Hdis & _). apply (Hdis m Hc).
        rewrite elem_of_app. by left.
    + intros a. rewrite elem_of_app. intros [Ha|Ha]; [by apply HDN|].
      apply elem_of_concat_map in Ha as (t' & Ht' & Ha).
      apply (held_node_at L0 h0 t'); [|done].
      apply Hheld. rewrite elem_of_app. by left.
    + exists (h', s.2 ++ teardown_events t). split.
      { destruct s as [hs evs]. exact Hd. }
      exists (done ++ [t]), rem. split_and!.
      * by rewrite <- app_assoc.
      * done.
      * simpl. rewrite map_app, concat_app. simpl. rewrite app_nil_r.
        by rewrite app_assoc.
      * simpl. rewrite Hev, map_app, concat_app. simpl.
        rewrite app_nil_r. by rewrite app_assoc.
  - intros k ks s HI. pose proof (Hlist _ _ HI) as Hd.
    by apply (dll_next_elem _ _ _ [] k ks).
  - intros s HI. pose proof (Hlist _ _ HI) as Hd.
    rewrite (dll_next_head _ _ _ _ Hd). by eexists.
  - exists [], tsx. split_and!; [done|done| |].
    + simpl. by rewrite app_nil_r.
    + simpl. by rewrite app_nil_r.
  - by rewrite length_fmap.
  - apply (dll_next_head _ _ lm). apply (Hlist _ (h, ev)).
    exists [], tsx. split_and!; [done|done| |].
    + simpl. by rewrite app_nil_r.
    + simpl. by rewrite app_nil_r.
  - destruct rem as [|? ?]; [|done]. rewrite app_nil_r in Hts. subst done.
    destruct s' as [h' ev']. simpl in *. subst ev'.
    exists h'. split; [exact Hrun|done].
Qed.
End children.

Lemma filter_none {A} (P : A → Prop) `{∀ x, Decision (P x)} (l : list A) :
  (∀ x, x ∈ l → ¬ P x) → filter P l = [].
Proof.
  induction l as [|a l IH]; intros Hl; [done|].
  rewrite filter_cons, decide_False by (apply Hl; by left).
  apply IH. intros x Hx. apply Hl. by right.
Qed.

Lemma root_in_nodes_of (ts : list tree) k :
  k ∈ root <$> ts → k ∈ concat (map nodes ts).
Proof.
  intros (t & Ht & <-)%elem_of_roots. apply elem_of_concat_map.
  exists t. split; [done|apply root_in_nodes].
Qed.

(** The children that are left when the subtrees [done] are destroyed. *)
Lemma filter_done (DN : list addr) (done rem : list tree) :
  NoDup (concat (map nodes (done ++ rem))) →
  (∀ m, m ∈ concat (map nodes (done ++ rem)) → m ∉ DN) →
  filter (λ k, k ∉ DN ++ concat (map nodes done)) (root <$> (done ++ rem))
  = root <$> rem.
Proof.
  intros Hnd Hfresh. rewrite map_app, concat_app in Hnd, Hfresh.
  apply NoDup_app in Hnd as (_ & Hdis & _).
  rewrite fmap_app, filter_app, filter_none, filter_all; [done| |].
  - intros k Hk. apply root_in_nodes_of in Hk. rewrite elem_of_app.
    intros [Hc|Hc].
    + apply (Hfresh k); [|done]. rewrite elem_of_app. by right.
    + by apply (Hdis k).
  - intros k Hk Hn. apply Hn. rewrite elem_of_app. right.
    by apply root_in_nodes_of.
Qed.

Lemma filter_done_pending (DN : list addr) (cur pend : list addr)
    (ts1 done rem : list tree) :
  cur = root <$> ts1 →
  filter (λ k, k ∉ cur) pend = root <$> (done ++ rem) →
  NoDup (concat (map nodes (ts1 ++ done ++ rem))) →
  (∀ m, m ∈ concat (map nodes (ts1 ++ done ++ rem)) → m ∉ DN) →
  filter (λ k, k ∉ (DN ++ concat (map nodes ts1)) ++ concat (map nodes done))
         pend
  = root <$> rem.
Proof.
  intros -> Hpend Hnd Hfresh.
  rewrite <- (filter_done (DN ++ concat (map nodes ts1)) done rem).
  - rewrite <- Hpend, list_filter_filter. apply filter_ext_in.
    intros k _. split; [|tauto]. intros Hk. split; [done|].
    intros Hc. apply Hk. rewrite !elem_of_app. left. right.
    by apply root_in_nodes_of.
  - rewrite map_app, concat_app in Hnd.
    by apply NoDup_app in Hnd as (_ & _ & Hnd).
  - intros m Hm. rewrite map_app, concat_app in Hnd, Hfresh.
    apply NoDup_app in Hnd as (_ & Hdis & _).
    rewrite elem_of_app. intros [Hc|Hc].
    + apply (Hfresh m); [|done]. rewrite elem_of_app. by right.
    + by apply (Hdis m).
Qed.

Lemma wlr_scene_node_destroy_unfold fuel node s :
  wlr_scene_node_destroy (S fuel) (Some node) s =
  (_ ← must (node_at s.1 node);
   let s := (s.1, s.2 ++ [destroy_signal node]) in
   s ← wl_list_for_each_safe fst current_link (node, current_children)
         (λ child, wlr_scene_node_destroy fuel (Some child)) fuel s;
   s ← wl_list_for_each_safe fst pending_link (node, pending_children)
         (λ child, wlr_scene_node_destroy fuel (Some child)) fuel s;
   h ← must (scene_node_state_finish (node, current_link) s.1);
   h ← must (scene_node_state_finish (node, pending_link) h);
   ty ← must (type_of h node);
   match ty with
   | WLR_SCENE_NODE_ROOT =>
       h ← must (free node h);
       Ok (h, s.2 ++ [freed node])
   | WLR_SCENE_NODE_SURFACE =>
       h ← must (wl_list_remove (Some (node, surface_destroy_link)) h);
       h ← must (free node h);
       Ok (h, s.2 ++ [freed node])
   end).
Proof. done. Qed.

(** The last step: the node is freed when its links are unlinked. *)
Lemma free_unlinked (L0 : inventory) h0 h DN X n DNf :
  lists_ok h (without DN X L0) →
  (∀ c, c ∈ X → c.1 = n) →
  (∀ hd els c, (hd, els) ∈ L0 → c ∈ els → c.1 = n → c ∈ X) →
  is_Some (h !! n) →
  (∀ a, a ∈ DN → h !! a = None) →
  (∀ a, a ∉ DN → node_scalars h a = node_scalars h0 a) →
  (∀ a, a ∈ DNf ↔ a ∈ DN ∨ a = n) →
  ∃ h', free n h = Some h' ∧ survives L0 h0 h' DNf.
Proof.
  intros HL HX Hels [o Ho] Hfreed Hscal HDNf.
  exists (delete n h). split; [unfold free; by rewrite Ho|].
  split_and!.
  - assert (HL' : lists_ok (delete n h) (without [n] [] (without DN X L0))).
    { apply lists_ok_free; [done|]. intros p c Hp Hc.
      apply elem_of_without in Hp as ([hd els] & Hp & _ & _ & ->).
      simpl in Hc. apply list_elem_of_filter in Hc as [[_ HcX] Hc].
      intros E. apply HcX. by apply (Hels hd els). }
    rewrite without_without in HL'.
    rewrite (without_ext DNf [] (DN ++ [n]) (X ++ [])); [done|].
    intros c _. rewrite app_nil_r, elem_of_app, list_elem_of_singleton, HDNf.
    split.
    + intros [H1 _]. split; [done|]. intros Hc. apply H1. right.
      by apply HX.
    + intros [H1 _]. split; [done|apply not_elem_of_nil].
  - intros a Ha. apply HDNf in Ha as [Ha| ->].
    + apply lookup_delete_None. right. by apply Hfreed.
    + apply lookup_delete_None. by left.
  - intros a Ha.
    assert ((a ∉ DN) ∧ a ≠ n) as [Ha1 Ha2].
    { split; intros Hc; apply Ha, HDNf; [by left|by right]. }
    rewrite <- (Hscal a Ha1). unfold node_scalars, node_at.
    by rewrite lookup_delete_ne.
Qed.

Lemma load_node_member h n m :
  is_Some (node_at h n) → is_Some (load h (n, m)) →
  m = current_children ∨ m = current_link ∨ m = pending_children ∨
  m = pending_link ∨
  (m = surface_destroy_link ∧ type_of h n = Some WLR_SCENE_NODE_SURFACE).
Proof.
  intros [nd Hnd] [c Hc]. unfold load in Hc. simpl in Hc.
  unfold type_of, node_scalars. rewrite Hnd.
  apply node_at_lookup in Hnd. rewrite Hnd in Hc. simpl in Hc.
  destruct m; simpl in *; try tauto; try done.
  destruct (type nd); [done|]. right. right. right. right. done.
Qed.

(** A list head of the inventory that belongs to a surface is no node. *)
Lemma listener_head_no_node (L0 : inventory) h0 s els :
  lists_ok h0 L0 → ((s, destroy_listener_list), els) ∈ L0 →
  node_at h0 s = None.
Proof.
  intros HL Hin.
  destruct (lists_ok_alloc h0 L0 (s, destroy_listener_list) HL) as [c Hc].
  { apply elem_of_all_cells. eexists. split; [done|]. by left. }
  unfold load in Hc. simpl in Hc. unfold node_at.
  destruct (h0 !! s) as [[nd|l]|]; [|done..]. done.
Qed.

(** The cells of a node of the inventory that are elements of lists are its
    links. *)
Lemma element_cells (L0 : inventory) h0 n cur pend ty hd els c :
  lists_ok h0 L0 →
  type_of h0 n = Some ty →
  ((n, current_children), links_of current_link cur) ∈ L0 →
  ((n, pending_children), links_of pending_link pend) ∈ L0 →
  (hd, els) ∈ L0 → c ∈ els → c.1 = n →
  c = (n, current_link) ∨ c = (n, pending_link) ∨
  (c = (n, surface_destroy_link) ∧ ty = WLR_SCENE_NODE_SURFACE).
Proof.
  intros HL Hty Hcur Hpend Hin Hc Hn. destruct c as [n' m]. simpl in Hn.
  subst n'. pose proof HL as [_ Hnd].
  assert (Hal : is_Some (load h0 (n, m))).
  { apply (lists_ok_alloc h0 L0); [done|]. apply elem_of_all_cells.
    exists (hd, els). split; [done|]. by right. }
  assert (Hnode : is_Some (node_at h0 n)).
  { unfold type_of, node_scalars in Hty.
    destruct (node_at h0 n); [by eexists|done]. }
  destruct (load_node_member h0 n m Hnode Hal)
    as [->|[->|[->|[->|[-> Hs]]]]].
  - exfalso.
    assert (E : (hd, els) = ((n, current_children), links_of current_link cur)).
    { apply (lists_disjoint L0 _ _ (n, current_children));
        [done|done|done|by right|by left]. }
    injection E as -> ->. by apply elem_of_links_of in Hc as [? _].
  - by left.
  - exfalso.
    assert (E : (hd, els) = ((n, pending_children), links_of pending_link pend)).
    { apply (lists_disjoint L0 _ _ (n, pending_children));
        [done|done|done|by right|by left]. }
    injection E as -> ->. by apply elem_of_links_of in Hc as [? _].
  - by right; left.
  - right; right. split; [done|]. congruence.
Qed.

(** [wlr_scene_node_destroy] on a tree of the inventory, by induction on
    the number of steps. *)
Lemma destroy_tree (L0 : inventory) h0 :
  lists_ok h0 L0 → ∀ fuel, destroys L0 h0 fuel.
Proof.
  intros HL0 fuel.
  induction fuel as [|fuel IH];
    intros t DN h ev Hheld Hnd Hsz Hfresh HDN Hcl Hpl Hsurv; [lia|].
  destruct t as [n ts].
  inversion Hheld
    as [n' ts' cur pend ty Hty Hsdl Hcur Hpend Hroots Hselfc Hselfp Hsub];
    subst n' ts'.
  apply fmap_app_inv in Hroots as (ts1 & ts2 & Hc1 & Hp2 & ->).
  simpl root in *.
  assert (Hn : n ∉ DN) by (apply Hfresh; by left).
  pose proof Hsurv as (HLs & Hfreed & Hscal).
  simpl in Hnd. apply NoDup_cons in Hnd as [Hnts Hndts].
  assert (Hsizes : Forall (λ t, size t < fuel) (ts1 ++ ts2)).
  { apply Forall_forall. intros t' Ht'.
    pose proof (size_subtree n (ts1 ++ ts2) t' Ht'). lia. }
  assert (Hlen : length (ts1 ++ ts2) < fuel).
  { pose proof (size_subtrees n (ts1 ++ ts2)). lia. }
  assert (Hfresh' : ∀ m, m ∈ concat (map nodes (ts1 ++ ts2)) → m ∉ DN).
  { intros m Hm. apply Hfresh. simpl. by right. }
  assert (Hnodes_h0 : ∀ a, a ∈ concat (map nodes (ts1 ++ ts2)) →
            is_Some (node_at h0 a)).
  { intros a Ha. apply (held_node_at L0 h0 (Tree n (ts1 ++ ts2))); [done|].
    simpl. by right. }
  pose proof Hndts as Hndts'.
  rewrite map_app, concat_app in Hndts'.
  apply NoDup_app in Hndts' as (Hnd1 & Hdis12 & Hnd2).
  apply Forall_app in Hsub as Hsub'. destruct Hsub' as [Hsub1 Hsub2].
  apply Forall_app in Hsizes as Hsz'. destruct Hsz' as [Hsz1 Hsz2].
  rewrite length_app in Hlen.
  (* the links of a child are attached *)
  assert (Hchild : ∀ D t', t' ∈ ts1 ++ ts2 → n ∉ D →
    attached L0 D t' (root t', current_link) ∧
    attached L0 D t' (root t', pending_link)).
  { intros D t' Ht' HnD.
    assert (Hnt' : n ∉ nodes t').
    { intros Hc. apply Hnts. apply elem_of_concat_map. by exists t'. }
    assert (Hk : root t' ∈ cur ∨ root t' ∈ filter (λ k, k ∉ cur) pend).
    { rewrite Hp2, Hc1, <- elem_of_app, <- fmap_app.
      apply list_elem_of_fmap. by exists t'. }
    split.
    - destruct (decide (root t' ∈ cur)) as [Hin|Hnin].
      + right. exists (n, current_children), (links_of current_link cur).
        split_and!; [done|by apply elem_of_links_of|done|done].
      + left. destruct Hk as [?|Hk]; [done|].
        apply list_elem_of_filter in Hk as [_ Hk]. by apply Hselfc.
    - destruct (decide (root t' ∈ pend)) as [Hin|Hnin].
      + right. exists (n, pending_children), (links_of pending_link pend).
        split_and!; [done|by apply elem_of_links_of|done|done].
      + left. destruct Hk as [Hk|Hk].
        * by apply Hselfp.
        * apply list_elem_of_filter in Hk as [_ Hk]. done. }
  rewrite wlr_scene_node_destroy_unfold. cbn [fst snd].
  assert (Hnode : ∃ nd, node_at h n = Some nd).
  { specialize (Hscal n Hn). unfold type_of in Hty. rewrite <- Hscal in Hty.
    unfold node_scalars in Hty. destruct (node_at h n); [by eexists|done]. }
  destruct Hnode as [nd Hnode]. rewrite Hnode. cbn [must mbind result_bind].
  (* the current children *)
  destruct (destroy_children L0 h0 fuel IH n current_children current_link
              cur ts1 DN h (ev ++ [destroy_signal n]))
    as (h1 & -> & Hs1); [done|done| | |done|done|done|lia| |done| |done|].
  { rewrite elem_of_app. intros [?|Hc]; [done|]. apply Hnts.
    rewrite map_app, concat_app, elem_of_app. by left. }
  { intros done rem ->. rewrite Hc1. apply filter_done; [done|].
    intros m Hm. apply Hfresh'. rewrite map_app, concat_app, elem_of_app.
    by left. }
  { intros m Hm. apply Hfresh'. rewrite map_app, concat_app, elem_of_app.
    by left. }
  { intros done t' rem ->. apply Hchild.
    - rewrite !elem_of_app. left. right. by left.
    - rewrite elem_of_app. intros [?|Hc]; [done|]. apply Hnts.
      rewrite !map_app, !concat_app, !elem_of_app. by left; left. }
  cbn [mbind result_bind].
  (* the pending children that are left *)
  destruct (destroy_children L0 h0 fuel IH n pending_children pending_link
              pend ts2 (DN ++ concat (map nodes ts1)) h1
              ((ev ++ [destroy_signal n]) ++ concat (map teardown_events ts1)))
    as (h2 & -> & Hs2); [done|done| | |done|done|done|lia| | | |done|].
  { rewrite !elem_of_app. intros [[?|Hc]|Hc]; [done| |]; apply Hnts;
      rewrite map_app, concat_app, elem_of_app; [by left|by right]. }
  { intros done rem ->. by apply (filter_done_pending DN cur pend ts1). }
  { intros m Hm. rewrite elem_of_app. intros [Hc|Hc].
    - apply (Hfresh' m); [|done]. rewrite map_app, concat_app, elem_of_app.
      by right.
    - by apply (Hdis12 m). }
  { intros a. rewrite elem_of_app. intros [?|Ha]; [by apply HDN|].
    apply Hnodes_h0. rewrite map_app, concat_app, elem_of_app. by left. }
  { intros done t' rem ->. apply Hchild.
    - rewrite !elem_of_app. right. right. by left.
    - rewrite !elem_of_app. intros [[?|Hc]|Hc]; [done| |]; apply Hnts;
        rewrite !map_app, !concat_app, !elem_of_app; [by left|].
      right. by left. }
  cbn [mbind result_bind fst snd].
  rewrite <- app_assoc, <- concat_app, <- map_app in Hs2.
  set (DN2 := DN ++ concat (map nodes (ts1 ++ ts2))) in *.
  destruct Hs2 as (HL2 & Hfreed2 & Hscal2).
  assert (Hn2 : n ∉ DN2).
  { unfold DN2. rewrite elem_of_app. intros [?|?]; done. }
  assert (HDN2 : ∀ a, a ∈ DN2 → is_Some (node_at h0 a)).
  { intros a. unfold DN2. rewrite elem_of_app.
    intros [?|?]; [by apply HDN|by apply Hnodes_h0]. }
  assert (Hatt2 : ∀ e (X : list loc), attached L0 DN (Tree n (ts1 ++ ts2)) e →
    (∀ c, c ∈ X → c.1 = n) →
    (e, []) ∈ L0 ∨
    (∃ hd els, (hd, els) ∈ L0 ∧ e ∈ els ∧ (hd.1 ∉ DN2) ∧ (hd ∉ X))).
  { intros e X [?|(hd & els & ? & ? & Hh1 & Hh2)] HX; [by left|right].
    exists hd, els. simpl in Hh2. apply not_elem_of_cons in Hh2 as [? ?].
    split_and!; [done|done| |].
    - unfold DN2. rewrite elem_of_app. intros [?|?]; done.
    - intros Hc. by apply HX in Hc. }
  (* the links of the node itself *)
  unfold scene_node_state_finish.
  destruct (unlink_attached L0 h2 DN2 [] (n, current_link))
    as (h3 & -> & HL3 & Hsc3 & Hdom3);
    [by destruct HL0|done| |done|apply not_elem_of_nil|].
  { apply Hatt2; [done|]. by intros c ?%elem_of_nil. }
  cbn [must mbind result_bind]. simpl app in HL3.
  destruct (unlink_attached L0 h3 DN2 [(n, current_link)] (n, pending_link))
    as (h4 & -> & HL4 & Hsc4 & Hdom4); [by destruct HL0|done| |done| |].
  { apply Hatt2; [done|]. by intros c ->%list_elem_of_singleton. }
  { by intros ?%list_elem_of_singleton. }
  cbn [must mbind result_bind]. simpl app in HL4.
  assert (Hty4 : type_of h4 n = Some ty).
  { unfold type_of. by rewrite Hsc4, Hsc3, Hscal2. }
  rewrite Hty4. cbn [must mbind result_bind].
  assert (Hev : ∀ h' : heap,
    Ok (h', ((ev ++ [destroy_signal n]) ++ concat (map teardown_events ts1))
              ++ concat (map teardown_events ts2) ++ [freed n])
    = Ok (h', ev ++ teardown_events (Tree n (ts1 ++ ts2)))).
  { intros h'. simpl. rewrite map_app, concat_app.
    by rewrite <- !app_assoc. }
  assert (HDNf : ∀ a, a ∈ DN ++ nodes (Tree n (ts1 ++ ts2)) ↔ a ∈ DN2 ∨ a = n).
  { intros a. unfold DN2. simpl. rewrite !elem_of_app, elem_of_cons. tauto. }
  destruct ty.
  - (* a root *)
    destruct (free_unlinked L0 h0 h4 DN2
                [(n, current_link); (n, pending_link)] n
                (DN ++ nodes (Tree n (ts1 ++ ts2))))
      as (h5 & -> & Hs5); [done| | | | | |done|].
    + intros c Hc. each_elem Hc; done.
    + intros hd els c Hin Hc Hcn.
      destruct (element_cells L0 h0 n cur pend WLR_SCENE_NODE_ROOT hd els c)
        as [->|[->|[_ ?]]]; [done..| | |done].
      * by left.
      * right. by left.
    + destruct (h4 !! n) eqn:E; [by eexists|].
      apply Hdom4, Hdom3 in E. apply node_at_lookup in Hnode.
      (* the node is still there after the loops *)
      specialize (Hscal2 n Hn2). unfold type_of in Hty.
      rewrite <- Hscal2 in Hty. unfold node_scalars, node_at in Hty.
      by rewrite E in Hty.
    + intros a Ha. apply Hdom4, Hdom3. by apply Hfreed2.
    + intros a Ha. by rewrite Hsc4, Hsc3, Hscal2.
    + cbn [must mbind result_bind]. exists h5. split; [|done].
      rewrite <- Hev. by rewrite <- !app_assoc.
  - (* a surface node *)
    destruct (Hsdl eq_refl) as (s & subs & Hlis & Hnsubs).
    destruct (unlink_attached L0 h4 DN2
                [(n, current_link); (n, pending_link)]
                (n, surface_destroy_link))
      as (h5 & -> & HL5 & Hsc5 & Hdom5); [by destruct HL0|done| |done| |].
    { right. exists (s, destroy_listener_list),
        (links_of surface_destroy_link subs).
      split_and!; [done|by apply elem_of_links_of| |].
      - intros Hc. simpl in Hc. apply HDN2 in Hc as [x Hx].
        by rewrite (listener_head_no_node L0 h0 s _ HL0 Hlis) in Hx.
      - rewrite !elem_of_cons, elem_of_nil. intros [?|[?|?]]; done. }
    { rewrite !elem_of_cons, elem_of_nil. intros [?|[?|?]]; done. }
    cbn [must mbind result_bind]. simpl app in HL5.
    destruct (free_unlinked L0 h0 h5 DN2
                [(n, current_link); (n, pending_link);
                 (n, surface_destroy_link)] n
                (DN ++ nodes (Tree n (ts1 ++ ts2))))
      as (h6 & -> & Hs6); [done| | | | | |done|].
    + intros c Hc. each_elem Hc; done.
    + intros hd els c Hin Hc Hcn.
      destruct (element_cells L0 h0 n cur pend WLR_SCENE_NODE_SURFACE
                  hd els c) as [->|[->|[-> _]]]; [done..| | |].
      * by left.
      * right. by left.
      * right. right. by left.
    + destruct (h5 !! n) eqn:E; [by eexists|].
      apply Hdom5, Hdom4, Hdom3 in E.
      specialize (Hscal2 n Hn2). unfold type_of in Hty.
      rewrite <- Hscal2 in Hty. unfold node_scalars, node_at in Hty.
      by rewrite E in Hty.
    + intros a Ha. apply Hdom5, Hdom4, Hdom3. by apply Hfreed2.
    + intros a Ha. by rewrite Hsc5, Hsc4, Hsc3, Hscal2.
    + cbn [must mbind result_bind]. exists h6. split; [|done].
      rewrite <- Hev. by rewrite <- !app_assoc.
Qed.

(** X11.  [wlr_scene_node_destroy] of a tree of a heap whose lists are
    well-formed: the call returns; it emits the destroy signal of the node
    first, then destroys the current children in order and after them the
    pending children that are left, each in the same way, and frees the node
    last ([teardown_events]); every node of the tree is freed; every list of
    the heap whose head is not in the tree (the children lists of a parent,
    the listeners of a surface) is the list it was without the nodes of the
    tree, in the same order; the members of the other nodes are as before.
    The address of the node dangles afterwards: destroying it again is
    undefined behaviour. *)
Theorem wlr_scene_node_destroy_spec (L : inventory) (t : tree) (h : heap)
    (fuel : nat) (ev : list teardown_event) :
  lists_ok h L → held L h t → NoDup (nodes t) → size t < fuel →
  attached L [] t (root t, current_link) →
  attached L [] t (root t, pending_link) →
  ∃ h',
    wlr_scene_node_destroy fuel (Some (root t)) (h, ev)
    = Ok (h', ev ++ teardown_events t) ∧
    lists_ok h' (without (nodes t) [] L) ∧
    (∀ a, a ∈ nodes t → h' !! a = None) ∧
    (∀ n hm lm ks, ((n, hm), links_of lm ks) ∈ L → n ∉ nodes t →
       dll h' (n, hm) (links_of lm (filter (λ k, k ∉ nodes t) ks))) ∧
    (∀ a, a ∉ nodes t → node_scalars h' a = node_scalars h a) ∧
    (∀ fuel' ev',
       wlr_scene_node_destroy (S fuel') (Some (root t)) (h', ev')
       = Fail undefined_behaviour).
Proof.
  intros HL Hheld Hnd Hsz Hcl Hpl.
  destruct (destroy_tree L h HL fuel t [] h ev) as (h' & Hrun & Hs);
    [done|done|done| | |done|done| |].
  { intros m _. apply not_elem_of_nil. }
  { by intros a ?%elem_of_nil. }
  { split_and!.
    - by rewrite without_nil.
    - by intros a ?%elem_of_nil.
    - done. }
  simpl app in Hs. exists h'. pose proof Hs as (HL' & Hfreed & Hscal).
  split_and!; [done|done|done| |done|].
  - intros n hm lm ks Hin Hn. by apply (survives_list L h h').
  - intros fuel' ev'. rewrite wlr_scene_node_destroy_unfold. cbn [fst].
    unfold node_at. rewrite (Hfreed (root t)); [done|].
    apply root_in_nodes.
Qed.

Lemma held_leaf_surface (L : inventory) h k s subs :
  type_of h k = Some WLR_SCENE_NODE_SURFACE →
  ((s, destroy_listener_list), links_of surface_destroy_link subs) ∈ L →
  k ∈ subs →
  ((k, current_children), []) ∈ L → ((k, pending_children), []) ∈ L →
  held L h (Tree k []).
Proof.
  intros Hty Hs Hk Hc Hp.
  apply (held_tree L h k [] [] [] WLR_SCENE_NODE_SURFACE);
    [done|by intros _; exists s, subs|done|done|done|..|constructor];
    by intros ? ?%elem_of_nil.
Qed.

Lemma held_RAB : held lists_RAB scene_RAB tree_RAB.
Proof.
  apply (held_tree _ _ 1%positive _ [] [2; 3]%positive WLR_SCENE_NODE_ROOT).
  - reflexivity.
  - done.
  - compute_done.
  - compute_done.
  - reflexivity.
  - intros k Hk _. each_elem Hk; compute_done.
  - by intros k ?%elem_of_nil.
  - repeat constructor.
    + apply (held_leaf_surface _ _ _ 10%positive [2%positive]);
        compute_done.
    + apply (held_leaf_surface _ _ _ 11%positive [3%positive]);
        compute_done.
Qed.

Lemma held_RAB_committed :
  held lists_RAB_committed scene_RAB_committed tree_RAB.
Proof.
  apply (held_tree _ _ 1%positive _ [2; 3]%positive [2; 3]%positive
           WLR_SCENE_NODE_ROOT).
  - reflexivity.
  - done.
  - compute_done.
  - compute_done.
  - reflexivity.
  - intros k Hk Hn. exfalso. by apply Hn.
  - intros k Hk Hn. exfalso. by apply Hn.
  - repeat constructor.
    + apply (held_leaf_surface _ _ _ 10%positive [2%positive]);
        compute_done.
    + apply (held_leaf_surface _ _ _ 11%positive [3%positive]);
        compute_done.
Qed.

Lemma wlr_scene_node_destroy_spec_witness :
  ∃ h',
    wlr_scene_node_destroy 4 (Some 1%positive) (scene_RAB, [])
    = Ok (h', [destroy_signal 1; destroy_signal 2; freed 2;
               destroy_signal 3; freed 3; freed 1]%positive) ∧
    h' !! 1%positive = None ∧ h' !! 2%positive = None ∧
    h' !! 3%positive = None ∧
    listeners h' 10 [] ∧ listeners h' 11 [].
Proof.
  destruct (wlr_scene_node_destroy_spec lists_RAB tree_RAB scene_RAB 4 [])
    as (h' & Hrun & _ & Hfreed & Hlists & _).
  - compute_done.
  - exact held_RAB.
  - compute_done.
  - vm_compute. lia.
  - left. compute_done.
  - left. compute_done.
  - exists h'. split_and!.
    + exact Hrun.
    + apply Hfreed. compute_done.
    + apply Hfreed. compute_done.
    + apply Hfreed. compute_done.
    + apply (Hlists 10%positive destroy_listener_list surface_destroy_link
               [2%positive]); compute_done.
    + apply (Hlists 11%positive destroy_listener_list surface_destroy_link
               [3%positive]); compute_done.
Defined.

(** ** The events of a destruction *)

Lemma teardown_events_perm t :
  teardown_events t
  ≡ₚ (destroy_signal <$> nodes t) ++ (freed <$> nodes t).
Proof.
  induction t as [n ts IH] using tree_ind'. simpl.
  apply Permutation_skip.
  assert (Hts : concat (map teardown_events ts)
    ≡ₚ (destroy_signal <$> concat (map nodes ts))
       ++ (freed <$> concat (map nodes ts))).
  { induction ts as [|t ts IHts]; [done|].
    apply Forall_cons in IH as [Ht IH]. simpl.
    rewrite !fmap_app, Ht, (IHts IH).
    rewrite <- !app_assoc. apply Permutation_app_head.
    rewrite !app_assoc. apply Permutation_app_tail.
    apply Permutation_app_comm. }
  rewrite Hts, <- app_assoc. apply Permutation_app_head.
  rewrite Permutation_app_comm. done.
Qed.

Lemma teardown_events_NoDup t : NoDup (nodes t) → NoDup (teardown_events t).
Proof.
  intros Hnd. rewrite teardown_events_perm. apply NoDup_app. split_and!.
  - apply NoDup_fmap_2; [|done]. by intros ?? [=].
  - intros e (a & -> & _)%list_elem_of_fmap (b & ? & _)%list_elem_of_fmap.
    done.
  - apply NoDup_fmap_2; [|done]. by intros ?? [=].
Qed.

(** The signal of a node comes before the node is freed. *)
Lemma teardown_events_bracket t m :
  m ∈ nodes t →
  ∃ l1 l2 l3,
    teardown_events t = l1 ++ destroy_signal m :: l2 ++ freed m :: l3.
Proof.
  induction t as [n ts IH] using tree_ind'. simpl. intros Hm.
  apply elem_of_cons in Hm as [->|Hm].
  - exists [], (concat (map teardown_events ts)), []. done.
  - apply elem_of_concat_map in Hm as (t & Ht & Hm).
    rewrite Forall_forall in IH.
    destruct (IH t Ht Hm) as (l1 & l2 & l3 & He).
    apply list_elem_of_split in Ht as (ts1 & ts2 & ->).
    rewrite map_app, concat_app. simpl. rewrite He.
    exists (destroy_signal n :: concat (map teardown_events ts1) ++ l1), l2,
      (l3 ++ concat (map teardown_events ts2) ++ [freed n]).
    simpl. f_equal. rewrite <- !app_assoc. simpl. f_equal. f_equal.
    by rewrite <- !app_assoc.
Qed.

(** X12.  The events of [wlr_scene_node_destroy], whatever the order of the
    children: the destroy signal of every node of the tree is emitted
    exactly once and every node is freed exactly once, nothing else happens;
    the first event is the signal of the node the call is given, the last
    one frees it; and the signal of a node comes before the node is freed,
    so the listeners see it while the node is whole. *)
Theorem wlr_scene_node_destroy_once (L : inventory) (t : tree) (h : heap)
    (fuel : nat) (ev : list teardown_event) :
  lists_ok h L → held L h t → NoDup (nodes t) → size t < fuel →
  attached L [] t (root t, current_link) →
  attached L [] t (root t, pending_link) →
  ∃ h' evs,
    wlr_scene_node_destroy fuel (Some (root t)) (h, ev) = Ok (h', ev ++ evs) ∧
    evs ≡ₚ (destroy_signal <$> nodes t) ++ (freed <$> nodes t) ∧
    NoDup evs ∧
    head evs = Some (destroy_signal (root t)) ∧
    last evs = Some (freed (root t)) ∧
    (∀ m, m ∈ nodes t →
       ∃ l1 l2 l3, evs = l1 ++ destroy_signal m :: l2 ++ freed m :: l3).
Proof.
  intros HL Hheld Hnd Hsz Hcl Hpl.
  destruct (destroy_tree L h HL fuel t [] h ev) as (h' & Hrun & _);
    [done|done|done| | |done|done| |].
  { intros m _. apply not_elem_of_nil. }
  { by intros a ?%elem_of_nil. }
  { split_and!.
    - by rewrite without_nil.
    - by intros a ?%elem_of_nil.
    - done. }
  exists h', (teardown_events t). split_and!.
  - done.
  - apply teardown_events_perm.
  - by apply teardown_events_NoDup.
  - by destruct t.
  - destruct t as [n ts]. simpl.
    change (destroy_signal n :: concat (map teardown_events ts) ++ [freed n])
      with ((destroy_signal n :: concat (map teardown_events ts))
              ++ [freed n]).
    by rewrite last_snoc.
  - intros m Hm. by apply teardown_events_bracket.
Qed.

Lemma wlr_scene_node_destroy_once_witness :
  ∃ h' evs,
    wlr_scene_node_destroy 4 (Some 1%positive) (scene_RAB_committed, [])
    = Ok (h', evs) ∧
    evs ≡ₚ [destroy_signal 1; destroy_signal 2; destroy_signal 3;
            freed 1; freed 2; freed 3]%positive.
Proof.
  destruct (wlr_scene_node_destroy_once lists_RAB_committed tree_RAB
              scene_RAB_committed 4 [])
    as (h' & evs & Hrun & Hperm & _).
  - compute_done.
  - exact held_RAB_committed.
  - compute_done.
  - vm_compute. lia.
  - left. compute_done.
  - left. compute_done.
  - exists h', evs. split; [exact Hrun|exact Hperm].
Defined.

(** X13.  [scene_surface_handle_surface_destroy], the listener of a surface
    node [k] for the destroy signal of its surface [s]: called with the
    address of the listener in [k], it destroys [k] (a node without
    children): the signal of [k] is emitted, [k] is freed, [k] is no longer
    among the listeners of [s], whose other listeners keep their order, and
    no longer among the current and the pending children of its parent [p].
    Called with a null pointer, or with the address of another member, it
    has undefined behaviour. *)
Theorem scene_surface_handle_surface_destroy_spec (L : inventory)
    (k p s : addr) (cur pend subs : list addr) (h : heap) (fuel : nat)
    (ev : list teardown_event) :
  lists_ok h L → held L h (Tree k []) → 1 < fuel →
  attached L [] (Tree k []) (k, current_link) →
  attached L [] (Tree k []) (k, pending_link) →
  ((p, current_children), links_of current_link cur) ∈ L →
  ((p, pending_children), links_of pending_link pend) ∈ L →
  ((s, destroy_listener_list), links_of surface_destroy_link subs) ∈ L →
  p ≠ k → s ≠ k →
  scene_surface_handle_surface_destroy fuel None (h, ev)
  = Fail undefined_behaviour ∧
  scene_surface_handle_surface_destroy fuel (Some (k, pending_link)) (h, ev)
  = Fail undefined_behaviour ∧
  ∃ h',
    scene_surface_handle_surface_destroy fuel
      (Some (k, surface_destroy_link)) (h, ev)
    = Ok (h', ev ++ [destroy_signal k; freed k]) ∧
    h' !! k = None ∧
    listeners h' s (filter (λ j, j ≠ k) subs) ∧
    current_list h' p (filter (λ j, j ≠ k) cur) ∧
    pending_list h' p (filter (λ j, j ≠ k) pend).
Proof.
  intros HL Hheld Hfuel Hcl Hpl Hcur Hpend Hsubs Hpk Hsk.
  split; [done|]. split; [done|].
  destruct (destroy_tree L h HL fuel (Tree k []) [] h ev)
    as (h' & Hrun & Hs); [done|apply NoDup_singleton|done| | |done|done| |].
  { intros m _. apply not_elem_of_nil. }
  { by intros a ?%elem_of_nil. }
  { split_and!.
    - by rewrite without_nil.
    - by intros a ?%elem_of_nil.
    - done. }
  simpl app in Hs. exists h'.
  assert (Hf : ∀ ks : list addr,
    filter (λ j, j ∉ [k]) ks = filter (λ j, j ≠ k) ks).
  { intros ks. apply filter_ext_in. intros j _.
    by rewrite list_elem_of_singleton. }
  assert (Hnk : ∀ n, n ≠ k → n ∉ [k]).
  { intros n Hn. by rewrite list_elem_of_singleton. }
  split_and!.
  - unfold scene_surface_handle_surface_destroy, wl_container_of. simpl.
    exact Hrun.
  - destruct Hs as (_ & Hfreed & _). apply Hfreed. by left.
  - unfold listeners. rewrite <- Hf.
    by apply (survives_list L h h' _ _ _ _ _ Hs Hsubs), Hnk.
  - unfold current_list. rewrite <- Hf.
    by apply (survives_list L h h' _ _ _ _ _ Hs Hcur), Hnk.
  - unfold pending_list. rewrite <- Hf.
    by apply (survives_list L h h' _ _ _ _ _ Hs Hpend), Hnk.
Qed.

Lemma scene_surface_handle_surface_destroy_spec_witness :
  ∃ h',
    scene_surface_handle_surface_destroy 4
      (Some (2%positive, surface_destroy_link)) (scene_RAB_committed, [])
    = Ok (h', [destroy_signal 2%positive; freed 2%positive]) ∧
    h' !! 2%positive = None ∧
    listeners h' 10 [] ∧
    current_list h' 1 [3%positive] ∧ pending_list h' 1 [3%positive].
Proof.
  destruct (scene_surface_handle_surface_destroy_spec lists_RAB_committed
              2 1 10 [2; 3]%positive [2; 3]%positive [2%positive]
              scene_RAB_committed 4 [])
    as (_ & _ & h' & Hrun & Hfreed & Hl & Hc & Hp).
  - compute_done.
  - apply (held_leaf_surface _ _ _ 10%positive [2%positive]); compute_done.
  - lia.
  - right. exists (1%positive, current_children),
      [(2%positive, current_link); (3%positive, current_link)].
    split_and!; compute_done.
  - right. exists (1%positive, pending_children),
      [(2%positive, pending_link); (3%positive, pending_link)].
    split_and!; compute_done.
  - compute_done.
  - compute_done.
  - compute_done.
  - done.
  - done.
  - exists h'. by split_and!.
Defined.

(** * Changes of the pending state are not seen before a commit *)

Section unseen.
Context `{collaborators} {D : Type}.
Variables h h1 : heap.
Hypothesis Hvis :
  ∀ n, visible <$> node_scalars h1 n = visible <$> node_scalars h n.
Hypothesis Hcur :
  ∀ c, c.2 = current_children ∨ c.2 = current_link →
       load_next h1 c = load_next h c.

Lemma for_each_from_unseen (head : loc) (body1 body : addr → D → result D) :
  (∀ k d, body1 k d = body k d) →
  ∀ fuel pos d,
  for_each_from (λ _, h1) current_link head body1 fuel pos d
  = for_each_from (λ _, h) current_link head body fuel pos d.
Proof using Hcur.
  intros Hbody fuel. induction fuel as [|fuel IH]; intros pos d; [done|].
  simpl. destruct (decide (pos = Some head)); [done|].
  destruct (wl_container_of pos current_link) as [child|]; [|done].
  cbn [must mbind result_bind]. rewrite Hbody.
  destruct (body child d) as [d'|]; [|done]. cbn [mbind result_bind].
  rewrite (Hcur (child, current_link)) by (by right).
  destruct (load_next h (child, current_link)) as [nxt|]; [|done].
  cbn [must mbind result_bind]. apply IH.
Qed.

Lemma traversal_unseen (user_iterator : addr → Z → Z → D → result D) :
  ∀ fuel node lx ly d,
  scene_node_for_each_surface fuel h1 node lx ly user_iterator d
  = scene_node_for_each_surface fuel h node lx ly user_iterator d.
Proof using Hvis Hcur.
  intros fuel. induction fuel as [|fuel IH]; intros node lx ly d; [done|].
  rewrite !scene_node_for_each_surface_unfold.
  specialize (Hvis node). unfold node_scalars in Hvis.
  destruct (node_at h1 node) as [n1|], (node_at h node) as [n|];
    simpl in Hvis; [|done..].
  injection Hvis as Hty Hx Hy Hs. cbn [must mbind result_bind].
  rewrite Hx, Hy, Hty, Hs.
  destruct (int_add lx (x (current n))) as [lx'|]; [|done].
  cbn [mbind result_bind].
  destruct (int_add ly (y (current n))) as [ly'|]; [|done].
  cbn [mbind result_bind].
  destruct (match type n with
            | WLR_SCENE_NODE_ROOT => Ok d
            | WLR_SCENE_NODE_SURFACE => _
            end) as [d'|]; [|done].
  cbn [mbind result_bind]. unfold wl_list_for_each.
  rewrite (Hcur (node, current_children)) by (by left).
  destruct (load_next h (node, current_children)) as [first|]; [|done].
  cbn [must mbind result_bind].
  apply for_each_from_unseen. intros k d''. apply IH.
Qed.
End unseen.

Lemma render_unseen `{collaborators} (h h1 : heap) :
  (∀ n, visible <$> node_scalars h1 n = visible <$> node_scalars h n) →
  (∀ c, c.2 = current_children ∨ c.2 = current_link →
        load_next h1 c = load_next h c) →
  ∀ fuel scene output lx ly damage tr,
  wlr_scene_render fuel h1 scene output lx ly damage tr
  = wlr_scene_render fuel h scene output lx ly damage tr.
Proof.
  intros Hvis Hcur fuel scene output lx ly damage tr.
  unfold wlr_scene_render.
  destruct (renderer output); [|done]. cbn [mbind result_bind].
  destruct (enabled output && _); [|done].
  destruct (to_int (- lx)); [|done]. cbn [mbind result_bind].
  destruct (to_int (- ly)); [|done]. cbn [mbind result_bind].
  by rewrite (traversal_unseen h h1 Hvis Hcur).
Qed.

(** X14.  [wlr_scene_node_move] is not seen before the next commit: the
    traversal of the surfaces from any node, and so the rendering of any
    scene on any output, gives the same calls after the move as before
    it. *)
Theorem wlr_scene_node_move_unseen `{collaborators} (n : addr) (x y : Z)
    (h h1 : heap) :
  wlr_scene_node_move n x y h = Ok h1 →
  (∀ D (it : addr → Z → Z → D → result D) fuel node d,
     wlr_scene_node_for_each_surface fuel h1 node it d
     = wlr_scene_node_for_each_surface fuel h node it d) ∧
  (∀ fuel scene output lx ly damage tr,
     wlr_scene_render fuel h1 scene output lx ly damage tr
     = wlr_scene_render fuel h scene output lx ly damage tr).
Proof.
  unfold wlr_scene_node_move. intros Hm.
  destruct (node_at h n) as [nd|] eqn:Hnd; [|done].
  cbn [must mbind result_bind] in Hm. injection Hm as <-.
  assert (Hvis : ∀ a,
    visible <$> node_scalars
      (<[n := Node (set_pending
                      {| x := x; y := y; children := children (pending nd);
                         link := link (pending nd) |} nd)]> h) a
    = visible <$> node_scalars h a).
  { intros a. rewrite node_scalars_insert.
    destruct (decide (a = n)) as [->|]; [|done].
    unfold node_scalars. by rewrite Hnd. }
  assert (Hcur : ∀ c, c.2 = current_children ∨ c.2 = current_link →
    load_next
      (<[n := Node (set_pending
                      {| x := x; y := y; children := children (pending nd);
                         link := link (pending nd) |} nd)]> h) c
    = load_next h c).
  { intros c _. unfold load_next.
    by rewrite (load_insert_node h n nd). }
  split.
  - intros D it fuel node d. unfold wlr_scene_node_for_each_surface.
    by apply traversal_unseen.
  - by apply render_unseen.
Qed.

Lemma wlr_scene_node_move_unseen_witness :
  wlr_scene_render 4 (heap_or_empty (wlr_scene_node_move 2 7 7
                                       scene_RAB_committed))
    1 output_800x600 0 0 None []
  = wlr_scene_render 4 scene_RAB_committed 1 output_800x600 0 0 None [].
Proof.
  assert (Hm : wlr_scene_node_move 2 7 7 scene_RAB_committed
               = Ok (heap_or_empty (wlr_scene_node_move 2 7 7
                                      scene_RAB_committed))).
  { vm_compute. reflexivity. }
  destruct (@wlr_scene_node_move_unseen plain 2 7 7 scene_RAB_committed _ Hm)
    as [_ Hr].
  apply Hr.
Defined.

(** X15.  [wlr_scene_node_place_above] and [wlr_scene_node_place_below] of
    two different pending children of a node of a well-formed scene return,
    keep the scene well-formed with the same children, leave the current
    children of every node and every member of every node as they are, and
    are not seen before the next commit: the traversal from any node and the
    rendering are the same after the call as before it. *)
Theorem place_unseen `{collaborators} (p : addr) (ts : list tree)
    (pend : list addr) (a b : addr) (h : heap) :
  scene_tree h (Tree p ts) → pending_list h p pend →
  a ∈ pend → b ∈ pend → a ≠ b →
  ∀ place,
  place = wlr_scene_node_place_above ∨ place = wlr_scene_node_place_below →
  ∃ h1, place a b h = Ok h1 ∧
    scene_tree h1 (Tree p ts) ∧
    (∀ n cur, current_list h n cur → current_list h1 n cur) ∧
    (∀ n, node_scalars h1 n = node_scalars h n) ∧
    (∀ D (it : addr → Z → Z → D → result D) fuel node d,
       wlr_scene_node_for_each_surface fuel h1 node it d
       = wlr_scene_node_for_each_surface fuel h node it d) ∧
    (∀ fuel scene output lx ly damage tr,
       wlr_scene_render fuel h1 scene output lx ly damage tr
       = wlr_scene_render fuel h scene output lx ly damage tr).
Proof.
  intros [Hsh Hnd] Hpend Ha Hb Hab place Hplace.
  assert (Hpar : parent_of h a = parent_of h b).
  { inversion Hsh as [n' ts' cur pend0 ? Hpend0 Hkids ? ? Hpar ?]; subst.
    pose proof (pending_list_functional _ _ _ _ Hpend0 Hpend) as ->.
    rewrite !Hpar; [done|apply Hkids; by right..]. }
  assert (Hres : ∃ h1 pend', place a b h = Ok h1 ∧
    pending_list h1 p pend' ∧ (∀ k, k ∈ pend' ↔ k ∈ pend) ∧
    (∀ c, c ∉ (p, pending_children) :: links_of pending_link pend →
          load h1 c = load h c) ∧
    (∀ n, node_scalars h1 n = node_scalars h n)).
  { assert (Hin : ∀ l1 l2 : list addr,
      filter (λ j, j ≠ a) pend = l1 ++ b :: l2 →
      ∀ k, k = a ∨ k ∈ l1 ++ b :: l2 ↔ k ∈ pend).
    { intros l1 l2 Hf k. rewrite <- Hf, list_elem_of_filter.
      destruct (decide (k = a)) as [->|]; [tauto|tauto]. }
    destruct Hplace as [-> | ->].
    - destruct (place_above_list h p pend a b Hpend Ha Hb Hab Hpar)
        as (h1 & l1 & l2 & Hrun & Hp1 & Heq & Hf & Hfr & Hsc).
      exists h1, (placed_above a b pend). split_and!; [done..| |done|done].
      intros k. rewrite Heq, <- (Hin l1 l2 Hf k).
      rewrite !elem_of_app, !elem_of_cons. tauto.
    - destruct (place_below_list h p pend a b Hpend Ha Hb Hab Hpar)
        as (h1 & l1 & l2 & Hrun & Hp1 & Heq & Hf & Hfr & Hsc).
      exists h1, (placed_below a b pend). split_and!; [done..| |done|done].
      intros k. rewrite Heq, <- (Hin l1 l2 Hf k).
      rewrite !elem_of_app, !elem_of_cons. tauto. }
  destruct Hres as (h1 & pend' & Hrun & Hp1 & Hsame & Hfr & Hsc).
  assert (Hcells : ∀ c, c.2 = current_children ∨ c.2 = current_link →
            load h1 c = load h c).
  { intros c Hc. apply Hfr. intros Hin.
    apply elem_of_cons in Hin as [->|Hin].
    - destruct Hc; done.
    - apply elem_of_links_of' in Hin as [Hin _]. destruct Hc; congruence. }
  assert (Hvis : ∀ n,
    visible <$> node_scalars h1 n = visible <$> node_scalars h n).
  { intros n. by rewrite Hsc. }
  assert (Hcur : ∀ c, c.2 = current_children ∨ c.2 = current_link →
            load_next h1 c = load_next h c).
  { intros c Hc. unfold load_next. by rewrite Hcells. }
  exists h1. split_and!; [done| | |done| |].
  - split; [|done]. by apply (shaped_reordered h h1 p ts pend pend').
  - intros n cur Hc. eapply dll_frame; [|exact Hc]. intros c Hin.
    apply Hcells. apply elem_of_cons in Hin as [->|Hin]; [by left|].
    apply elem_of_links_of' in Hin as [-> _]. by right.
  - intros D it fuel node d. unfold wlr_scene_node_for_each_surface.
    by apply traversal_unseen.
  - by apply render_unseen.
Qed.

Lemma place_unseen_witness :
  ∃ h1, wlr_scene_node_place_above 2 3 scene_RAB_committed = Ok h1 ∧
    scene_tree h1 tree_RAB ∧
    current_list h1 1 [2; 3]%positive ∧
    wlr_scene_render 4 h1 1 output_800x600 0 0 None []
    = wlr_scene_render 4 scene_RAB_committed 1 output_800x600 0 0 None [].
Proof.
  destruct (@place_unseen plain 1 [Tree 2 []; Tree 3 []] [2; 3]%positive
              2 3 scene_RAB_committed scene_RAB_committed_tree)
    with (place := wlr_scene_node_place_above)
    as (h1 & Hrun & Ht & Hc & _ & _ & Hr);
    [compute_done|compute_done|compute_done|done|by left|].
  exists h1. split_and!; [done|done| |apply Hr].
  apply Hc. compute_done.
Defined.

(** * After a commit the current state is the pending state *)

Lemma committed_order_subset (cur pend : list addr) :
  (∀ k, k ∈ cur → k ∈ pend) → committed_order cur pend = pend.
Proof.
  intros Hsub. unfold committed_order. rewrite filter_none; [done|].
  intros k Hk Hn. by apply Hn, Hsub.
Qed.

(** X16.  In a well-formed scene where every current child of a node is
    also one of its pending children (as it is as long as nodes are only
    created, placed, moved, committed and destroyed), a commit makes the
    current state equal to the pending state throughout the tree: for every
    node the current children are the pending children, in pending order,
    and the current position is the pending position.  The pending state is
    as before and the scene is well-formed. *)
Theorem commit_presents_pending (fuel : nat) (t : tree) (h : heap) :
  scene_tree h t → size t < fuel →
  (∀ m cur pend, m ∈ nodes t → current_list h m cur → pending_list h m pend →
     ∀ k, k ∈ cur → k ∈ pend) →
  ∃ h', wlr_scene_node_commit fuel (root t) h = Ok h' ∧
    scene_tree h' t ∧
    (∀ m, m ∈ nodes t →
       ∃ pend, pending_list h m pend ∧
         pending_list h' m pend ∧ current_list h' m pend) ∧
    (∀ m, m ∈ nodes t →
       is_Some (current_pos h' m) ∧ current_pos h' m = pending_pos h' m ∧
       pending_pos h' m = pending_pos h m).
Proof.
  intros [Hsh Hnd] Hsz Hsub.
  destruct (shaped_node _ _ _ Hsh (root_in_nodes t))
    as (cur & pend & Hc & Hp).
  destruct (commit_correct fuel t h Hsh Hnd Hsz cur pend Hc Hp)
    as (_ & h' & Hrun & _ & _ & _ & Hsh' & Hfr & Hcm).
  destruct (commit_frame_pending _ _ _ Hnd Hfr) as (Hpp & Hpc & Hpl).
  exists h'. split_and!; [done|done| |].
  - intros m Hm.
    destruct (committed_node _ _ _ _ Hcm Hm)
      as (cm & pm & Hcm' & Hpm & _ & _ & Hnew).
    exists pm. split_and!; [done|by apply (pending_list_frame h h')|].
    by rewrite (committed_order_subset cm pm (Hsub m cm pm Hm Hcm' Hpm))
      in Hnew.
  - intros m Hm.
    destruct (committed_node _ _ _ _ Hcm Hm)
      as (cm & pm & _ & _ & Hpos & Hsome & _).
    split_and!; [by rewrite Hpos|by rewrite Hpos, Hpp|done].
Qed.

Lemma commit_presents_pending_witness :
  ∃ h', wlr_scene_node_commit 4 1 scene_RAB = Ok h' ∧
    scene_tree h' tree_RAB ∧ current_list h' 1 [2; 3]%positive.
Proof.
  destruct (commit_presents_pending 4 tree_RAB scene_RAB scene_RAB_tree)
    as (h' & Hrun & Ht & Hl & _).
  - vm_compute. lia.
  - intros m cur pend Hm Hc Hp k Hk. simpl in Hm.
    each_elem Hm.
    + assert (cur = []) as -> by (eapply current_list_functional;
        [exact Hc|compute_done]).
      by apply elem_of_nil in Hk.
    + assert (cur = []) as -> by (eapply current_list_functional;
        [exact Hc|compute_done]).
      by apply elem_of_nil in Hk.
    + assert (cur = []) as -> by (eapply current_list_functional;
        [exact Hc|compute_done]).
      by apply elem_of_nil in Hk.
  - exists h'. split_and!; [done|done|].
    destruct (Hl 1%positive) as (pend & Hp & _ & Hc); [by left|].
    assert (pend = [2; 3]%positive) as <-; [|done].
    eapply pending_list_functional; [exact Hp|compute_done].
Defined.

(** * Without damage a drawable is drawn once *)

(** X17.  When no damage is given, [wlr_scene_render] works with the whole
    output as one rectangle.  Then, as the intersection of two rectangles is
    at most one rectangle (what pixman computes), [render_surface_iterator]
    sends for a drawable either nothing (no texture, or its box is off the
    output) or exactly one scissor call followed by exactly one draw with
    alpha 1.0: every drawable is drawn at most once. *)
Theorem drawn_once_without_damage `{collaborators}
    (output : wlr_output matrix) (r s : addr) (x y : Z)
    (tr tr' : list (backend_call matrix)) :
  (∀ a b, length a ≤ 1 → length b ≤ 1 →
          length (pixman_region32_intersect a b) ≤ 1) →
  renderer output = Some r →
  render_surface_iterator output (effective_damage output None) s x y tr
  = Ok tr' →
  tr' = tr ∨
  ∃ box texture m,
    wlr_surface_get_texture s = Some texture ∧
    tr' = tr ++ [wlr_renderer_scissor r (Some box);
                 wlr_render_texture_with_matrix r texture m
                   {| mantissa := 1; exponent := 0 |}].
Proof.
  intros Hpix Hr Hrun.
  assert (Hfull : length (effective_damage output None) ≤ 1).
  { unfold effective_damage, pixman_region32_init_rect. simpl.
    destruct (_ && _); simpl; lia. }
  set (dmg := effective_damage output None) in *.
  rewrite (render_surface_iterator_calls output _ r s x y tr Hr) in Hrun.
  unfold drawable_calls in Hrun. cbn [fst snd] in Hrun.
  destruct (wlr_surface_get_texture s) as [texture|];
    [|cbn [mbind result_bind] in Hrun; rewrite app_nil_r in Hrun;
      injection Hrun as <-; by left].
  destruct (scale_box _ _) as [box|]; [|done].
  cbn [mbind result_bind] in Hrun.
  assert (Hlen : length (damaged_part dmg box) ≤ 1).
  { unfold damaged_part. apply Hpix; [|done].
    unfold pixman_region32_init_rect.
    destruct (_ && _); simpl; lia. }
  destruct (damaged_part dmg box) as [|rect [|rect' rects]];
    [| |simpl in Hlen; lia].
  - left. simpl in Hrun. rewrite app_nil_r in Hrun. by injection Hrun.
  - right. destruct (forallb rect_fits [rect]); [|done].
    cbn [mbind result_bind] in Hrun. injection Hrun as <-.
    eexists _, texture, _. split; [done|]. reflexivity.
Qed.

Lemma pairwise_intersect_length (a b : pixman_region32) :
  length (pairwise_intersect a b) ≤ length a * length b.
Proof.
  unfold pairwise_intersect.
  induction a as [|ra a IH]; [simpl; lia|].
  rewrite bind_cons, length_app. simpl.
  assert (length (b' ← b; box_intersect ra b') ≤ length b); [|lia].
  clear. induction b as [|rb b IH]; [simpl; lia|].
  rewrite bind_cons, length_app. simpl.
  assert (length (box_intersect ra rb) ≤ 1); [|lia].
  unfold box_intersect. destruct (_ && _); simpl; lia.
Qed.

Lemma drawn_once_without_damage_witness :
  render_surface_iterator output_800x600
    (effective_damage output_800x600 None) 10 5 5 []
  = Ok [] ∨
  ∃ box texture m,
    wlr_surface_get_texture 10%positive = Some texture ∧
    render_surface_iterator output_800x600
      (effective_damage output_800x600 None) 10 5 5 []
    = Ok ([] ++ [wlr_renderer_scissor 99 (Some box);
                 wlr_render_texture_with_matrix 99 texture m float_one]).
Proof.
  destruct (@drawn_once_without_damage plain output_800x600 99 10 5 5 []
              [wlr_renderer_scissor 99 (Some box_5_15);
               wlr_render_texture_with_matrix 99 10 box_5_15 float_one])
    as [Hn|(box & texture & m & Ht & Hc)].
  - intros a b Ha Hb. simpl.
    pose proof (pairwise_intersect_length a b). nia.
  - reflexivity.
  - reflexivity.
  - discriminate Hn.
  - right. exists box, texture, m. split; [exact Ht|].
    unfold float_one. rewrite <- Hc. reflexivity.
Defined.

(** * A scene stays well-formed when a child is destroyed *)

(** A subtree none of whose nodes is destroyed is as it was. *)
Lemma shaped_survives (L : inventory) h h' DN :
  lists_ok h L → survives L h h' DN →
  ∀ t, held L h t → shaped h t → (∀ m, m ∈ nodes t → m ∉ DN) →
  shaped h' t.
Proof.
  intros HL Hs t. induction t as [n ts IH] using tree_ind'.
  intros Hheld Hsh Hout.
  inversion Hheld
    as [n' ts' cur pend ty Hty Hsdl Hcur Hpend Hroots Hselfc Hselfp Hsub];
    subst n' ts'.
  inversion Hsh as [n' ts' cur' pend' Hc Hp Hkids Hlc Hlp Hpar Hshs];
    subst n' ts'.
  assert (cur' = cur) as ->.
  { apply (links_of_inj current_link).
    eapply dll_functional; [exact Hc|by eapply lists_ok_dll]. }
  assert (pend' = pend) as ->.
  { apply (links_of_inj pending_link).
    eapply dll_functional; [exact Hp|by eapply lists_ok_dll]. }
  assert (Hn : n ∉ DN) by (apply Hout; by left).
  assert (Hkid : ∀ k, k ∈ root <$> ts → k ∉ DN).
  { intros k Hk. apply Hout. simpl. right. by apply root_in_nodes_of. }
  assert (Hkeep : ∀ ks : list addr, (∀ k, k ∈ ks → k ∈ root <$> ts) →
            filter (λ k, k ∉ DN) ks = ks).
  { intros ks Hks. apply filter_all. intros k Hk. by apply Hkid, Hks. }
  apply (shaped_tree h' n ts cur pend).
  - unfold current_list. rewrite <- (Hkeep cur).
    + by apply (survives_list L h h').
    + intros k Hk. apply Hkids. by left.
  - unfold pending_list. rewrite <- (Hkeep pend).
    + by apply (survives_list L h h').
    + intros k Hk. apply Hkids. by right.
  - done.
  - intros k Hk Hkc.
    assert (Hkp : k ∈ pend) by (apply Hkids in Hk as [?|?]; done).
    apply (survives_list L h h' DN k current_link current_link [] Hs);
      [by apply Hselfc|by apply Hkid].
  - intros k Hk Hkp.
    assert (Hkc : k ∈ cur) by (apply Hkids in Hk as [?|?]; done).
    apply (survives_list L h h' DN k pending_link pending_link [] Hs);
      [by apply Hselfp|by apply Hkid].
  - intros k Hk. unfold parent_of. destruct Hs as (_ & _ & Hscal).
    rewrite Hscal by (by apply Hkid). by apply Hpar.
  - rewrite Forall_forall in IH, Hsub, Hshs. apply Forall_forall.
    intros t' Ht'. apply IH; [done|by apply Hsub|by apply Hshs|].
    intros m Hm. apply Hout. simpl. right. apply elem_of_concat_map.
    by exists t'.
Qed.

(** X18.  Destroying a child [t] of the root [p] of a well-formed scene
    leaves a well-formed scene: the tree without [t].  The call returns with
    the events of [teardown_events], the nodes of [t] are freed, and the
    other children of [p] keep their order in its current and in its pending
    list. *)
Theorem destroy_child_keeps_scene (L : inventory) (p : addr)
    (ts1 ts2 : list tree) (t : tree) (cur pend : list addr) (h : heap)
    (fuel : nat) (ev : list teardown_event) :
  lists_ok h L →
  held L h (Tree p (ts1 ++ t :: ts2)) →
  scene_tree h (Tree p (ts1 ++ t :: ts2)) →
  current_list h p cur → pending_list h p pend →
  size t < fuel →
  ∃ h',
    wlr_scene_node_destroy fuel (Some (root t)) (h, ev)
    = Ok (h', ev ++ teardown_events t) ∧
    scene_tree h' (Tree p (ts1 ++ ts2)) ∧
    current_list h' p (filter (λ k, k ≠ root t) cur) ∧
    pending_list h' p (filter (λ k, k ≠ root t) pend) ∧
    (∀ a, a ∈ nodes t → h' !! a = None).
Proof.
  intros HL Hheld [Hsh Hnd] Hc Hp Hsz.
  inversion Hheld
    as [n' ts' cur' pend' ty Hty Hsdl Hcur Hpend Hroots Hselfc Hselfp Hsub];
    subst n' ts'.
  assert (cur' = cur) as ->.
  { apply (links_of_inj current_link).
    eapply dll_functional; [by eapply lists_ok_dll|exact Hc]. }
  assert (pend' = pend) as ->.
  { apply (links_of_inj pending_link).
    eapply dll_functional; [by eapply lists_ok_dll|exact Hp]. }
  inversion Hsh as [n' ts' cur' pend' Hc' Hp' Hkids Hlc Hlp Hpar Hshs];
    subst n' ts'.
  assert (cur' = cur) as -> by (by eapply current_list_functional).
  assert (pend' = pend) as -> by (by eapply pending_list_functional).
  set (ts := ts1 ++ t :: ts2) in *.
  assert (Htin : t ∈ ts).
  { unfold ts. rewrite elem_of_app. right. by left. }
  assert (Hpt : p ∉ nodes t) by (by apply (root_not_in_subtree p ts)).
  assert (Hndt : NoDup (nodes t)) by (by apply (NoDup_subtree p ts)).
  assert (Hk : root t ∈ cur ∨ root t ∈ pend).
  { apply Hkids. apply list_elem_of_fmap. by exists t. }
  rewrite Forall_forall in Hsub, Hshs.
  (* the links of the child *)
  assert (Hacl : attached L [] t (root t, current_link)).
  { destruct (decide (root t ∈ cur)) as [Hin|Hnin].
    - right. exists (p, current_children), (links_of current_link cur).
      split_and!; [done|by apply elem_of_links_of|apply not_elem_of_nil
                  |done].
    - left. destruct Hk as [?|Hk]; [done|]. by apply Hselfc. }
  assert (Hapl : attached L [] t (root t, pending_link)).
  { destruct (decide (root t ∈ pend)) as [Hin|Hnin].
    - right. exists (p, pending_children), (links_of pending_link pend).
      split_and!; [done|by apply elem_of_links_of|apply not_elem_of_nil
                  |done].
    - left. destruct Hk as [Hk|?]; [|done]. by apply Hselfp. }
  destruct (destroy_tree L h HL fuel t [] h ev) as (h' & Hrun & Hs);
    [by apply Hsub|done|done| | |done|done| |].
  { intros m _. apply not_elem_of_nil. }
  { by intros a ?%elem_of_nil. }
  { split_and!.
    - by rewrite without_nil.
    - by intros a ?%elem_of_nil.
    - done. }
  simpl app in Hs. exists h'.
  (* a child of [p] is in [t] only when it is the root of [t] *)
  assert (Hother : ∀ t', t' ∈ ts → root t' ≠ root t →
            ∀ m, m ∈ nodes t' → m ∉ nodes t).
  { intros t' Ht' Hne m Hm.
    by apply (nodes_disjoint_roots p ts t' t m). }
  assert (Hroot : ∀ j, j ∈ root <$> ts → j ∈ nodes t → j = root t).
  { intros j Hj Hjt. apply elem_of_roots in Hj as (t' & Ht' & <-).
    destruct (decide (root t' = root t)) as [?|Hne]; [done|].
    exfalso. by apply (Hother t' Ht' Hne (root t')); [apply root_in_nodes|]. }
  assert (Hfilter : ∀ ks : list addr, (∀ j, j ∈ ks → j ∈ root <$> ts) →
            filter (λ j, j ∉ nodes t) ks = filter (λ j, j ≠ root t) ks).
  { intros ks Hks. apply filter_ext_in. intros j Hj. split.
    - intros Hn ->. apply Hn, root_in_nodes.
    - intros Hn Hjt. by apply Hn, Hroot; [apply Hks|]. }
  assert (Hcur' : current_list h' p (filter (λ k, k ≠ root t) cur)).
  { unfold current_list. rewrite <- Hfilter.
    - by apply (survives_list L h h').
    - intros j Hj. apply Hkids. by left. }
  assert (Hpend' : pending_list h' p (filter (λ k, k ≠ root t) pend)).
  { unfold pending_list. rewrite <- Hfilter.
    - by apply (survives_list L h h').
    - intros j Hj. apply Hkids. by right. }
  assert (Hndts : NoDup (nodes (Tree p (ts1 ++ ts2)))).
  { simpl in *. apply NoDup_cons in Hnd as [Hp1 Hnd]. unfold ts in *.
    rewrite map_app, concat_app in *. simpl in *.
    apply NoDup_app in Hnd as (H1 & H12 & H2).
    apply NoDup_app in H2 as (Ht & Ht2 & H2).
    apply NoDup_cons. split.
    - rewrite elem_of_app in *. intros [?|?]; apply Hp1; [by left|].
      right. rewrite elem_of_app. by right.
    - apply NoDup_app. split_and!; [done| |done].
      intros m Hm Hm2. apply (H12 m Hm). rewrite elem_of_app. by right. }
  assert (Hrest : ∀ t', t' ∈ ts1 ++ ts2 → t' ∈ ts ∧ root t' ≠ root t).
  { intros t' Ht'. split.
    - unfold ts. rewrite elem_of_app in *. rewrite elem_of_cons. tauto.
    - intros E. simpl in Hnd. apply NoDup_cons in Hnd as [_ Hnd].
      unfold ts in Hnd. rewrite map_app, concat_app in Hnd. simpl in Hnd.
      apply NoDup_app in Hnd as (H1 & H12 & H2).
      apply NoDup_app in H2 as (Ht & Ht2 & H2).
      apply elem_of_app in Ht' as [Ht'|Ht'].
      + apply (H12 (root t')).
        * apply elem_of_concat_map. exists t'. split; [done|].
          apply root_in_nodes.
        * rewrite elem_of_app. left. rewrite E. apply root_in_nodes.
      + apply (Ht2 (root t)); [apply root_in_nodes|].
        apply elem_of_concat_map. exists t'. split; [done|].
        rewrite <- E. apply root_in_nodes. }
  assert (Hroots' : ∀ j, j ∈ root <$> (ts1 ++ ts2) ↔
                         j ∈ root <$> ts ∧ j ≠ root t).
  { intros j. split.
    - intros (t' & Ht' & <-)%elem_of_roots.
      destruct (Hrest t' Ht') as [? ?]. split; [|done].
      apply list_elem_of_fmap. by exists t'.
    - intros [(t' & Ht' & <-)%elem_of_roots Hne].
      apply list_elem_of_fmap. exists t'. split; [done|].
      unfold ts in Ht'. rewrite elem_of_app, elem_of_cons in Ht'.
      rewrite elem_of_app. destruct Ht' as [?|[->|?]]; [by left|done|by right]. }
  split_and!; [done| |done|done|].
  - split; [|done].
    apply (shaped_tree h' p _ (filter (λ k, k ≠ root t) cur)
             (filter (λ k, k ≠ root t) pend)); [done|done| | | | |].
    + intros j. rewrite Hroots', !list_elem_of_filter, Hkids. tauto.
    + intros j Hj Hjc. apply Hroots' in Hj as [Hj Hne].
      assert (Hjc' : j ∉ cur).
      { intros Hin. apply Hjc. by apply list_elem_of_filter. }
      assert (Hjp : j ∈ pend) by (apply Hkids in Hj as [?|?]; done).
      apply (survives_list L h h' _ j current_link current_link [] Hs);
        [by apply Hselfc|].
      intros Hjt. by apply Hne, Hroot.
    + intros j Hj Hjp. apply Hroots' in Hj as [Hj Hne].
      assert (Hjp' : j ∉ pend).
      { intros Hin. apply Hjp. by apply list_elem_of_filter. }
      assert (Hjc : j ∈ cur) by (apply Hkids in Hj as [?|?]; done).
      apply (survives_list L h h' _ j pending_link pending_link [] Hs);
        [by apply Hselfp|].
      intros Hjt. by apply Hne, Hroot.
    + intros j Hj. apply Hroots' in Hj as [Hj Hne]. unfold parent_of.
      destruct Hs as (_ & _ & Hscal). rewrite Hscal; [by apply Hpar|].
      intros Hjt. by apply Hne, Hroot.
    + apply Forall_forall. intros t' Ht'.
      destruct (Hrest t' Ht') as [Hin Hne].
      apply (shaped_survives L h h' (nodes t) HL Hs);
        [by apply Hsub|by apply Hshs|by apply Hother].
  - destruct Hs as (_ & Hfreed & _). done.
Qed.

Lemma destroy_child_keeps_scene_witness :
  ∃ h',
    wlr_scene_node_destroy 4 (Some 2%positive) (scene_RAB_committed, [])
    = Ok (h', [destroy_signal 2%positive; freed 2%positive]) ∧
    scene_tree h' (Tree 1 [Tree 3 []]) ∧
    current_list h' 1 [3%positive] ∧ pending_list h' 1 [3%positive].
Proof.
  destruct (destroy_child_keeps_scene lists_RAB_committed 1 []
              [Tree 3 []] (Tree 2 []) [2; 3]%positive [2; 3]%positive
              scene_RAB_committed 4 [])
    as (h' & Hrun & Ht & Hc & Hp & _).
  - compute_done.
  - exact held_RAB_committed.
  - exact scene_RAB_committed_tree.
  - compute_done.
  - compute_done.
  - vm_compute. lia.
  - exists h'. by split_and!.
Defined.

(** * Creating and destroying a scene *)

Lemma store_insert a m c o (h : heap) :
  store (a, m) c (<[a := o]> h)
  = o' ← set_member m c o; Some (<[a := o']> h).
Proof.
  unfold store. simpl. rewrite lookup_insert_eq. simpl.
  destruct (set_member m c o); [|done]. simpl. by rewrite insert_insert_eq.
Qed.

Lemma store_prev_insert a m v o (h : heap) :
  store_prev (a, m) v (<[a := o]> h)
  = c ← get_member m o;
    o' ← set_member m {| prev := v; next := next c |} o;
    Some (<[a := o']> h).
Proof.
  unfold store_prev. rewrite load_insert_same.
  destruct (get_member m o); [|done]. simpl. apply store_insert.
Qed.

Lemma store_next_insert a m v o (h : heap) :
  store_next (a, m) v (<[a := o]> h)
  = c ← get_member m o;
    o' ← set_member m {| prev := prev c; next := v |} o;
    Some (<[a := o']> h).
Proof.
  unfold store_next. rewrite load_insert_same.
  destruct (get_member m o); [|done]. simpl. apply store_insert.
Qed.

Lemma load_next_insert a m o (h : heap) :
  load_next (<[a := o]> h) (a, m) = next <$> get_member m o.
Proof. unfold load_next. by rewrite load_insert_same. Qed.

Lemma load_prev_insert a m o (h : heap) :
  load_prev (<[a := o]> h) (a, m) = prev <$> get_member m o.
Proof. unfold load_prev. by rewrite load_insert_same. Qed.

Lemma wl_list_init_insert a m o c (h : heap) :
  get_member m o = Some c →
  wl_list_init (a, m) (<[a := o]> h)
  = o1 ← set_member m {| prev := Some (a, m); next := next c |} o;
    o2 ← set_member m {| prev := Some (a, m); next := Some (a, m) |} o1;
    Some (<[a := o2]> h).
Proof.
  intros Hc. unfold wl_list_init. rewrite store_prev_insert, Hc. simpl.
  destruct (set_member m _ o) as [o1|] eqn:H1; [|done]. simpl.
  rewrite store_next_insert.
  rewrite (get_set_member _ _ _ _ m H1), decide_True by done. simpl. done.
Qed.

Lemma wlr_scene_create_heap (a : addr) (h : heap) :
  h !! a = None →
  wlr_scene_create (Some a) h = Ok (Some a, <[a := Node (root_node a)]> h).
Proof.
  intros Ha. unfold wlr_scene_create. rewrite (calloc_fresh a h Ha).
  unfold scene_node_init. cbn [assert mbind result_bind bool_decide].
  rewrite bool_decide_eq_true_2 by (by left).
  cbn [assert mbind result_bind].
  unfold node_at. rewrite lookup_insert_eq. cbn [must mbind result_bind].
  rewrite insert_insert_eq.
  unfold scene_node_state_init.
  rewrite (wl_list_init_insert a current_children _ NULL_list) by done.
  cbn [set_member mbind option_bind zero_node set_type_parent type].
  rewrite (wl_list_init_insert a current_link _ NULL_list) by done.
  cbn [set_member mbind option_bind must result_bind].
  rewrite (wl_list_init_insert a pending_children _ NULL_list) by done.
  cbn [set_member mbind option_bind].
  rewrite (wl_list_init_insert a pending_link _ NULL_list) by done.
  cbn [set_member mbind option_bind must result_bind].
  reflexivity.
Qed.

Lemma wl_list_remove_insert a m o c (h : heap) :
  get_member m o = Some c → prev c = Some (a, m) → next c = Some (a, m) →
  wl_list_remove (Some (a, m)) (<[a := o]> h)
  = o1 ← set_member m {| prev := Some (a, m); next := Some (a, m) |} o;
    o2 ← set_member m {| prev := Some (a, m); next := Some (a, m) |} o1;
    o3 ← set_member m {| prev := Some (a, m); next := None |} o2;
    o4 ← set_member m NULL_list o3;
    Some (<[a := o4]> h).
Proof.
  intros Hc Hp Hn. destruct c as [cp cn]. simpl in Hp, Hn. subst cp cn.
  unfold wl_list_remove. cbn [mbind option_bind].
  rewrite load_prev_insert, Hc.
  cbn [fmap option_fmap option_map prev mbind option_bind].
  rewrite load_next_insert, Hc.
  cbn [fmap option_fmap option_map next mbind option_bind].
  rewrite store_next_insert, Hc. cbn [mbind option_bind prev].
  destruct (set_member m _ o) as [o1|] eqn:H1; [|done].
  cbn [mbind option_bind].
  rewrite load_next_insert, (get_set_member _ _ _ _ m H1), decide_True by done.
  cbn [fmap option_fmap option_map mbind option_bind next].
  rewrite load_prev_insert, (get_set_member _ _ _ _ m H1), decide_True by done.
  cbn [fmap option_fmap option_map mbind option_bind prev].
  rewrite store_prev_insert, (get_set_member _ _ _ _ m H1), decide_True by done.
  cbn [mbind option_bind next].
  destruct (set_member m _ o1) as [o2|] eqn:H2; [|done].
  cbn [mbind option_bind].
  rewrite store_next_insert, (get_set_member _ _ _ _ m H2), decide_True by done.
  cbn [mbind option_bind prev].
  destruct (set_member m _ o2) as [o3|] eqn:H3; [|done].
  cbn [mbind option_bind].
  rewrite store_prev_insert, (get_set_member _ _ _ _ m H3), decide_True by done.
  cbn [mbind option_bind next]. done.
Qed.

Lemma for_each_safe_empty {St} (mem : St → heap) m head
    (body : addr → St → result St) fuel s :
  load_next (mem s) head = Some (Some head) →
  wl_list_for_each_safe mem m head body (S fuel) s = Ok s.
Proof.
  intros Hn. unfold wl_list_for_each_safe. rewrite Hn.
  cbn [must mbind result_bind]. rewrite Hn. cbn [must mbind result_bind].
  simpl. by rewrite decide_True.
Qed.

(** X19.  A scene that is created and destroyed leaves no trace:
    [wlr_scene_create] followed by [wlr_scene_node_destroy] of the scene
    returns the heap exactly as it was before the creation; the destruction
    emits the destroy signal of the root and frees it, nothing else. *)
Theorem create_destroy_round_trip (a : addr) (h : heap) (fuel : nat)
    (ev : list teardown_event) :
  h !! a = None → 1 < fuel →
  ∃ h1, wlr_scene_create (Some a) h = Ok (Some a, h1) ∧
    wlr_scene_node_destroy fuel (Some a) (h1, ev)
    = Ok (h, ev ++ [destroy_signal a; freed a]).
Proof.
  intros Ha Hfuel. exists (<[a := Node (root_node a)]> h).
  split; [by apply wlr_scene_create_heap|].
  destruct fuel as [|[|fuel]]; [lia..|].
  rewrite wlr_scene_node_destroy_unfold. cbn [fst snd].
  unfold node_at at 1. rewrite lookup_insert_eq.
  cbn [must mbind result_bind].
  rewrite for_each_safe_empty by (cbn [fst]; by rewrite load_next_insert).
  cbn [mbind result_bind].
  rewrite for_each_safe_empty by (cbn [fst]; by rewrite load_next_insert).
  cbn [mbind result_bind fst snd]. unfold scene_node_state_finish.
  rewrite (wl_list_remove_insert a current_link _
             {| prev := Some (a, current_link);
                next := Some (a, current_link) |}) by done.
  cbn [set_member mbind option_bind must result_bind root_node].
  rewrite (wl_list_remove_insert a pending_link _
             {| prev := Some (a, pending_link);
                next := Some (a, pending_link) |}) by done.
  cbn [set_member mbind option_bind must result_bind].
  unfold type_of, node_scalars, node_at. rewrite lookup_insert_eq.
  cbn [fmap option_fmap option_map must mbind result_bind scalars_of s_type
       type set_pending set_current].
  unfold free. rewrite lookup_insert_eq. cbn [must mbind result_bind].
  rewrite delete_insert_id by done. by rewrite <- app_assoc.
Qed.

Lemma create_destroy_round_trip_witness :
  ∃ h1, wlr_scene_create (Some 1%positive) two_surfaces
        = Ok (Some 1%positive, h1) ∧
    wlr_scene_node_destroy 2 (Some 1%positive) (h1, [])
    = Ok (two_surfaces, [destroy_signal 1%positive; freed 1%positive]).
Proof.
  destruct (create_destroy_round_trip 1 two_surfaces 2 [])
    as (h1 & Hc & Hd); [reflexivity|lia|].
  exists h1. split; [exact Hc|exact Hd].
Defined.

(** A list determines what its cells hold. *)
Lemma chain_loads_eq h h' ls : ∀ a z,
  chain h a ls z → chain h' a ls z →
  (∀ c, c ∈ a :: ls → load_next h' c = load_next h c) ∧
  (∀ c, c ∈ ls ++ [z] → load_prev h' c = load_prev h c).
Proof.
  induction ls as [|l ls IH]; intros a z Hc Hc'; simpl in *.
  - destruct Hc as [Hn Hp], Hc' as [Hn' Hp']. split.
    + intros c ->%list_elem_of_singleton. congruence.
    + intros c ->%list_elem_of_singleton. congruence.
  - destruct Hc as [[Hn Hp] Hc], Hc' as [[Hn' Hp'] Hc'].
    destruct (IH l z Hc Hc') as [IHn IHp]. split.
    + intros c [->|Hin]%elem_of_cons; [congruence|by apply IHn].
    + intros c [->|Hin]%elem_of_cons; [congruence|by apply IHp].
Qed.

Lemma dll_loads_eq h h' head ls c :
  dll h head ls → dll h' head ls → c ∈ head :: ls →
  load h' c = load h c.
Proof.
  intros [Hc _] [Hc' _] Hin.
  destruct (chain_loads_eq h h' ls head head Hc Hc') as [Hn Hp].
  specialize (Hn c Hin).
  assert (Hp' : load_prev h' c = load_prev h c).
  { apply Hp. apply elem_of_cons in Hin as [->|Hin].
    - rewrite elem_of_app. right. by left.
    - rewrite elem_of_app. by left. }
  unfold load_next, load_prev in *.
  destruct (load h' c) as [[]|], (load h c) as [[]|]; simpl in *; congruence.
Qed.

(** X20.  A surface node that is created and destroyed again before any
    commit leaves no trace: the heap after [wlr_scene_surface_create]
    followed by [wlr_scene_node_destroy] of the new node holds in every list
    cell and in every member of every node what it held before, with the
    same addresses in use: the pending children of the parent and the
    listeners of the surface are linked as they were.  The destruction emits
    the destroy signal of the node and frees it. *)
Theorem surface_create_destroy_round_trip (a p s : addr) (ts : list tree)
    (cur pend subs : list addr) (h : heap) (fuel : nat)
    (ev : list teardown_event) :
  h !! a = None →
  scene_tree h (Tree p ts) →
  type_of h p = Some WLR_SCENE_NODE_ROOT →
  current_list h p cur → pending_list h p pend →
  listeners h s subs →
  1 < fuel →
  ∃ h1 h2,
    wlr_scene_surface_create (Some a) p s h = Ok (Some a, h1) ∧
    wlr_scene_node_destroy fuel (Some a) (h1, ev)
    = Ok (h2, ev ++ [destroy_signal a; freed a]) ∧
    (∀ c, load h2 c = load h c) ∧
    (∀ b, node_scalars h2 b = node_scalars h b) ∧
    (∀ b, h2 !! b = None ↔ h !! b = None).
Proof.
  intros Ha Ht Hty Hcur Hpend Hsubs Hfuel.
  destruct (surface_create_effect a p s ts cur pend subs h
              Ha Ht Hty Hcur Hpend Hsubs)
    as (h1 & Hc & [Hsh1 Hnd1] & Hp1 & Hc1 & Hacur & Hl1 & Hs1 & Hso1 & Hf1).
  exists h1.
  (* the new node in [h1] *)
  inversion Hsh1 as [n ts' cur1 pend1 Hcu1 Hpe1 Hk1 Hlc1 ? ? Hsub];
    subst n ts'.
  assert (cur1 = cur) as -> by (by eapply current_list_functional).
  assert (Hacl : dll h1 (a, current_link) []).
  { apply Hlc1; [|done]. rewrite fmap_app, elem_of_app. right. by left. }
  rewrite Forall_app, Forall_singleton in Hsub. destruct Hsub as [_ Hleaf].
  inversion Hleaf as [n ts' cur2 pend2 Hcu2 Hpe2 Hk2 ? ? ? ?]; subst n ts'.
  assert (cur2 = []) as ->.
  { destruct cur2 as [|k ?]; [done|]. exfalso.
    assert (Hk : k ∈ root <$> ([] : list tree)) by (apply Hk2; left; by left).
    by apply elem_of_nil in Hk. }
  assert (pend2 = []) as ->.
  { destruct pend2 as [|k ?]; [done|]. exfalso.
    assert (Hk : k ∈ root <$> ([] : list tree)) by (apply Hk2; right; by left).
    by apply elem_of_nil in Hk. }
  assert (Hpa : p ≠ a).
  { intros ->. unfold type_of in Hty. by rewrite node_scalars_fresh in Hty. }
  assert (Hsa : s ≠ a).
  { intros ->. destruct (dll_alloc _ _ _ (a, destroy_listener_list) Hsubs)
      as [x Hx]; [by left|]. by rewrite load_fresh in Hx. }
  assert (Hapend : a ∉ pend).
  { intros Hin. apply (dll_not_fresh _ _ _ a pending_link Hpend Ha).
    right. by apply elem_of_links_of. }
  assert (Hasubs : a ∉ subs).
  { intros Hin. apply (dll_not_fresh _ _ _ a surface_destroy_link Hsubs Ha).
    right. by apply elem_of_links_of. }
  destruct fuel as [|[|fuel]]; [lia..|].
  rewrite wlr_scene_node_destroy_unfold. cbn [fst snd].
  destruct (node_at h1 a) as [nd|] eqn:Hnd;
    [|unfold node_scalars in Hs1; by rewrite Hnd in Hs1].
  cbn [must mbind result_bind].
  rewrite for_each_safe_empty
    by (cbn [fst]; by apply (dll_next_head h1 _ current_link [])).
  cbn [mbind result_bind].
  rewrite for_each_safe_empty
    by (cbn [fst]; by apply (dll_next_head h1 _ pending_link [])).
  cbn [mbind result_bind fst snd]. unfold scene_node_state_finish.
  (* the current link *)
  destruct (dll_remove_self h1 (a, current_link) Hacl)
    as (h2 & -> & _ & Hf2 & Hs2).
  cbn [must mbind result_bind].
  (* the pending link *)
  assert (Hp2 : dll h2 (p, pending_children)
                  (links_of pending_link pend ++ (a, pending_link) :: [])).
  { unfold pending_list in Hp1. rewrite links_of_app in Hp1.
    eapply dll_frame; [|exact Hp1]. intros c Hin. apply Hf2.
    apply elem_of_cons in Hin as [->|Hin]; [done|].
    apply elem_of_app in Hin as [Hin|Hin].
    - apply elem_of_links_of' in Hin as [Hin _]. intros E.
      rewrite E in Hin. done.
    - apply list_elem_of_singleton in Hin as ->. done. }
  destruct (dll_remove h2 (p, pending_children) (links_of pending_link pend)
              (a, pending_link) [] Hp2)
    as (h3 & -> & Hp3 & _ & Hf3 & Hs3).
  rewrite app_nil_r in Hp3, Hf3.
  cbn [must mbind result_bind].
  assert (Hty3 : type_of h3 a = Some WLR_SCENE_NODE_SURFACE).
  { unfold type_of. by rewrite Hs3, Hs2, Hs1. }
  rewrite Hty3. cbn [must mbind result_bind].
  (* the listener *)
  assert (Hl3 : dll h3 (s, destroy_listener_list)
                  (links_of surface_destroy_link subs
                   ++ (a, surface_destroy_link) :: [])).
  { unfold listeners in Hl1. rewrite links_of_app in Hl1.
    eapply dll_frame; [|exact Hl1]. intros c Hin.
    assert (Hm : c.2 = destroy_listener_list ∨ c.2 = surface_destroy_link).
    { apply elem_of_cons in Hin as [->|Hin]; [by left|]. right.
      apply elem_of_app in Hin as [Hin|Hin].
      - by apply elem_of_links_of' in Hin as [Hin _].
      - by apply list_elem_of_singleton in Hin as ->. }
    rewrite Hf3, Hf2; [done| | |].
    - intros ->. destruct Hm; done.
    - intros Hc'. apply elem_of_cons in Hc' as [->|Hc'];
        [destruct Hm; done|].
      apply elem_of_links_of' in Hc' as [Hc' _]. destruct Hm; congruence.
    - intros ->. destruct Hm; done. }
  destruct (dll_remove h3 (s, destroy_listener_list)
              (links_of surface_destroy_link subs)
              (a, surface_destroy_link) [] Hl3)
    as (h4 & -> & Hl4 & _ & Hf4 & Hs4).
  rewrite app_nil_r in Hl4, Hf4.
  cbn [must mbind result_bind].
  assert (Hin4 : is_Some (h4 !! a)).
  { assert (Hsc : node_scalars h4 a
              = Some (fresh_scalars WLR_SCENE_NODE_SURFACE (Some p) (Some s)))
      by (by rewrite Hs4, Hs3, Hs2).
    unfold node_scalars, node_at in Hsc.
    destruct (h4 !! a); [by eexists|done]. }
  destruct Hin4 as [o Ho]. unfold free. rewrite Ho.
  cbn [must mbind result_bind]. exists (delete a h4).
  assert (Hframe : ∀ c, c.1 ≠ a →
            c ∉ (p, pending_children) :: links_of pending_link pend →
            c ∉ (s, destroy_listener_list)
                :: links_of surface_destroy_link subs →
            load h4 c = load h c).
  { intros c Hca Hnp Hnl.
    assert (Hne : ∀ m, c ≠ (a, m)) by (intros m ->; by apply Hca).
    rewrite Hf4 by first [done|apply Hne].
    rewrite Hf3 by first [done|apply Hne].
    rewrite Hf2 by apply Hne. by apply Hf1. }
  assert (Hnolist : ∀ b : addr,
            (b, destroy_listener_list)
            ∉ (p, pending_children) :: links_of pending_link pend).
  { intros b Hin. apply elem_of_cons in Hin as [?|Hin]; [done|].
    by apply elem_of_links_of in Hin as [? _]. }
  split_and!; [done|by rewrite <- app_assoc| | |].
  - intros c. destruct (decide (c.1 = a)) as [E|Hne].
    { destruct c as [c1 c2]. simpl in E. subst c1.
      rewrite (load_fresh a c2 h Ha). unfold load. simpl.
      by rewrite lookup_delete_eq. }
    assert (Hd : load (delete a h4) c = load h4 c).
    { unfold load. by rewrite lookup_delete_ne. }
    rewrite Hd.
    destruct (decide (c ∈ (p, pending_children)
                          :: links_of pending_link pend)) as [Hin|Hnin].
    { rewrite Hf4.
      - by apply (dll_loads_eq h h3 (p, pending_children)
                    (links_of pending_link pend)).
      - intros Hc'. apply elem_of_cons in Hin as [->|Hin].
        + apply elem_of_cons in Hc' as [?|Hc']; [done|].
          by apply elem_of_links_of in Hc' as [? _].
        + apply elem_of_links_of' in Hin as [Hin _].
          apply elem_of_cons in Hc' as [->|Hc']; [done|].
          apply elem_of_links_of' in Hc' as [Hc' _]. congruence.
      - intros ->. by apply Hne. }
    destruct (decide (c ∈ (s, destroy_listener_list)
                          :: links_of surface_destroy_link subs))
      as [Hin|Hnin'].
    { by apply (dll_loads_eq h h4 (s, destroy_listener_list)
                  (links_of surface_destroy_link subs)). }
    by apply Hframe.
  - intros b. destruct (decide (b = a)) as [->|Hne].
    + rewrite (node_scalars_fresh a h Ha). unfold node_scalars, node_at.
      by rewrite lookup_delete_eq.
    + transitivity (node_scalars h4 b).
      * unfold node_scalars, node_at. by rewrite lookup_delete_ne.
      * by rewrite Hs4, Hs3, Hs2, Hso1.
  - intros b. destruct (decide (b = a)) as [->|Hne].
    + by rewrite lookup_delete_eq.
    + rewrite lookup_delete_ne by done.
      (* the addresses in use are those of the lists and of the nodes *)
      split.
      * intros Hb. destruct (h !! b) as [ob|] eqn:Eb; [|done]. exfalso.
        destruct ob as [nb|lb].
        -- assert (Hsb : is_Some (node_scalars h4 b)).
           { rewrite Hs4, Hs3, Hs2, Hso1 by done.
             unfold node_scalars, node_at. rewrite Eb. by eexists. }
           unfold node_scalars, node_at in Hsb. rewrite Hb in Hsb.
           by destruct Hsb.
        -- assert (Hlb : is_Some (load h4 (b, destroy_listener_list))).
           { destruct (decide ((b, destroy_listener_list)
                               ∈ (s, destroy_listener_list)
                                 :: links_of surface_destroy_link subs))
               as [Hin|Hnin].
             - by apply (dll_alloc h4 _ _ _ Hl4).
             - rewrite Hframe; [|done|apply Hnolist|done].
               unfold load. simpl. rewrite Eb. by eexists. }
           unfold load in Hlb. simpl in Hlb. rewrite Hb in Hlb.
           by destruct Hlb.
      * intros Hb. destruct (h4 !! b) as [ob|] eqn:Eb; [|done]. exfalso.
        destruct ob as [nb|lb].
        -- assert (Hsb : is_Some (node_scalars h b)).
           { rewrite <- Hso1, <- Hs2, <- Hs3, <- Hs4 by done.
             unfold node_scalars, node_at. rewrite Eb. by eexists. }
           unfold node_scalars, node_at in Hsb. rewrite Hb in Hsb.
           by destruct Hsb.
        -- assert (Hlb : is_Some (load h (b, destroy_listener_list))).
           { destruct (decide ((b, destroy_listener_list)
                               ∈ (s, destroy_listener_list)
                                 :: links_of surface_destroy_link subs))
               as [Hin|Hnin].
             - by apply (dll_alloc h _ _ _ Hsubs).
             - rewrite <- Hframe; [|done|apply Hnolist|done].
               unfold load. simpl. rewrite Eb. by eexists. }
           unfold load in Hlb. simpl in Hlb. rewrite Hb in Hlb.
           by destruct Hlb.
Qed.

Lemma surface_create_destroy_round_trip_witness :
  ∃ h1 h2,
    wlr_scene_surface_create (Some 3%positive) 1 11 scene_RA
    = Ok (Some 3%positive, h1) ∧
    wlr_scene_node_destroy 2 (Some 3%positive) (h1, [])
    = Ok (h2, [destroy_signal 3%positive; freed 3%positive]) ∧
    (∀ c, load h2 c = load scene_RA c).
Proof.
  destruct (surface_create_destroy_round_trip 3 1 11 [Tree 2 []] []
              [2]%positive [] scene_RA 2 [])
    as (h1 & h2 & Hc & Hd & Hl & _);
    [reflexivity|exact scene_RA_tree|reflexivity|compute_done|compute_done
    |compute_done|lia|].
  exists h1, h2. split_and!; [exact Hc|exact Hd|exact Hl].
Defined.
